(** * Spin wheel: the join/refund/payout ledger, the elimination scheduler
      and the commit-reveal draw

    Shallow embedding of
    - [src/backend/src/index.js]: the Express/PostgreSQL backend (wheel
      creation, join with fee split, manual and automatic start, refund,
      elimination loop, winner finalisation, the listing endpoints), over
      the tables of the SQL
      schema that follows [src/frontend/src/component/SpinWheel.jsx];
    - [src/unnamed/part_001]: the game service of the socket server
      ([createWheel], [deterministicSpinIndex], [startWheel]);
    - [src/unnamed/part_002]: the socket handlers that call it;
    - [src/frontend/src/component/Lobby.jsx]: the handlers by which the
      lobby page follows the messages of the socket server.

    Conventions.  The quantities of the program are integers, modelled by
    [Z].  Those that the backend holds in JavaScript numbers (the amounts
    it reads from [BIGINT] columns and computes with, and the 60-bit prefix
    of the HMAC digest) are doubles: every rounding is written out
    ([Js.to_double], [Js.nearest] and the operators built on them), and so
    is the text that a number is bound as ([Js.shown], [Js.binds]).  The
    sums that PostgreSQL computes on a [BIGINT] column ([coins + $1],
    [winner_pool + $1]) are exact: the 64-bit range is checked where a
    parameter is bound, not on these sums.  Rows of a query without
    [ORDER BY] come in an order that the server chooses.
    A handler that runs inside [BEGIN]/[COMMIT] is one
    function on the database: the row locks it takes serialise it against the
    other transactions on the same rows, and on an exception the [ROLLBACK]
    returns the database it started from.  [now()] timestamps are not
    modelled; [eliminated_at IS NULL] is the boolean [eliminated]. *)

From stdpp Require Import gmap strings list fin_maps pretty sorting.
From Stdlib Require Import ZArith Lia Ascii.

Local Open Scope Z_scope.

(** ** JavaScript values and operators used by the program *)

Module Js.

(** A field of a JSON request body ([Undefined]: the field is absent). *)
Inductive value :=
| Undefined
| Null
| Bool (b : bool)
| Num (z : Z)
| Str (s : string).

(** ToBoolean. *)
Definition truthy (v : value) : bool :=
  match v with
  | Undefined | Null => false
  | Bool b => b
  | Num z => negb (z =? 0)
  | Str s => negb (String.eqb s "")
  end.

(** [a || b]. *)
Definition or (a b : value) : value := if truthy a then a else b.

(** [x || d] where [x] is a number or [undefined]/[NaN] ([None]). *)
Definition or_num (x : option Z) (d : Z) : Z :=
  match x with
  | Some z => if z =? 0 then d else z
  | None => d
  end.

(** The double nearest to a non-negative integer (ties to even): what
    [parseInt] returns for a digit string that denotes [n]. *)
Definition to_double (n : Z) : Z :=
  let e := Z.log2 n - 52 in
  if e <=? 0 then n
  else
    let q := n / 2 ^ e in
    let r := n mod 2 ^ e in
    let half := 2 ^ (e - 1) in
    let q' := if r <? half then q
              else if half <? r then q + 1
              else if Z.even q then q else q + 1 in
    q' * 2 ^ e.

(** [a % b] on integer-valued numbers; [None] is [NaN]. *)
Definition rem (a b : Z) : option Z :=
  if b =? 0 then None else Some (Z.rem a b).

(** [a < b] where [a] may be [NaN]. *)
Definition lt (a : option Z) (b : Z) : bool :=
  match a with
  | Some x => x <? b
  | None => false
  end.

(** *** Numbers that hold amounts

    The driver hands a [BIGINT] column to the program as its decimal text,
    and the program reads it with [Number(...)] or by arithmetic on the
    text: the amount becomes the nearest double.  What follows is the
    arithmetic of doubles on values that are integers, with every rounding
    written out.  A value of magnitude 2^1024 or more stands for an
    infinity; none is ever stored, see [binds]. *)

(** The double nearest to an integer of either sign: [Number(text)] for
    the decimal text of [n]. *)
Definition nearest (n : Z) : Z :=
  if n <? 0 then - to_double (- n) else to_double n.

(** [a - b] and [a * b] on integer-valued numbers: the exact result,
    rounded. *)
Definition sub (a b : Z) : Z := nearest (a - b).

Definition mul (a b : Z) : Z := nearest (a * b).

(** [a / b] to the nearest integer, ties to the even one, for [0 <= a] and
    [0 < b]. *)
Definition round_ne (a b : Z) : Z :=
  let q := a / b in
  let r := a mod b in
  if 2 * r <? b then q
  else if b <? 2 * r then q + 1
  else if Z.even q then q else q + 1.

(** [Math.floor(x / 100)].  The quotient is a double before it is floored:
    with [q] the integer part of [|x| / 100] and [e = log2 q - 52], it is
    the multiple of [2^e] nearest to [|x| / 100], with the sign of [x]. *)
Definition floor_hundredth (x : Z) : Z :=
  let a := Z.abs x in
  let q := a / 100 in
  if q =? 0 then (if x <? 0 then -1 else 0)
  else
    let e := Z.log2 q - 52 in
    if 0 <=? e then Z.sgn x * (round_ne a (100 * 2 ^ e) * 2 ^ e)
    else (Z.sgn x * round_ne (a * 2 ^ (- e)) 100) / 2 ^ (- e).

(** The fewest digits that read back as the double [v], for [0 < v]: the
    multiples of [10^j] on either side of [v] are tried for [j] from the
    given one down, the nearer one is taken when both read back as [v],
    and the even one when they are as near. *)
Fixpoint shortest (v : Z) (j : nat) : Z :=
  let p := 10 ^ Z.of_nat j in
  let lo := v / p * p in
  let hi := lo + p in
  let reads c := (1 <=? c) && (to_double c =? v) in
  let next := match j with O => v | S j' => shortest v j' end in
  if reads lo then
    if reads hi then
      if v - lo <? hi - v then lo
      else if hi - v <? v - lo then hi
      else if Z.even (v / p) then lo else hi
    else lo
  else if reads hi then hi
  else next.

(** The integer whose decimal numeral is [String(v)], for an integer-valued
    number [v] of magnitude below 10^21.  Below 2^53 every integer is a
    double, so the fewest digits that read back as [v] are its own. *)
Definition shown (v : Z) : Z :=
  if Z.abs v <? 2 ^ 53 then v else Z.sgn v * shortest (Z.abs v) 21.

(** The driver binds a number as the parameter text [String(v)].  A
    [BIGINT] parameter reads that text when it is a numeral within 64
    bits; from 10^21 on the text has an exponent (or is [Infinity] or
    [NaN]), which raises like a numeral out of range.  The value read is
    [shown v]. *)
Definition binds (v : Z) : bool :=
  (Z.abs v <? 10 ^ 21) && (- 2 ^ 63 <=? shown v) && (shown v <? 2 ^ 63).

End Js.

(** ** The PostgreSQL backend, [src/backend/src/index.js] *)

Module Backend.

(** [spin_wheels.status]; the program writes ['active'], ['finished'] and
    ['aborted'] and tests for ['pending'], the value a new row has. *)
Inductive status := Pending | Active | Finished | Aborted.

#[global] Instance status_eq_dec : EqDecision status.
Proof. solve_decision. Defined.

(** The tables are those of the SQL schema that the sources carry after
    [SpinWheel.jsx]: [users], [config], [spin_wheels], [spin_participants]
    and [transactions], with serial keys, with [REFERENCES users(id)] on
    [spin_participants.user_id] and [transactions.user_id], and with no
    uniqueness declared on [spin_participants (wheel_id, user_id)].
    [config.value], a text, is the number that [Number(value)] reads from
    it; a value that reads as no number counts as an absent key. *)

(** How a [BIGINT] column reads a text parameter (the server's
    [pg_strtoint64_safe], version 16 and later): blanks, an optional sign,
    then decimal digits, or [0x], [0o] or [0b] and digits of that radix,
    then blanks; an underscore may stand between two digits, and after the
    prefix of a radix; the value is within 64 bits.  Anything else
    raises. *)
Definition is_blank (a : ascii) : bool :=
  let n := nat_of_ascii a in
  Nat.eqb n 32 || (Nat.leb 9 n && Nat.leb n 13).

(** The value of a digit of the radix [base] (2, 8, 10 or 16). *)
Definition digit_in (base : Z) (a : ascii) : option Z :=
  let n := nat_of_ascii a in
  let v :=
    if Nat.leb 48 n && Nat.leb n 57 then Some (Z.of_nat (n - 48))
    else if Nat.leb 97 n && Nat.leb n 102 then Some (Z.of_nat (n - 87))
    else if Nat.leb 65 n && Nat.leb n 70 then Some (Z.of_nat (n - 55))
    else None in
  match v with
  | Some k => if k <? base then Some k else None
  | None => None
  end.

Fixpoint all_blank (s : string) : bool :=
  match s with
  | EmptyString => true
  | String a rest => is_blank a && all_blank rest
  end.

Fixpoint skip_blanks (s : string) : string :=
  match s with
  | EmptyString => EmptyString
  | String a rest => if is_blank a then skip_blanks rest else s
  end.

(** Digits of the radix [base], at least one ([seen]), then only blanks.
    [pending] says that the character before was an underscore, which a
    digit has to follow; [lead] says whether an underscore may come before
    the first digit (it may after a prefix, not in a decimal numeral). *)
Fixpoint read_digits (base : Z) (lead : bool) (s : string) (acc : Z)
    (seen pending : bool) : option Z :=
  match s with
  | EmptyString => if seen && negb pending then Some acc else None
  | String a rest =>
    match digit_in base a with
    | Some k => read_digits base lead rest (base * acc + k) true false
    | None =>
      if Ascii.eqb a "_"
      then if pending || negb (seen || lead) then None
           else read_digits base lead rest acc seen true
      else if seen && negb pending && all_blank s then Some acc else None
    end
  end.

(** The digits after the sign: those of a radix when its prefix is there,
    decimal ones otherwise. *)
Definition read_numeral (s : string) : option Z :=
  match s with
  | String "0" (String c rest) =>
    if Ascii.eqb c "x" || Ascii.eqb c "X"
    then read_digits 16 true rest 0 false false
    else if Ascii.eqb c "o" || Ascii.eqb c "O"
    then read_digits 8 true rest 0 false false
    else if Ascii.eqb c "b" || Ascii.eqb c "B"
    then read_digits 2 true rest 0 false false
    else read_digits 10 false s 0 false false
  | _ => read_digits 10 false s 0 false false
  end.

Definition in_int8 (z : Z) : option Z :=
  if (- 2 ^ 63 <=? z) && (z <? 2 ^ 63) then Some z else None.

Definition int8in (s : string) : option Z :=
  match skip_blanks s with
  | String "-" rest => read_numeral rest ≫= (fun z => in_int8 (- z))
  | String "+" rest => read_numeral rest ≫= in_int8
  | s' => read_numeral s' ≫= in_int8
  end.

Record user := {
  username : string;
  coins : Z;
  is_admin : bool
}.

Record wheel := {
  owner_id : Z;
  entry_fee : Z;
  w_status : status;
  winner_pool : Z;
  admin_pool : Z;
  app_pool : Z;
  min_participants : Z
}.

Record participant := {
  p_id : Z;
  wheel_id : Z;
  user_id : Z;
  eliminated : bool;
  eliminated_order : option Z
}.

Inductive txtype := Credit | Debit.

(** The [meta] column: [{wheel}], [{wheel, reason}] or [{wheel, role}]. *)
Record meta := {
  m_wheel : Z;
  m_reason : option string;
  m_role : option string
}.

Record txn := {
  t_user : Z;
  t_amount : Z;
  t_type : txtype;
  t_meta : meta
}.

Record db := {
  users : gmap Z user;
  spin_wheels : gmap Z wheel;
  spin_participants : list participant;
  transactions : list txn;
  config : gmap string Z;
  wheel_seq : Z;
  participant_seq : Z
}.

(** The order in which the server returns the rows of a query that has no
    [ORDER BY], as a function of the rows in the order of the table. *)
Definition row_order : Type :=
  list (participant * string) -> list (participant * string).

(** Messages sent with [io.emit].  The [participants] of
    [participantJoined] are the rows of a query without [ORDER BY]: the
    array sent, for the order in which the server returns them. *)
Inductive event :=
| wheelCreated (id : Z) (w : wheel)
| participantJoined (wheelId : Z)
    (participants : row_order -> list (participant * string))
| wheelStarted (wheelId : Z)
| wheelAborted (wheelId : Z) (reason : string)
| userEliminated (wheelId : Z) (uid : Z) (name : string)
| wheelFinished (wheelId : Z) (winnerUserId : Z).

(** *** Row updates *)

Definition set_users (f : gmap Z user -> gmap Z user) (d : db) : db :=
  {| users := f (users d); spin_wheels := spin_wheels d;
     spin_participants := spin_participants d;
     transactions := transactions d; config := config d;
     wheel_seq := wheel_seq d; participant_seq := participant_seq d |}.

Definition set_wheels (f : gmap Z wheel -> gmap Z wheel) (d : db) : db :=
  {| users := users d; spin_wheels := f (spin_wheels d);
     spin_participants := spin_participants d;
     transactions := transactions d; config := config d;
     wheel_seq := wheel_seq d; participant_seq := participant_seq d |}.

Definition set_participants (f : list participant -> list participant)
    (d : db) : db :=
  {| users := users d; spin_wheels := spin_wheels d;
     spin_participants := f (spin_participants d);
     transactions := transactions d; config := config d;
     wheel_seq := wheel_seq d; participant_seq := participant_seq d |}.

(** [INSERT INTO transactions (user_id, amount, type, meta)]. *)
Definition insert_transaction (t : txn) (d : db) : db :=
  {| users := users d; spin_wheels := spin_wheels d;
     spin_participants := spin_participants d;
     transactions := transactions d ++ [t]; config := config d;
     wheel_seq := wheel_seq d; participant_seq := participant_seq d |}.

Definition with_coins (c : Z) (u : user) : user :=
  {| username := username u; coins := c; is_admin := is_admin u |}.

(** [UPDATE users SET coins = $1 WHERE id = $2]. *)
Definition set_coins (uid c : Z) (d : db) : db :=
  set_users (alter (with_coins c) uid) d.

(** [UPDATE users SET coins = coins + $1 WHERE id = $2]. *)
Definition add_coins (uid amt : Z) (d : db) : db :=
  set_users (alter (fun u => with_coins (coins u + amt) u) uid) d.

Definition with_status (s : status) (w : wheel) : wheel :=
  {| owner_id := owner_id w; entry_fee := entry_fee w; w_status := s;
     winner_pool := winner_pool w; admin_pool := admin_pool w;
     app_pool := app_pool w; min_participants := min_participants w |}.

(** [UPDATE spin_wheels SET status = s WHERE id = $1]. *)
Definition set_status (wid : Z) (s : status) (d : db) : db :=
  set_wheels (alter (with_status s) wid) d.

Definition add_pools (a b c : Z) (w : wheel) : wheel :=
  {| owner_id := owner_id w; entry_fee := entry_fee w;
     w_status := w_status w;
     winner_pool := winner_pool w + a; admin_pool := admin_pool w + b;
     app_pool := app_pool w + c; min_participants := min_participants w |}.

(** Rows of [spin_participants] with [wheel_id = wid]. *)
Definition participants_of (wid : Z) (d : db) : list participant :=
  filter (fun p => wheel_id p = wid) (spin_participants d).

(** ... that also have [eliminated_at IS NULL]. *)
Definition active_of (wid : Z) (d : db) : list participant :=
  filter (fun p => eliminated p = false) (participants_of wid d).

(** [SELECT COUNT( * ) FROM spin_participants WHERE wheel_id = $1]. *)
Definition count_participants (wid : Z) (d : db) : Z :=
  Z.of_nat (length (participants_of wid d)).

(** [p.*, u.username] of the join of [spin_participants] with [users]. *)
Definition with_username (d : db) (ps : list participant)
    : list (participant * string) :=
  omap (fun p => (fun u => (p, username u)) <$> users d !! user_id p) ps.

(** *** [getConfigSplit] *)

Record splits := {
  winner_pct : Z;
  admin_pct : Z;
  app_pct : Z
}.

Definition getConfigSplit (d : db) : splits :=
  {| winner_pct := Js.or_num (config d !! "fee_split_winner_pct"%string) 70;
     admin_pct := Js.or_num (config d !! "fee_split_admin_pct"%string) 20;
     app_pct := Js.or_num (config d !! "fee_split_app_pct"%string) 10 |}.

(** *** [POST /api/wheels]: create a wheel *)

(** A pending timer: [setTimeout(() => autoStartWheel(wheel.id), 180000)] or
    [setTimeout(eliminateOne, 7000)].  [eliminateOne] is a closure over the
    wheel id, the shuffled [participants] array and the cursor [idx]. *)
Record chain := {
  c_wheel : Z;
  c_participants : list (Z * Z);
  c_idx : nat
}.

Inductive timer :=
| AutoStartTimer (wheelId : Z)
| EliminateTimer (c : chain).

Inductive create_response :=
| Created (id : Z) (w : wheel)
| OnlyAdmin
| ActiveWheelExists
| CreateFailed.

(** The wheels that the query [status IN ('pending','active')] returns. *)
Definition live_wheels (d : db) : gmap Z wheel :=
  filter (fun kv => w_status kv.2 = Pending \/ w_status kv.2 = Active)
         (spin_wheels d).

(** The value the [entry_fee] column stores for the bound parameter [$2]
    ([None]: the INSERT raises).  A number of the body is the double
    nearest to its numeral, and is bound as the text [String(number)]; a
    string is bound as it is. *)
Definition fee_param (v : Js.value) : option Z :=
  match v with
  | Js.Num z =>
    if Js.binds (Js.nearest z) then Some (Js.shown (Js.nearest z)) else None
  | Js.Str s => int8in s
  | _ => None
  end.

(** The row of [INSERT INTO spin_wheels (owner_id, entry_fee)]: every other
    column takes its default, ['pending'], 0 for the pools and 3 for
    [min_participants]. *)
Definition new_wheel (owner fee : Z) : wheel :=
  {| owner_id := owner; entry_fee := fee; w_status := Pending;
     winner_pool := 0; admin_pool := 0; app_pool := 0;
     min_participants := 3 |}.

Definition insert_wheel (w : wheel) (d : db) : db :=
  {| users := users d; spin_wheels := <[wheel_seq d := w]> (spin_wheels d);
     spin_participants := spin_participants d;
     transactions := transactions d; config := config d;
     wheel_seq := wheel_seq d + 1; participant_seq := participant_seq d |}.

Definition post_wheels (d : db) (owner : Z)
    (entry_fee : Js.value) : db * list event * list timer * create_response :=
  match users d !! owner with
  | None => (d, [], [], OnlyAdmin)
  | Some adm =>
    if negb (is_admin adm) then (d, [], [], OnlyAdmin)
    else if negb (bool_decide (live_wheels d = ∅))
    then (d, [], [], ActiveWheelExists)
    else
      match fee_param (Js.or entry_fee (Js.Num 100)) with
      | None => (d, [], [], CreateFailed)
      | Some fee =>
        let wheel := new_wheel owner fee in
        let id := wheel_seq d in
        (insert_wheel wheel d, [wheelCreated id wheel], [AutoStartTimer id],
         Created id wheel)
      end
  end.

(** *** [POST /api/wheels/:id/join]: pay the entry fee and join *)

Inductive join_error :=
| WheelNotFound
| WheelNotJoinable
| UserNotFound
| InsufficientCoins.

(** The [error] string of the 400 response. *)
Definition join_message (e : join_error) : string :=
  match e with
  | WheelNotFound => "wheel not found"
  | WheelNotJoinable => "wheel not joinable"
  | UserNotFound => "user not found"
  | InsufficientCoins => "insufficient coins"
  end.

(** [JoinFailed]: a query of the transaction raised; the response is the
    400 with the message of the server. *)
Inductive join_response :=
| JoinOk
| JoinRejected (e : join_error)
| JoinFailed.

(** [INSERT INTO spin_participants (wheel_id, user_id)]. *)
Definition insert_participant (wid uid : Z) (d : db) : db :=
  {| users := users d; spin_wheels := spin_wheels d;
     spin_participants :=
       spin_participants d ++
       [{| p_id := participant_seq d; wheel_id := wid; user_id := uid;
           eliminated := false; eliminated_order := None |}];
     transactions := transactions d; config := config d;
     wheel_seq := wheel_seq d; participant_seq := participant_seq d + 1 |}.

Definition join_meta (wid : Z) : meta :=
  {| m_wheel := wid; m_reason := None; m_role := None |}.

(** The numbers that the handler computes from the texts of [coins] and
    [entry_fee] and from the percentages ([Number(r.value)]): each is a
    double. *)
Definition newCoins (w : wheel) (u : user) : Z :=
  Js.sub (Js.nearest (coins u)) (Js.nearest (entry_fee w)).

(** [-wheel.entry_fee]. *)
Definition debit (w : wheel) : Z := - Js.nearest (entry_fee w).

(** [Math.floor(wheel.entry_fee * pct / 100)]. *)
Definition share (w : wheel) (pct : Z) : Z :=
  Js.floor_hundredth (Js.mul (Js.nearest (entry_fee w)) (Js.nearest pct)).

Definition winnerAmt (s : splits) (w : wheel) : Z := share w (winner_pct s).

Definition adminAmt (s : splits) (w : wheel) : Z := share w (admin_pct s).

(** [Number(wheel.entry_fee) - winnerAmt - adminAmt]. *)
Definition appAmt (s : splits) (w : wheel) : Z :=
  Js.sub (Js.sub (Js.nearest (entry_fee w)) (winnerAmt s w)) (adminAmt s w).

(** Every parameter of the three writes is read by its column. *)
Definition join_binds (s : splits) (w : wheel) (u : user) : bool :=
  Js.binds (newCoins w u) && Js.binds (debit w) &&
  Js.binds (winnerAmt s w) && Js.binds (adminAmt s w) &&
  Js.binds (appAmt s w).

(** The handler.  The writes are one transaction: when a parameter is not
    read by its column the query raises and the [ROLLBACK] undoes the
    writes before it, so the parameters are tested together. *)
Definition join (d : db) (wheelId uid : Z)
    : db * list event * join_response :=
  match spin_wheels d !! wheelId with
  | None => (d, [], JoinRejected WheelNotFound)
  | Some wheel =>
    if negb (bool_decide (w_status wheel = Pending))
    then (d, [], JoinRejected WheelNotJoinable)
    else
      match users d !! uid with
      | None => (d, [], JoinRejected UserNotFound)
      | Some user =>
        if Js.nearest (coins user) <? Js.nearest (entry_fee wheel)
        then (d, [], JoinRejected InsufficientCoins)
        else if negb (join_binds (getConfigSplit d) wheel user)
        then (d, [], JoinFailed)
        else
          let d1 := set_coins uid (Js.shown (newCoins wheel user)) d in
          let d2 :=
            insert_transaction
              {| t_user := uid; t_amount := Js.shown (debit wheel);
                 t_type := Debit; t_meta := join_meta wheelId |} d1 in
          let splits := getConfigSplit d2 in
          let d3 :=
            set_wheels
              (alter (add_pools (Js.shown (winnerAmt splits wheel))
                                (Js.shown (adminAmt splits wheel))
                                (Js.shown (appAmt splits wheel))) wheelId)
              d2 in
          let d4 := insert_participant wheelId uid d3 in
          (d4,
           [participantJoined wheelId
              (fun order : row_order =>
                 order (with_username d4 (participants_of wheelId d4)))],
           JoinOk)
      end
  end.

(** The database a successful join of [uid] to [wid] commits. *)
Definition joined (d : db) (wid uid : Z) (w : wheel) (u : user) : db :=
  let s := getConfigSplit d in
  insert_participant wid uid
    (set_wheels
       (alter (add_pools (Js.shown (winnerAmt s w)) (Js.shown (adminAmt s w))
                         (Js.shown (appAmt s w))) wid)
       (insert_transaction
          {| t_user := uid; t_amount := Js.shown (debit w); t_type := Debit;
             t_meta := join_meta wid |}
          (set_coins uid (Js.shown (newCoins w u)) d))).

(** *** [finalizeWinner] *)

Definition role_meta (wid : Z) (role : string) : meta :=
  {| m_wheel := wid; m_reason := None; m_role := Some role |}.

(** [UPDATE users SET coins = coins + amt] and the [INSERT] of the credit
    record. *)
Definition credited (uid amt : Z) (m : meta) (d : db) : db :=
  insert_transaction
    {| t_user := uid; t_amount := amt; t_type := Credit; t_meta := m |}
    (add_coins uid amt d).

(** ... which raises ([None]) when no such user exists:
    [transactions.user_id] references [users]. *)
Definition credit (uid amt : Z) (m : meta) (d : db) : option db :=
  match users d !! uid with
  | Some _ => Some (credited uid amt m d)
  | None => None
  end.

Definition finalizeWinner (wheelId winnerUserId : Z) (d : db)
    : db * list event :=
  match spin_wheels d !! wheelId with
  | None => (d, [])
  | Some w =>
    let paid :=
      d1 ← (if 0 <? winner_pool w
            then credit winnerUserId (winner_pool w)
                        (role_meta wheelId "winner") d
            else Some d);
      if 0 <? admin_pool w
      then credit (owner_id w) (admin_pool w) (role_meta wheelId "admin") d1
      else Some d1 in
    match paid with
    | Some d2 =>
      (set_status wheelId Finished d2, [wheelFinished wheelId winnerUserId])
    | None => (d, [])
    end
  end.

(** The database after the credits of a payout that raised nothing. *)
Definition paid_out (wheelId winnerUserId : Z) (w : wheel) (d : db) : db :=
  let d1 := if 0 <? winner_pool w
            then credited winnerUserId (winner_pool w)
                          (role_meta wheelId "winner") d
            else d in
  if 0 <? admin_pool w
  then credited (owner_id w) (admin_pool w) (role_meta wheelId "admin") d1
  else d1.

(** The credit records of a payout: one for the winner and one for the
    owner, each only if its pool is positive. *)
Definition payout_records (wheelId winnerUserId : Z) (w : wheel)
    : list txn :=
  (if 0 <? winner_pool w
   then [{| t_user := winnerUserId; t_amount := winner_pool w;
            t_type := Credit; t_meta := role_meta wheelId "winner" |}]
   else []) ++
  (if 0 <? admin_pool w
   then [{| t_user := owner_id w; t_amount := admin_pool w;
            t_type := Credit; t_meta := role_meta wheelId "admin" |}]
   else []).

(** *** [refundWheel] *)

Definition reason_meta (wid : Z) (reason : string) : meta :=
  {| m_wheel := wid; m_reason := Some reason; m_role := None |}.

(** [Number(w.rows[0].entry_fee)] as the columns read it when it is bound:
    the amount that a refund credits. *)
Definition refund_amount (w : wheel) : Z := Js.shown (Js.nearest (entry_fee w)).

(** One turn of the loop over [parts.rows]; [None] once a turn has thrown
    ([w.rows[0]] is [undefined] when the wheel row is missing, the update
    raises when the text of the fee is not read as a [BIGINT], and the
    credit raises when the user is missing).  The loop takes the rows as
    the table has them: another order of [parts.rows] changes the order in
    which the credit records are appended, and nothing else. *)
Definition refund_one (wheelId : Z) (reason : string) (acc : option db)
    (p : participant) : option db :=
  match acc with
  | None => None
  | Some d =>
    match spin_wheels d !! wheelId with
    | None => None
    | Some w =>
      let fee := Js.nearest (entry_fee w) in
      if Js.binds fee
      then credit (user_id p) (Js.shown fee) (reason_meta wheelId reason) d
      else None
    end
  end.

Definition refundWheel (wheelId : Z) (reason : string) (d : db) : db :=
  match foldl (refund_one wheelId reason) (Some d) (participants_of wheelId d)
  with
  | Some d' => set_status wheelId Aborted d'
  | None => d
  end.

(** The database after the credits of a refund loop that raised nothing. *)
Definition refunded (wheelId : Z) (reason : string) (fee : Z)
    (ps : list participant) (d : db) : db :=
  foldl (fun acc p => credited (user_id p) fee (reason_meta wheelId reason) acc)
        d ps.

(** The credit record of a refund. *)
Definition refund_record (wheelId : Z) (reason : string) (fee : Z)
    (p : participant) : txn :=
  {| t_user := user_id p; t_amount := fee; t_type := Credit;
     t_meta := reason_meta wheelId reason |}.

(** The number of rows that [uid] has on wheel [wid]. *)
Definition rows_of (uid wid : Z) (d : db) : Z :=
  Z.of_nat (length (filter (fun p => user_id p = uid)
                           (participants_of wid d))).

(** *** [startElimination] and its closure [eliminateOne] *)

(** [participants.sort(() => Math.random() - 0.5)] is an argument: the
    order the sort produced. *)
Definition startElimination (shuffle : list (Z * Z) -> list (Z * Z))
    (wheelId : Z) (d : db) : list timer :=
  let parts :=
    (fun r : participant * string => (p_id r.1, user_id r.1))
      <$> with_username d (active_of wheelId d) in
  match parts with
  | [] => []
  | _ :: _ =>
    [EliminateTimer
       {| c_wheel := wheelId; c_participants := shuffle parts; c_idx := 0 |}]
  end.

(** [SELECT * FROM spin_participants WHERE id = $1 AND eliminated_at IS NULL]
    has a row. *)
Definition still_active (pid : Z) (d : db) : bool :=
  existsb (fun p => (p_id p =? pid) && negb (eliminated p))
          (spin_participants d).

(** The [while (idx < participants.length)] loop, on the part of the array
    from [idx] on: the candidate found and the cursor it leaves. *)
Fixpoint next_candidate (d : db) (rest : list (Z * Z)) (idx : nat)
    : option (Z * Z) * nat :=
  match rest with
  | [] => (None, idx)
  | cand :: rest' =>
    if still_active cand.1 d then (Some cand, S idx)
    else next_candidate d rest' (S idx)
  end.

Definition mark (n : Z) (p : participant) : participant :=
  {| p_id := p_id p; wheel_id := wheel_id p; user_id := user_id p;
     eliminated := true; eliminated_order := Some n |}.

(** [UPDATE spin_participants SET eliminated_at = now(), eliminated_order =
    (SELECT COUNT( * ) FROM spin_participants WHERE wheel_id = $1)
    WHERE id = $2]. *)
Definition mark_eliminated (wheelId pid : Z) (d : db) : db :=
  let n := count_participants wheelId d in
  set_participants
    (fmap (fun p => if p_id p =? pid then mark n p else p)) d.

Definition eliminateOne (c : chain) (d : db)
    : db * list event * list timer :=
  let wheelId := c_wheel c in
  match active_of wheelId d with
  | [] => (set_status wheelId Finished d, [], [])
  | [remaining] =>
    let '(d', ev) := finalizeWinner wheelId (user_id remaining) d in
    (d', ev, [])
  | cand2 :: _ :: _ =>
    let '(found, idx) :=
      next_candidate d (drop (c_idx c) (c_participants c)) (c_idx c) in
    let eliminated :=
      match found with
      | Some cand => cand
      | None => (p_id cand2, user_id cand2)
      end in
    let d' := mark_eliminated wheelId eliminated.1 d in
    match users d' !! eliminated.2 with
    | None => (d', [], [])
    | Some u =>
      (d', [userEliminated wheelId eliminated.2 (username u)],
       [EliminateTimer
          {| c_wheel := wheelId; c_participants := c_participants c;
             c_idx := idx |}])
    end
  end.

(** *** [autoStartWheel] and [POST /api/wheels/:id/start] *)

Definition autoStartWheel (shuffle : list (Z * Z) -> list (Z * Z))
    (wheelId : Z) (d : db) : db * list event * list timer :=
  match spin_wheels d !! wheelId with
  | None => (d, [], [])
  | Some wheel =>
    if negb (bool_decide (w_status wheel = Pending)) then (d, [], [])
    else if count_participants wheelId d <? min_participants wheel
    then (refundWheel wheelId "not_enough_participants" d,
          [wheelAborted wheelId "not_enough_participants"], [])
    else
      let d' := set_status wheelId Active d in
      (d', [wheelStarted wheelId], startElimination shuffle wheelId d')
  end.

Inductive start_response :=
| StartOk
| StartOnlyAdmin
| StartWheelNotFound
| WheelNotStartable
| NotEnoughParticipants.

(** The checks of the handler; [None] when all of them pass.  The handler
    awaits between these reads and the update that follows. *)
Definition start_checks (d : db) (wheelId owner : Z)
    : option start_response :=
  match users d !! owner with
  | None => Some StartOnlyAdmin
  | Some ow =>
    if negb (is_admin ow) then Some StartOnlyAdmin
    else
      match spin_wheels d !! wheelId with
      | None => Some StartWheelNotFound
      | Some wheel =>
        if negb (bool_decide (w_status wheel = Pending))
        then Some WheelNotStartable
        else if count_participants wheelId d <? min_participants wheel
        then Some NotEnoughParticipants
        else None
      end
  end.

(** "mark active and start elimination". *)
Definition start_commit (shuffle : list (Z * Z) -> list (Z * Z))
    (wheelId : Z) (d : db) : db * list event * list timer :=
  let d' := set_status wheelId Active d in
  (d', [wheelStarted wheelId], startElimination shuffle wheelId d').

Definition post_wheels_start (shuffle : list (Z * Z) -> list (Z * Z))
    (d : db) (wheelId owner : Z)
    : db * list event * list timer * start_response :=
  match start_checks d wheelId owner with
  | Some r => (d, [], [], r)
  | None =>
    let '(d', ev, tm) := start_commit shuffle wheelId d in
    (d', ev, tm, StartOk)
  end.

(** A timer fires. *)
Definition fire (shuffle : list (Z * Z) -> list (Z * Z)) (t : timer)
    (d : db) : db * list event * list timer :=
  match t with
  | AutoStartTimer wheelId => autoStartWheel shuffle wheelId d
  | EliminateTimer c => eliminateOne c d
  end.

(** The timer queue: the timers fire in the order in which they were set,
    and the timers a callback sets go to the end ([fuel] bounds the number
    of callbacks run). *)
Fixpoint run_timers (shuffle : list (Z * Z) -> list (Z * Z)) (fuel : nat)
    (queue : list timer) (d : db) : db * list event :=
  match fuel, queue with
  | S fuel', t :: queue' =>
    let '(d', ev, tm) := fire shuffle t d in
    let '(d'', ev') := run_timers shuffle fuel' (queue' ++ tm) d' in
    (d'', ev ++ ev')
  | _, _ => (d, [])
  end.

(** The rows of a wheel that are marked eliminated, with their
    [eliminated_order]. *)
Definition eliminated_rows (wid : Z) (d : db) : list (Z * option Z) :=
  (fun p => (user_id p, eliminated_order p))
    <$> filter (fun p => eliminated p = true) (participants_of wid d).

(** *** What the tables guarantee for the elimination loop *)

(** [spin_participants.id] is a key. *)
Definition ids_unique (d : db) : Prop :=
  NoDup (p_id <$> spin_participants d).

(** The user of every participant row exists. *)
Definition users_exist (d : db) : Prop :=
  Forall (fun p => is_Some (users d !! user_id p)) (spin_participants d).

(** The array of a loop holds [(id, user_id)] of rows of its wheel, as
    [startElimination] loads them. *)
Definition chain_ok (c : chain) (d : db) : Prop :=
  Forall (fun cand : Z * Z =>
            Forall (fun p => p_id p = cand.1 ->
                      wheel_id p = c_wheel c /\ user_id p = cand.2)
                   (spin_participants d))
         (c_participants c).

(** [dn] is [d] with some rows of wheel [wid] that were active marked
    eliminated with order [n], and nothing else changed. *)
Definition marks_only (wid n : Z) (d dn : db) : Prop :=
  users dn = users d /\ spin_wheels dn = spin_wheels d /\
  transactions dn = transactions d /\
  Forall2 (fun p q => q = p \/
             (wheel_id p = wid /\ eliminated p = false /\ q = mark n p))
          (spin_participants d) (spin_participants dn).

(** *** Runs of the backend *)

(** A request served or a timer fired.  Any callback may fire at any time:
    the timers that are really pending are a subset. *)
Inductive action :=
| ReqCreate (owner : Z) (entry_fee : Js.value)
| ReqJoin (wheelId uid : Z)
| ReqStart (shuffle : list (Z * Z) -> list (Z * Z)) (wheelId owner : Z)
| FireAutoStart (shuffle : list (Z * Z) -> list (Z * Z)) (wheelId : Z)
| FireEliminate (c : chain).

Definition perform (d : db) (a : action) : db :=
  match a with
  | ReqCreate owner fee => (post_wheels d owner fee).1.1.1
  | ReqJoin wheelId uid => (join d wheelId uid).1.1
  | ReqStart shuffle wheelId owner =>
    (post_wheels_start shuffle d wheelId owner).1.1.1
  | FireAutoStart shuffle wheelId => (autoStartWheel shuffle wheelId d).1.1
  | FireEliminate c => (eliminateOne c d).1.1
  end.

Definition run (d : db) (l : list action) : db :=
  foldl perform d l.

(** The signed amounts recorded for [uid]. *)
Definition recorded (uid : Z) (txs : list txn) : Z :=
  foldr Z.add 0 (t_amount <$> filter (fun t => t_user t = uid) txs).

Definition balance (uid : Z) (d : db) : option Z :=
  coins <$> users d !! uid.

(** The transaction records appended between [d] and a later [d']. *)
Definition appended (d d' : db) : list txn :=
  drop (length (transactions d)) (transactions d').

(** Between [d] and [d'] the records [new] were appended, and every balance
    moved by the sum of the amounts recorded for its user. *)
Definition ledger_step (d d' : db) (new : list txn) : Prop :=
  transactions d' = transactions d ++ new /\
  forall uid,
    balance uid d' = (fun c => c + recorded uid new) <$> balance uid d.

(** The sum of the three pool accumulators of a wheel. *)
Definition pool_total (w : wheel) : Z :=
  winner_pool w + admin_pool w + app_pool w.

(** The entry fees of the paid joins of a wheel: one fee for each row of
    [spin_participants]. *)
Definition fees_collected (wid : Z) (d : db) : Z :=
  foldr Z.add 0
    ((fun _ => default 0 (entry_fee <$> spin_wheels d !! wid))
       <$> participants_of wid d).

Definition join_requests (js : list (Z * Z)) : list action :=
  (fun j => ReqJoin j.1 j.2) <$> js.

(** The split of [fee] is computed without rounding: the fee, the two
    percentages, the product of the fee with each and what is left of the
    fee after each share are of magnitude below 2^53. *)
Definition safe_split (s : splits) (fee : Z) : Prop :=
  Z.abs fee < 2 ^ 53 /\
  Z.abs (winner_pct s) < 2 ^ 53 /\ Z.abs (admin_pct s) < 2 ^ 53 /\
  Z.abs (fee * winner_pct s) < 2 ^ 53 /\
  Z.abs (fee * admin_pct s) < 2 ^ 53 /\
  Z.abs (fee - fee * winner_pct s / 100) < 2 ^ 53 /\
  Z.abs (fee - fee * winner_pct s / 100 - fee * admin_pct s / 100) < 2 ^ 53.

(** The debit of the fee of [w] from the balance of [u] is computed
    without rounding: the fee is not negative, and the fee and the balance
    are of magnitude below 2^53. *)
Definition safe_debit (w : wheel) (u : user) : Prop :=
  0 <= entry_fee w < 2 ^ 53 /\ Z.abs (coins u) < 2 ^ 53.

(** The amounts that the tables hold are whole doubles: every fee is not
    negative and below 2^53, and every balance is of magnitude below 2^53,
    so that [Number] reads each of them as it is. *)
Definition safe_amounts (d : db) : Prop :=
  map_Forall (fun _ w => 0 <= entry_fee w < 2 ^ 53) (spin_wheels d) /\
  map_Forall (fun _ u => Z.abs (coins u) < 2 ^ 53) (users d).

(** The split of the fee of every wheel is computed without rounding. *)
Definition safe_pools (d : db) : Prop :=
  map_Forall (fun _ w => safe_split (getConfigSplit d) (entry_fee w))
             (spin_wheels d).

#[global] Instance safe_split_dec s fee : Decision (safe_split s fee).
Proof. unfold safe_split. apply _. Defined.

#[global] Instance safe_pools_dec d : Decision (safe_pools d).
Proof. unfold safe_pools. apply _. Defined.

#[global] Instance safe_amounts_dec d : Decision (safe_amounts d).
Proof. unfold safe_amounts. apply _. Defined.

(** [P] holds of the database that every action of the run [l] from [d]
    finds. *)
Fixpoint throughout (P : db -> Prop) (d : db) (l : list action) : Prop :=
  match l with
  | [] => True
  | a :: l' => P d /\ throughout P (perform d a) l'
  end.

(** The state of wheel [wid] after some join attempts, relative to the
    database [d] they started from. *)
Definition pools_track (d : db) (wid : Z) (w : wheel) (d' : db) : Prop :=
  let n := count_participants wid d' - count_participants wid d in
  let winnerAmt := entry_fee w * winner_pct (getConfigSplit d) / 100 in
  let adminAmt := entry_fee w * admin_pct (getConfigSplit d) / 100 in
  let appAmt := entry_fee w - winnerAmt - adminAmt in
  0 <= n /\ config d' = config d /\
  exists w', spin_wheels d' !! wid = Some w' /\
    entry_fee w' = entry_fee w /\
    winner_pool w' = winner_pool w + n * winnerAmt /\
    admin_pool w' = admin_pool w + n * adminAmt /\
    app_pool w' = app_pool w + n * appAmt.

(** *** The pools of all wheels *)

(** A database without wheels. *)
Definition initial_db (us : gmap Z user) (cfg : gmap string Z) : db :=
  {| users := us; spin_wheels := ∅; spin_participants := [];
     transactions := []; config := cfg; wheel_seq := 1;
     participant_seq := 1 |}.

(** Every wheel was numbered by the sequence and its pools add up to the
    fees of its rows; every row belongs to a wheel. *)
Definition pools_inv (d : db) : Prop :=
  (forall id w, spin_wheels d !! id = Some w ->
     id < wheel_seq d /\ pool_total w = fees_collected id d) /\
  (forall p, p ∈ spin_participants d ->
     is_Some (spin_wheels d !! wheel_id p)).

(** [d'] differs from [d] at most in the status of wheels, in rows marked
    eliminated, and in users and transactions. *)
Definition same_up_to_status (d d' : db) : Prop :=
  wheel_seq d' = wheel_seq d /\
  wheel_id <$> spin_participants d' = wheel_id <$> spin_participants d /\
  forall id,
    with_status Pending <$> spin_wheels d' !! id =
    with_status Pending <$> spin_wheels d !! id.

(** *** The constraints of the schema, and what a run keeps *)

(** The keys of the schema: [spin_participants.id] is a key drawn from its
    sequence, every row names a user and a wheel that exist, every wheel was
    numbered by its sequence and names an owner that exists, and every
    transaction names a user that exists. *)
Definition tables_ok (d : db) : Prop :=
  NoDup (p_id <$> spin_participants d) /\
  Forall (fun p => p_id p < participant_seq d /\
                   is_Some (users d !! user_id p) /\
                   is_Some (spin_wheels d !! wheel_id p))
         (spin_participants d) /\
  map_Forall (fun id w => id < wheel_seq d /\
                          is_Some (users d !! owner_id w))
             (spin_wheels d) /\
  Forall (fun t => is_Some (users d !! t_user t)) (transactions d).

(** The order in which a wheel changes status: a pending wheel may go
    anywhere, an active one only to finished, an aborted one only to
    finished, and a finished one nowhere. *)
Definition status_le (a b : status) : bool :=
  match a, b with
  | Pending, _ => true
  | Active, (Active | Finished) => true
  | Aborted, (Aborted | Finished) => true
  | Finished, Finished => true
  | _, _ => false
  end.

(** How the row of a wheel may differ later: the owner, the fee and the
    threshold are the same, the status has moved along [status_le], and the
    pools are the same unless the wheel was pending. *)
Definition evolves (w w' : wheel) : Prop :=
  owner_id w' = owner_id w /\ entry_fee w' = entry_fee w /\
  min_participants w' = min_participants w /\
  status_le (w_status w) (w_status w') = true /\
  (w_status w <> Pending ->
   winner_pool w' = winner_pool w /\ admin_pool w' = admin_pool w /\
   app_pool w' = app_pool w).

Definition is_live (w : wheel) : Prop :=
  w_status w = Pending \/ w_status w = Active.

(** A request that creates no wheel with a negative fee. *)
Definition fee_not_negative (a : action) : Prop :=
  match a with
  | ReqCreate _ v =>
    forall z, fee_param (Js.or v (Js.Num 100)) = Some z -> 0 <= z
  | _ => True
  end.

(** *** The utility endpoints *)

(** The order of [ORDER BY id DESC]. *)
Definition newer_first (a b : Z * wheel) : Prop := b.1 <= a.1.

#[global] Instance newer_first_dec a b : Decision (newer_first a b) :=
  decide (b.1 <= a.1).

(** [GET /api/wheels]:
    [SELECT * FROM spin_wheels ORDER BY id DESC LIMIT 10]. *)
Definition get_wheels (d : db) : list (Z * wheel) :=
  take 10 (merge_sort newer_first (map_to_list (spin_wheels d))).

(** [GET /api/wheels/:id/participants]: the rows of the wheel joined with
    [users].  The query has no [ORDER BY]: the server returns the rows in
    an order of its choice, [order]. *)
Definition get_participants (order : row_order) (wid : Z) (d : db)
    : list (participant * string) :=
  order (with_username d (participants_of wid d)).

(** The database with the rows [cfg] in the table [config]. *)
Definition with_config (cfg : gmap string Z) (d : db) : db :=
  {| users := users d; spin_wheels := spin_wheels d;
     spin_participants := spin_participants d;
     transactions := transactions d; config := cfg;
     wheel_seq := wheel_seq d; participant_seq := participant_seq d |}.

(** No fee and no balance is negative. *)
Definition solvent (d : db) : Prop :=
  map_Forall (fun _ w => 0 <= entry_fee w) (spin_wheels d) /\
  map_Forall (fun _ u => 0 <= coins u) (users d).

End Backend.

(** ** The game service, [src/unnamed/part_001] and [src/unnamed/part_002] *)

(** [crypto]: the hex digest of SHA-256, and the HMAC-SHA256 digest of a
    message under a key read as a big-endian number. *)
Class Crypto := {
  sha256_hex : string -> string;
  hmac_sha256 : string -> string -> Z
}.

Module GameService.

Record segment := {
  label : string;
  weight : option Z
}.

(** [seg.weight || 1]. *)
Definition eff_weight (seg : segment) : Z := Js.or_num (weight seg) 1.

Arguments eff_weight : simpl never.

(** [parseInt(h.slice(0, 15), 16)] for the hex digest [h] of
    HMAC-SHA256([serverSeed], [String(nonce)]): the leading 15 of the 64 hex
    digits are the top 60 of the 256 bits. *)
Definition digest_num `{Crypto} (serverSeed : string) (nonce : Z) : Z :=
  Js.to_double ((hmac_sha256 serverSeed (pretty nonce) mod 2 ^ 256) / 2 ^ 196).

(** [segments.reduce((s, seg) => s + (seg.weight || 1), 0)]. *)
Definition totalWeight (segments : list segment) : Z :=
  foldl (fun s seg => s + eff_weight seg) 0 segments.

(** The [for] loop from index [i] on, [rest] being [segments[i..]] and
    [last] the value of [segments.length - 1]. *)
Fixpoint spin_loop (pick : option Z) (acc i : Z) (rest : list segment)
    (last : Z) : Z :=
  match rest with
  | [] => last
  | seg :: rest' =>
    let acc' := acc + eff_weight seg in
    if Js.lt pick acc' then i else spin_loop pick acc' (i + 1) rest' last
  end.

Definition deterministicSpinIndex `{Crypto} (serverSeed : string) (nonce : Z)
    (segments : list segment) : Z :=
  let num := digest_num serverSeed nonce in
  let pick := Js.rem num (totalWeight segments) in
  spin_loop pick 0 0 segments (Z.of_nat (length segments) - 1).






(** A weight that is present is not negative. *)
Definition weight_ok (seg : segment) : Prop :=
  forall z, weight seg = Some z -> 0 <= z.

Record wheel := {
  hostId : Z;
  title : string;
  segments : list segment;
  entryFee : Z;
  maxPlayers : Z;
  status : string;
  serverSeedHash : string;
  serverSeed : option string
}.

Record join := {
  j_id : Z;
  userId : Z;
  wheelId : Z;
  paid : bool;
  payout : option Z
}.

(** The tables behind [prisma]: [wheel], [join] and [user] (a user is its
    [balance]).  [ledger] stands for the transaction records of the data
    model; nothing in this service writes one. *)
Record store := {
  wheels : gmap Z wheel;
  joins : list join;
  users : gmap Z Z;
  ledger : list Backend.txn;
  wheel_seq : Z;
  join_seq : Z
}.

Inductive event :=
| wheel_created (id : Z) (w : wheel)
| wheel_player_joined (wheelId userId : Z).

(** The server process: the store, [global.__wheelSeeds], the Redis keys
    [lock:wheel:<id>] that are set, and what was emitted to the clients. *)
Record runtime := {
  st : store;
  wheelSeeds : gmap Z string;
  locks : gset Z;
  emitted : list event
}.

(** [createWheel]; [seed] is the value of
    [crypto.randomBytes(32).toString('hex')].  A new row has the status that
    [startWheel] tests for and no [serverSeed]. *)
Definition createWheel `{Crypto} (seed : string) (hostId : Z)
    (title : string) (segments : list segment) (entryFee maxPlayers : Z)
    (s : store) : store * (Z * wheel) * string :=
  let seedHash := sha256_hex seed in
  let w := {| hostId := hostId; title := title; segments := segments;
              entryFee := entryFee; maxPlayers := maxPlayers;
              status := "waiting"; serverSeedHash := seedHash;
              serverSeed := None |} in
  let id := wheel_seq s in
  ({| wheels := <[id := w]> (wheels s); joins := joins s; users := users s;
      ledger := ledger s; wheel_seq := id + 1; join_seq := join_seq s |},
   (id, w), seed).

(** The [wheel:create] handler. The acknowledgement carries [wheel]. *)
Definition on_wheel_create `{Crypto} (seed : string) (hostId : Z)
    (title : string) (segments : list segment) (entryFee maxPlayers : Z)
    (rt : runtime) : runtime * (Z * wheel) :=
  let '(s', (id, w), serverSeed) :=
    createWheel seed hostId title segments entryFee maxPlayers (st rt) in
  ({| st := s'; wheelSeeds := <[id := serverSeed]> (wheelSeeds rt);
      locks := locks rt; emitted := emitted rt ++ [wheel_created id w] |},
   (id, w)).

(** The [wheel:join] handler; [charged] is the [success] of
    [payment.charge], a module that is not among the sources. *)
Definition on_wheel_join (charged : bool) (userId wheelId : Z)
    (rt : runtime) : runtime * option join :=
  match wheels (st rt) !! wheelId with
  | None => (rt, None)
  | Some wheel =>
    if negb charged then (rt, None)
    else
      let s := st rt in
      let j := {| j_id := join_seq s; userId := userId; wheelId := wheelId;
                  paid := true; payout := None |} in
      ({| st := {| wheels := wheels s; joins := joins s ++ [j];
                   users := users s; ledger := ledger s;
                   wheel_seq := wheel_seq s; join_seq := join_seq s + 1 |};
          wheelSeeds := wheelSeeds rt; locks := locks rt;
          emitted := emitted rt ++ [wheel_player_joined wheelId userId] |},
       Some j)
  end.

(** What [startWheel] throws. *)
Inductive thrown :=
| WheelAlreadyStarting
| WheelNotFound
| WheelNotWaiting
| MissingServerSeed
| TypeError
| RecordNotFound
| ReferenceError.

Definition with_lock (id : Z) (rt : runtime) : runtime :=
  {| st := st rt; wheelSeeds := wheelSeeds rt; locks := {[id]} ∪ locks rt;
     emitted := emitted rt |}.

Definition set_payout (id amt : Z) (j : join) : join :=
  if j_id j =? id
  then {| j_id := j_id j; userId := userId j; wheelId := wheelId j;
          paid := paid j; payout := Some amt |}
  else j.

Definition finish (seed : string) (w : wheel) : wheel :=
  {| hostId := hostId w; title := title w; segments := segments w;
     entryFee := entryFee w; maxPlayers := maxPlayers w;
     status := "finished"; serverSeedHash := serverSeedHash w;
     serverSeed := Some seed |}.

(** [startWheel]; [now] is the value of [Date.now()].  The call never
    returns: the payload of the [wheel:finished] message and the returned
    object both name [winningSegment], which is declared nowhere (the
    constant is [winnerSegment]), so evaluating it throws after the payout
    has been committed and the lock released. *)
Definition startWheel `{Crypto} (wheelId now : Z) (rt : runtime)
    : runtime * thrown :=
  if bool_decide (wheelId ∈ locks rt) then (rt, WheelAlreadyStarting)
  else
    let rt1 := with_lock wheelId rt in
    match wheels (st rt) !! wheelId with
    | None => (rt1, WheelNotFound)
    | Some wheel =>
      if negb (String.eqb (status wheel) "waiting")
      then (rt1, WheelNotWaiting)
      else
        let players :=
          filter (fun j => paid j = true)
                 (filter (fun j => GameService.wheelId j = wheelId)
                         (joins (st rt))) in
        let pool := Z.of_nat (length players) * entryFee wheel in
        let nonce := now in
        match wheelSeeds rt !! wheelId with
        | None => (rt1, MissingServerSeed)
        | Some serverSeed =>
          if String.eqb serverSeed "" then (rt1, MissingServerSeed)
          else
            let winningIndex :=
              deterministicSpinIndex serverSeed nonce (segments wheel) in
            let num := digest_num serverSeed nonce in
            let winnerIdx := Js.rem num (Z.of_nat (length players)) in
            match winnerIdx ≫= (fun i => players !! Z.to_nat i) with
            | None => (rt1, TypeError)
            | Some winnerJoin =>
              let payout := pool in
              let s := st rt in
              match users s !! userId winnerJoin with
              | None => (rt1, RecordNotFound)
              | Some bal =>
                let s' :=
                  {| wheels := alter (finish serverSeed) wheelId (wheels s);
                     joins := set_payout (j_id winnerJoin) payout <$> joins s;
                     users := <[userId winnerJoin := bal + payout]> (users s);
                     ledger := ledger s; wheel_seq := wheel_seq s;
                     join_seq := join_seq s |} in
                ({| st := s'; wheelSeeds := wheelSeeds rt;
                    locks := locks rt ∖ {[wheelId]};
                    emitted := emitted rt |},
                 ReferenceError)
              end
            end
        end
    end.

(** Requests served by the socket handlers, and the expiry of a lock key
    ([PX: 10000]). *)
Inductive request :=
| WheelCreate (seed : string) (hostId : Z) (title : string)
    (segments : list segment) (entryFee maxPlayers : Z)
| WheelJoin (charged : bool) (userId wheelId : Z)
| WheelStart (wheelId now : Z)
| LockExpired (wheelId : Z).

Definition handle `{Crypto} (rt : runtime) (r : request) : runtime :=
  match r with
  | WheelCreate seed hostId title segments entryFee maxPlayers =>
    (on_wheel_create seed hostId title segments entryFee maxPlayers rt).1
  | WheelJoin charged userId wheelId =>
    (on_wheel_join charged userId wheelId rt).1
  | WheelStart wheelId now => (startWheel wheelId now rt).1
  | LockExpired wheelId =>
    {| st := st rt; wheelSeeds := wheelSeeds rt;
       locks := locks rt ∖ {[wheelId]}; emitted := emitted rt |}
  end.

Definition serve `{Crypto} (rt : runtime) (l : list request) : runtime :=
  foldl handle rt l.

(** A server that has just started on a store whose wheels hold no seed. *)
Definition boot (s : store) : runtime :=
  {| st := s; wheelSeeds := ∅; locks := ∅; emitted := [] |}.

(** A store without wheels, where every wheel will be one that
    [createWheel] makes. *)
Definition fresh_store (us : gmap Z Z) : store :=
  {| wheels := ∅; joins := []; users := us; ledger := []; wheel_seq := 1;
     join_seq := 1 |}.

(** The seed a message discloses. *)
Definition event_seed (e : event) : option string :=
  match e with
  | wheel_created _ w => serverSeed w
  | wheel_player_joined _ _ => None
  end.


(** What holds of the seeds in every state of the server: a wheel row has
    an id below the next one, holds a seed only when finished and then one
    that hashes to its commitment; the commitment of a row is the one that
    was announced for its id; the seed kept in memory for an id hashes to
    the commitment of that wheel; no message discloses a seed. *)
Definition seed_inv `{Crypto} (rt : runtime) : Prop :=
  (forall id w, wheels (st rt) !! id = Some w ->
     id < wheel_seq (st rt) /\
     (forall s, serverSeed w = Some s ->
        status w = "finished"%string /\ sha256_hex s = serverSeedHash w) /\
     exists w0, wheel_created id w0 ∈ emitted rt /\
       serverSeedHash w0 = serverSeedHash w) /\
  (forall id w0, wheel_created id w0 ∈ emitted rt ->
     exists w, wheels (st rt) !! id = Some w /\
       serverSeedHash w = serverSeedHash w0) /\
  (forall id s, wheelSeeds rt !! id = Some s ->
     exists w, wheels (st rt) !! id = Some w /\
       sha256_hex s = serverSeedHash w) /\
  (forall e, e ∈ emitted rt -> event_seed e = None).

(** [h.slice(0, 15)] read as a hexadecimal numeral: the integer that
    [parseInt] is given. *)
Definition digest_prefix `{Crypto} (serverSeed : string) (nonce : Z) : Z :=
  (hmac_sha256 serverSeed (pretty nonce) mod 2 ^ 256) / 2 ^ 196.

(** [wheel.joins.filter(j => j.paid)]: the paid joins of a wheel. *)
Definition players_of (id : Z) (s : store) : list join :=
  filter (fun j => paid j = true)
         (filter (fun j => wheelId j = id) (joins s)).

(** The joins of a wheel that hold a payout. *)
Definition winners_of (id : Z) (s : store) : list join :=
  filter (fun j => wheelId j = id /\ is_Some (payout j)) (joins s).

(** What holds of the payouts in every state of the server: the ids of
    the joins are distinct and below the next one; every join is for a
    wheel that exists; a wheel has an id below the next one, and it is
    either waiting, with no payout on any of its joins, or finished, with
    a payout on exactly one of them, a paid one. *)
Definition payout_inv (s : store) : Prop :=
  NoDup (j_id <$> joins s) /\
  Forall (fun j => j_id j < join_seq s /\ is_Some (wheels s !! wheelId j))
         (joins s) /\
  map_Forall
    (fun id w =>
       id < wheel_seq s /\
       ((status w = "waiting"%string /\ winners_of id s = []) \/
        (status w = "finished"%string /\
         exists j, winners_of id s = [j] /\ paid j = true)))
    (wheels s).

(** The server after it has started on a store without wheels and has
    served the requests [reqs]. *)
Definition reached `{Crypto} (us : gmap Z Z) (reqs : list request)
    : runtime :=
  serve (boot (fresh_store us)) reqs.

End GameService.

(** ** The lobby page, [src/frontend/src/component/Lobby.jsx] *)

Module Lobby.

(** A wheel object of the [wheels] state, with the fields that the
    handlers and the page read or write; a handler copies every other
    field.  [joins] is absent or holds the [userId] of each entry. *)
Record wheel := {
  id : Z;
  joins : option (list Z);
  status : option string;
  winner : option Z
}.

(** What the component reacts to: the three messages it listens to
    ([data.payout] of [wheel:finished] is only shown in the alert), and
    the answer [res.data] to the GET of [fetchWheels]. *)
Inductive message :=
| wheel_created (w : wheel)
| wheel_player_joined (wheelId userId : Z)
| wheel_finished (wheelId winner : Z)
| wheels_fetched (data : list wheel).

(** [{ ...w, joins: [...(w.joins || []), { userId }] }]. *)
Definition add_join (userId : Z) (w : wheel) : wheel :=
  {| id := id w; joins := Some (default [] (joins w) ++ [userId]);
     status := status w; winner := winner w |}.

(** [{ ...w, status: "finished", winner: data.winner }]. *)
Definition finished (win : Z) (w : wheel) : wheel :=
  {| id := id w; joins := joins w; status := Some "finished"%string;
     winner := Some win |}.

(** The next state: for a message, the function that its [socket.on]
    handler gives to [setWheels], applied to the state before; for the
    answer of the GET, [setWheels(res.data)], which replaces the state. *)
Definition on_message (prev : list wheel) (m : message) : list wheel :=
  match m with
  | wheel_created w => w :: prev
  | wheel_player_joined wheelId userId =>
    (fun w => if id w =? wheelId then add_join userId w else w) <$> prev
  | wheel_finished wheelId win =>
    (fun w => if id w =? wheelId then finished win w else w) <$> prev
  | wheels_fetched data => data
  end.

(** The state after [ms] have arrived in this order. *)
Definition replay (prev : list wheel) (ms : list message) : list wheel :=
  foldl on_message prev ms.

(** [(w.joins || []).length], the number shown as "Players". *)
Definition players (w : wheel) : nat := length (default [] (joins w)).

(** The ids of the wheels that the messages announce, and the number of
    joins that they report for wheel [k]. *)
Definition created_ids (ms : list message) : list Z :=
  omap (fun m => match m with wheel_created w => Some (id w) | _ => None end)
       ms.

Definition is_join_for (k : Z) (m : message) : bool :=
  match m with
  | wheel_player_joined wheelId _ => bool_decide (wheelId = k)
  | _ => false
  end.

Definition joins_for (k : Z) (ms : list message) : nat :=
  length (filter (fun m => is_join_for k m = true) ms).

(** The list that the last answer of the GET has set ([base] when none has
    come), and the messages that have arrived since ([recent] holds those
    seen so far). *)
Fixpoint since_fetch (base : list wheel) (recent ms : list message)
    : list wheel * list message :=
  match ms with
  | [] => (base, recent)
  | wheels_fetched data :: ms' => since_fetch data [] ms'
  | m :: ms' => since_fetch base (recent ++ [m]) ms'
  end.

Definition is_fetch (m : message) : bool :=
  match m with
  | wheels_fetched _ => true
  | _ => false
  end.

End Lobby.

(** ** Sample data for the examples *)

Module Sample.
Import Backend.

Definition player (name : string) (c : Z) : user :=
  {| username := name; coins := c; is_admin := false |}.

(** An administrator (id 1) and four players. *)
Definition people : gmap Z user :=
  <[1 := {| username := "admin"; coins := 0; is_admin := true |}]>
  (<[7 := player "ann" 500]>
  (<[8 := player "bob" 500]>
  (<[9 := player "cy" 100]>
  (<[10 := player "di" 250]> ∅)))).

Definition empty_db : db :=
  {| users := people; spin_wheels := ∅; spin_participants := [];
     transactions := []; config := ∅; wheel_seq := 1;
     participant_seq := 1 |}.

(** Wheel 1 as [POST /api/wheels] creates it, with the given fee. *)
Definition with_wheel (fee : Z) : db :=
  (post_wheels empty_db 1 (Js.Num fee)).1.1.1.

(** The same people and Eve (id 11), who holds 2^60 coins. *)
Definition with_eve : db :=
  set_users (insert 11 (player "eve" (2 ^ 60))) empty_db.

(** Wheel 1 is created there with the fee 2^53 + 1, sent as a string. *)
Definition with_big_wheel : db :=
  (post_wheels with_eve 1 (Js.Str "9007199254740993")).1.1.1.


(** Wheel 1 of fee 2^53 + 1, and Fay (id 12), who holds 2^53 coins. *)
Definition with_fay : db :=
  set_users (insert 12 (player "fay" (2 ^ 53))) with_big_wheel.

(** Wheel 1 of fee 100, and Eve with 2^53 + 1 coins. *)
Definition with_odd_eve : db :=
  set_users (insert 11 (player "eve" (2 ^ 53 + 1)))
            (post_wheels empty_db 1 (Js.Num 100)).1.1.1.


(** The requests that create wheel 1 with fee 100 and join Ann, Bob and Di
    to it. *)
Definition three_join : list action :=
  [ReqCreate 1 (Js.Num 100); ReqJoin 1 7; ReqJoin 1 8; ReqJoin 1 10].

(** Wheel 1 with fee 100 and three players: Ann, Bob and Di. *)
Definition three_joined : db :=
  run (with_wheel 100) [ReqJoin 1 7; ReqJoin 1 8; ReqJoin 1 10].

(** ... started by the administrator; the shuffle reversed the rows. *)
Definition started : db * list event * list timer * start_response :=
  post_wheels_start (@rev _) three_joined 1 1.

Definition started_db : db := started.1.1.1.

Definition started_chain : chain :=
  {| c_wheel := 1; c_participants := [(3, 10); (2, 8); (1, 7)];
     c_idx := 0 |}.

(** The database after the first, the second and the third tick. *)
Definition tick1 : db * list event * list timer :=
  eliminateOne started_chain started_db.

Definition tick2 : db * list event * list timer :=
  eliminateOne
    {| c_wheel := 1; c_participants := [(3, 10); (2, 8); (1, 7)];
       c_idx := 1 |} tick1.1.1.

Definition tick3 : db * list event * list timer :=
  eliminateOne
    {| c_wheel := 1; c_participants := [(3, 10); (2, 8); (1, 7)];
       c_idx := 2 |} tick2.1.1.

(** A second start request whose checks ran before the first one wrote
    ['active']: both pass [start_checks] on [three_joined], both commit. *)
Definition started_twice : db * list timer :=
  let '(d1, _, tm1) := start_commit (@rev _) 1 three_joined in
  let '(d2, _, tm2) := start_commit (fun l => l) 1 d1 in
  (d2, tm1 ++ tm2).

(** The two loops that [started_twice] has set, run to the end. *)
Definition raced : db * list event :=
  run_timers (fun l => l) 10 started_twice.2 started_twice.1.

(** The timer of the finished loop fires once more. *)
Definition tick4 : db * list event * list timer :=
  eliminateOne
    {| c_wheel := 1; c_participants := [(3, 10); (2, 8); (1, 7)];
       c_idx := 2 |} tick3.1.1.

End Sample.

Module SampleDraw.
Import GameService.

(** Stand-ins for the two digests, for the examples only. *)
Definition crypto : Crypto :=
  {| sha256_hex := fun s => ("sha256:" +:+ s)%string;
     hmac_sha256 := fun k m =>
       (Z.of_nat (String.length k + 3 * String.length m)
        * 1234567890123456789) ^ 4 |}.

Definition four_segments : list segment :=
  [ {| label := "10"; weight := Some 1 |};
    {| label := "20"; weight := Some 1 |};
    {| label := "50"; weight := Some 1 |};
    {| label := "100"; weight := Some 1 |} ].

(** Weights 1, missing, 0, 3 and 4: the total counted is 10. *)
Definition mixed_segments : list segment :=
  [ {| label := "a"; weight := Some 1 |};
    {| label := "b"; weight := None |};
    {| label := "c"; weight := Some 0 |};
    {| label := "d"; weight := Some 3 |};
    {| label := "e"; weight := Some 4 |} ].


Definition cancelling_segments : list segment :=
  [ {| label := "a"; weight := Some (-1) |};
    {| label := "b"; weight := Some 1 |} ].

(** An empty store with two users of balance 500. *)
Definition store0 : store := fresh_store (<[7 := 500]> (<[8 := 500]> ∅)).

(** Wheel 1 is created with fee 100 and user 7 joins it. *)
Definition before_start : runtime :=
  serve (H := crypto) (boot store0)
    [WheelCreate "5eed" 8 "Demo Wheel" four_segments 100 5;
     WheelJoin true 7 1].

(** The same requests followed by the start of the wheel. *)
Definition requests : list request :=
  [WheelCreate "5eed" 8 "Demo Wheel" four_segments 100 5;
   WheelJoin true 7 1;
   WheelStart 1 1730000000000].

(** The row of wheel 1 as it was announced, and as it is once finished. *)
Definition announced : wheel :=
  {| hostId := 8; title := "Demo Wheel"; segments := four_segments;
     entryFee := 100; maxPlayers := 5; status := "waiting";
     serverSeedHash := sha256_hex (Crypto := crypto) "5eed";
     serverSeed := None |}.

Definition revealed : wheel := finish "5eed" announced.

Definition after_start : runtime * thrown :=
  startWheel (H := crypto) 1 1730000000000 before_start.

End SampleDraw.

(** * Properties *)

(** Closes a conjunction of closed equations by evaluation. *)
Ltac evaluate :=
  repeat lazymatch goal with
         | |- _ /\ _ => split
         end;
  vm_compute; try reflexivity; try discriminate.

(** Decides the head of every [filter] over a cons. *)
Ltac filter_head :=
  repeat first [ rewrite filter_cons_True by done
               | rewrite filter_cons_False by done ].

Import Backend.

(** ** Arithmetic on amounts below 2^53 is exact *)

Lemma to_double_exact n : n < 2 ^ 53 -> Js.to_double n = n.
Proof.
  intros Hn. unfold Js.to_double.
  destruct (Z.log2 n - 52 <=? 0) eqn:He; [done|].
  apply Z.leb_gt in He.
  destruct (decide (0 < n)) as [Hpos|Hneg].
  - apply Z.log2_lt_pow2 in Hn; [lia|done].
  - rewrite Z.log2_nonpos in He by lia. lia.
Qed.

Lemma to_double_sign n : 0 <= n -> 0 <= Js.to_double n.
Proof.
  intros Hn. unfold Js.to_double.
  destruct (Z.log2 n - 52 <=? 0) eqn:He; [done|].
  apply Z.leb_gt in He.
  assert (0 < 2 ^ (Z.log2 n - 52)) by (apply Z.pow_pos_nonneg; lia).
  assert (0 <= n / 2 ^ (Z.log2 n - 52)) by (apply Z.div_pos; lia).
  apply Z.mul_nonneg_nonneg; [|lia].
  repeat match goal with |- context [if ?b then _ else _] => destruct b end;
    lia.
Qed.

Lemma to_double_pos n : 0 < n -> 0 < Js.to_double n.
Proof.
  intros Hn. unfold Js.to_double.
  destruct (Z.log2 n - 52 <=? 0) eqn:He; [done|].
  apply Z.leb_gt in He. set (e := Z.log2 n - 52) in *.
  assert (0 < 2 ^ e) as Hp by (apply Z.pow_pos_nonneg; lia).
  assert (2 ^ e <= n) as Hle.
  { transitivity (2 ^ Z.log2 n); [apply Z.pow_le_mono_r; lia|].
    apply Z.log2_spec. done. }
  assert (1 <= n / 2 ^ e) as Hq.
  { apply Z.div_le_lower_bound; lia. }
  apply Z.mul_pos_pos; [|done].
  repeat match goal with |- context [if ?b then _ else _] => destruct b end;
    lia.
Qed.

Lemma nearest_exact n : Z.abs n < 2 ^ 53 -> Js.nearest n = n.
Proof.
  intros Hn. unfold Js.nearest. destruct (n <? 0) eqn:Hs.
  - rewrite to_double_exact by lia. lia.
  - apply to_double_exact. lia.
Qed.

Lemma nearest_nonneg n : 0 <= n -> 0 <= Js.nearest n.
Proof.
  intros Hn. unfold Js.nearest.
  destruct (n <? 0) eqn:Hs; [apply Z.ltb_lt in Hs; lia|].
  by apply to_double_sign.
Qed.

Lemma nearest_zero n : Js.nearest n = 0 -> n = 0.
Proof.
  unfold Js.nearest. destruct (n <? 0) eqn:Hs.
  - apply Z.ltb_lt in Hs. pose proof (to_double_pos (- n)). lia.
  - apply Z.ltb_ge in Hs. intros Hz.
    destruct (decide (n = 0)) as [|Hne]; [done|].
    pose proof (to_double_pos n). lia.
Qed.

Lemma sub_exact a b : Z.abs (a - b) < 2 ^ 53 -> Js.sub a b = a - b.
Proof. apply nearest_exact. Qed.

Lemma mul_exact a b : Z.abs (a * b) < 2 ^ 53 -> Js.mul a b = a * b.
Proof. apply nearest_exact. Qed.

Lemma shown_exact v : Z.abs v < 2 ^ 53 -> Js.shown v = v.
Proof.
  intros Hv. unfold Js.shown.
  by destruct (Z.abs v <? 2 ^ 53) eqn:Hlt; [|apply Z.ltb_ge in Hlt; lia].
Qed.

Lemma shortest_pos v j : 0 < v -> 0 < Js.shortest v j.
Proof.
  intros Hv. induction j as [|j IH]; simpl;
    repeat match goal with
    | |- context [if ?b && ?c then _ else _] =>
      let Hb := fresh in
      destruct (b && c) eqn:Hb; [apply andb_true_iff in Hb as [Hb _]|]
    | |- context [if ?b then _ else _] => destruct b
    end; try apply Z.leb_le in H; try apply Z.leb_le in H0; lia.
Qed.

Lemma shown_nonneg v : 0 <= v -> 0 <= Js.shown v.
Proof.
  intros Hv. unfold Js.shown. destruct (Z.abs v <? 2 ^ 53); [done|].
  destruct (decide (v = 0)) as [->|Hne]; [done|].
  pose proof (shortest_pos (Z.abs v) 21). nia.
Qed.

Lemma shown_zero v : Js.shown v = 0 -> v = 0.
Proof.
  unfold Js.shown. destruct (Z.abs v <? 2 ^ 53); [done|].
  destruct (decide (v = 0)) as [->|Hne]; [done|].
  pose proof (shortest_pos (Z.abs v) 21). nia.
Qed.

Lemma binds_exact v : Z.abs v < 2 ^ 53 -> Js.binds v = true.
Proof.
  intros Hv. unfold Js.binds. rewrite shown_exact by done.
  repeat (apply andb_true_iff; split);
    [apply Z.ltb_lt|apply Z.leb_le|apply Z.ltb_lt]; lia.
Qed.

Lemma div_between z p t : 0 < p -> p * t <= z < p * t + p -> z / p = t.
Proof.
  intros Hp Hz. symmetry. apply (Z.div_unique z p t (z - p * t)); lia.
Qed.

Lemma round_ne_near a b :
  0 < b -> - b <= 2 * (b * Js.round_ne a b - a) <= b.
Proof.
  intros Hb. unfold Js.round_ne.
  pose proof (Z.div_mod a b ltac:(lia)) as Hdm.
  pose proof (Z.mod_pos_bound a b Hb) as Hr.
  destruct (2 * (a mod b) <? b) eqn:H1; [apply Z.ltb_lt in H1; lia|].
  apply Z.ltb_ge in H1.
  destruct (b <? 2 * (a mod b)) eqn:H2; [apply Z.ltb_lt in H2; lia|].
  apply Z.ltb_ge in H2. destruct (Z.even (a / b)); lia.
Qed.

Lemma round_ne_whole a b q : 0 < b -> a = b * q -> Js.round_ne a b = q.
Proof.
  intros Hb ->. unfold Js.round_ne.
  replace (b * q) with (q * b) by lia.
  rewrite Z.div_mul, Z.mod_mul by lia.
  by destruct (2 * 0 <? b) eqn:H1; [|apply Z.ltb_ge in H1; lia].
Qed.

(** Below 2^53 the quotient by 100 is far enough from the next integer
    for its rounding not to reach it. *)
Lemma floor_hundredth_exact x :
  Z.abs x < 2 ^ 53 -> Js.floor_hundredth x = x / 100.
Proof.
  intros Hx. unfold Js.floor_hundredth.
  set (a := Z.abs x). set (q := a / 100).
  assert (0 <= a) as Ha by (unfold a; lia).
  assert (a = 100 * q + a mod 100 /\ 0 <= a mod 100 < 100) as [Hq Hr].
  { split; [apply Z.div_mod; lia|apply Z.mod_pos_bound; lia]. }
  set (r := a mod 100) in *.
  destruct (q =? 0) eqn:Hq0.
  { apply Z.eqb_eq in Hq0.
    destruct (x <? 0) eqn:Hs; [apply Z.ltb_lt in Hs|apply Z.ltb_ge in Hs];
      symmetry; apply div_between; lia. }
  apply Z.eqb_neq in Hq0. assert (0 < q) as Hqpos by lia.
  assert (q < 2 ^ 47) as Hq47 by lia.
  apply Z.log2_lt_pow2 in Hq47; [|done].
  pose proof (Z.log2_nonneg q) as Hl0.
  destruct (0 <=? Z.log2 q - 52) eqn:He; [apply Z.leb_le in He; lia|].
  clear He. replace (- (Z.log2 q - 52)) with (52 - Z.log2 q) by lia.
  set (k := 52 - Z.log2 q). assert (6 <= k) as Hk by (unfold k; lia).
  assert (64 <= 2 ^ k) as HP.
  { change 64 with (2 ^ 6). apply Z.pow_le_mono_r; lia. }
  set (P := 2 ^ k) in *.
  pose proof (round_ne_near (a * P) 100 ltac:(lia)) as Hm.
  set (m := Js.round_ne (a * P) 100) in *.
  assert (a * P = 100 * (P * q) + P * r) as HA by lia.
  assert (0 <= P * r <= 99 * P) as HPr by nia.
  destruct (decide (r = 0)) as [Hr0|Hr0].
  - assert (m = P * q) as ->.
    { unfold m. apply round_ne_whole; [lia|]. rewrite HA, Hr0. lia. }
    destruct (decide (0 <= x)) as [Hs|Hs].
    + replace (Z.sgn x) with 1 by lia. rewrite Z.mul_1_l.
      transitivity q; [|symmetry]; apply div_between; lia.
    + replace (Z.sgn x) with (-1) by lia.
      transitivity (- q); [|symmetry]; apply div_between; lia.
  - assert (P <= P * r) as HPr1 by nia.
    assert (P * q + 1 <= m <= P * q + P - 1) as Hmb by lia.
    destruct (decide (0 <= x)) as [Hs|Hs].
    + replace (Z.sgn x) with 1 by lia. rewrite Z.mul_1_l.
      transitivity q; [|symmetry]; apply div_between; lia.
    + replace (Z.sgn x) with (-1) by lia.
      transitivity (- q - 1); [|symmetry]; apply div_between; lia.
Qed.

(** ** Join: what a successful and a rejected join do *)

Lemma join_ok_inv d wid uid d' ev :
  join d wid uid = (d', ev, JoinOk) ->
  exists w u,
    spin_wheels d !! wid = Some w /\ w_status w = Pending /\
    users d !! uid = Some u /\
    (Js.nearest (entry_fee w) <= Js.nearest (coins u) /\
     join_binds (getConfigSplit d) w u = true) /\
    d' = joined d wid uid w u.
Proof.
  unfold join. intros Hj.
  destruct (spin_wheels d !! wid) as [w|] eqn:Hw; [|discriminate].
  case_bool_decide as Hst; simpl in Hj; [|discriminate].
  destruct (users d !! uid) as [u|] eqn:Hu; [|discriminate].
  destruct (Js.nearest (coins u) <? Js.nearest (entry_fee w)) eqn:Hc;
    [discriminate|].
  apply Z.ltb_ge in Hc.
  destruct (join_binds (getConfigSplit d) w u) eqn:Hb; simpl in Hj;
    [|discriminate].
  exists w, u. repeat split; try done. by inversion Hj.
Qed.

(** A join that is not answered ok has written nothing and sent nothing. *)
Lemma join_not_ok_inv d wid uid d' ev r :
  join d wid uid = (d', ev, r) -> r <> JoinOk -> d' = d /\ ev = [].
Proof.
  unfold join. intros Hj Hr.
  repeat match type of Hj with
  | match ?x with _ => _ end = _ => destruct x eqn:?; simpl in Hj
  | (if ?x then _ else _) = _ => destruct x eqn:?; simpl in Hj
  end; inversion Hj; subst; done.
Qed.

Lemma join_rejected_inv d wid uid d' ev e :
  join d wid uid = (d', ev, JoinRejected e) -> d' = d /\ ev = [].
Proof. intros Hj. by apply (join_not_ok_inv _ _ _ _ _ _ Hj). Qed.

Lemma join_cases d wid uid :
  (exists ev, join d wid uid = ((join d wid uid).1.1, ev, JoinOk)) \/
  (exists r, join d wid uid = (d, [], r)).
Proof.
  destruct (join d wid uid) as [[d' ev] r] eqn:Hj.
  destruct r as [|e|].
  - left. by exists ev.
  - right. eexists. by destruct (join_not_ok_inv _ _ _ _ _ _ Hj) as [-> ->].
  - right. eexists. by destruct (join_not_ok_inv _ _ _ _ _ _ Hj) as [-> ->].
Qed.


(** With a split that is computed without rounding, the shares that the
    handler adds to the pools are [floor(fee * pct / 100)] twice and the
    rest of the fee, and the columns read them. *)
Lemma split_exact s w :
  safe_split s (entry_fee w) ->
  Js.shown (winnerAmt s w) = entry_fee w * winner_pct s / 100 /\
  Js.shown (adminAmt s w) = entry_fee w * admin_pct s / 100 /\
  Js.shown (appAmt s w) =
    entry_fee w - entry_fee w * winner_pct s / 100
    - entry_fee w * admin_pct s / 100 /\
  Js.binds (winnerAmt s w) = true /\ Js.binds (adminAmt s w) = true /\
  Js.binds (appAmt s w) = true /\ Js.binds (debit w) = true.
Proof.
  intros (Hf & Hwp & Hap & Hfw & Hfa & Hr1 & Hr2).
  assert (forall pct, Z.abs pct < 2 ^ 53 ->
            Z.abs (entry_fee w * pct) < 2 ^ 53 ->
            share w pct = entry_fee w * pct / 100 /\
            Z.abs (entry_fee w * pct / 100) < 2 ^ 53) as Hshare.
  { intros pct Hp Hprod. unfold share.
    rewrite !nearest_exact, mul_exact, floor_hundredth_exact by done.
    split; [done|].
    pose proof (Z.div_mod (entry_fee w * pct) 100 ltac:(lia)).
    pose proof (Z.mod_pos_bound (entry_fee w * pct) 100 ltac:(lia)). lia. }
  destruct (Hshare _ Hwp Hfw) as [Hw Hwb].
  destruct (Hshare _ Hap Hfa) as [Ha Hab].
  unfold appAmt, debit. unfold winnerAmt, adminAmt. rewrite Hw, Ha.
  rewrite (nearest_exact (entry_fee w)) by done.
  rewrite !sub_exact by (rewrite ?sub_exact by done; done).
  rewrite !shown_exact by done.
  rewrite !binds_exact by (done || lia). done.
Qed.

(** With a debit that is computed without rounding, the comparison of the
    handler is the comparison of the balance with the fee, and a balance
    that covers the fee is lowered by it. *)
Lemma debit_exact w u :
  safe_debit w u ->
  (Js.nearest (coins u) <? Js.nearest (entry_fee w))
    = (coins u <? entry_fee w) /\
  Js.shown (debit w) = - entry_fee w /\ Js.binds (debit w) = true /\
  (entry_fee w <= coins u ->
   Js.shown (newCoins w u) = coins u - entry_fee w /\
   Js.binds (newCoins w u) = true).
Proof.
  intros [Hf Hc]. unfold debit, newCoins.
  rewrite !nearest_exact by lia.
  split; [done|].
  split; [apply shown_exact; lia|].
  split; [apply binds_exact; lia|].
  intros Hle. rewrite sub_exact by lia.
  split; [apply shown_exact; lia|apply binds_exact; lia].
Qed.


(** ** The pools of a wheel and the fees it has collected *)

Lemma fees_collected_count wid d w :
  spin_wheels d !! wid = Some w ->
  fees_collected wid d = count_participants wid d * entry_fee w.
Proof.
  intros Hw. unfold fees_collected, count_participants. rewrite Hw. simpl.
  induction (participants_of wid d) as [|p ps IH]; [done|].
  rewrite fmap_cons, foldr_cons, IH. simpl length. lia.
Qed.

Lemma participants_of_joined d wj uid w u wid :
  participants_of wid (joined d wj uid w u) =
  participants_of wid d ++
  (if decide (wj = wid)
   then [{| p_id := participant_seq d; wheel_id := wj; user_id := uid;
            eliminated := false; eliminated_order := None |}]
   else []).
Proof.
  unfold participants_of, joined. simpl. rewrite filter_app.
  destruct (decide (wj = wid)) as [->|Hne].
  - by rewrite filter_cons_True.
  - by rewrite filter_cons_False.
Qed.

Lemma count_participants_joined d wj uid w u wid :
  count_participants wid (joined d wj uid w u) =
  count_participants wid d + (if decide (wj = wid) then 1 else 0).
Proof.
  unfold count_participants. rewrite participants_of_joined, length_app.
  destruct (decide (wj = wid)); simpl; lia.
Qed.

Lemma split_sums_to_fee fee a b : a + b + (fee - a - b) = fee.
Proof. lia. Qed.

Lemma pools_track_join d wid w d' wj uid :
  safe_split (getConfigSplit d) (entry_fee w) ->
  pools_track d wid w d' ->
  pools_track d wid w (join d' wj uid).1.1.
Proof.
  intros Hsafe (Hn & Hcfg & w' & Hw' & Hfee & Hwp & Hap & Hpp).
  destruct (join_cases d' wj uid) as [[ev Hj]|[e Hj]]; rewrite Hj;
    simpl; [|by repeat split; eauto 10].
  destruct (join_ok_inv _ _ _ _ _ Hj) as (w1 & u & Hw1 & _ & _ & _ & Hd).
  rewrite Hd. unfold pools_track.
  rewrite count_participants_joined.
  split; [destruct (decide (wj = wid)); lia|].
  split; [done|].
  destruct (decide (wj = wid)) as [->|Hne].
  - rewrite Hw' in Hw1. injection Hw1 as <-.
    assert (getConfigSplit d' = getConfigSplit d) as Hs
      by (unfold getConfigSplit; by rewrite Hcfg).
    rewrite <- Hfee in Hsafe.
    destruct (split_exact _ _ Hsafe) as (Hsw & Hsa & Hsp & _).
    eexists. split.
    { unfold joined. simpl. rewrite lookup_alter_eq, Hw'. reflexivity. }
    simpl. rewrite Hs, Hsw, Hsa, Hsp, Hfee, Hwp, Hap, Hpp.
    change (Js.or_num (config d !! "fee_split_winner_pct") 70)
      with (winner_pct (getConfigSplit d)).
    change (Js.or_num (config d !! "fee_split_admin_pct") 20)
      with (admin_pct (getConfigSplit d)).
    repeat split; lia.
  - exists w'. split.
    { unfold joined. simpl. by rewrite lookup_alter_ne. }
    repeat split; try done; rewrite ?Z.add_0_r; done.
Qed.

Lemma pools_track_run d wid w js :
  safe_split (getConfigSplit d) (entry_fee w) ->
  spin_wheels d !! wid = Some w ->
  pools_track d wid w (run d (join_requests js)).
Proof.
  intros Hsafe Hw. induction js as [|j js IH] using rev_ind.
  - simpl. unfold pools_track. rewrite Z.sub_diag.
    split; [lia|]. split; [done|]. exists w.
    repeat split; try done; lia.
  - unfold run, join_requests in *. rewrite fmap_app, foldl_app. simpl.
    by apply pools_track_join.
Qed.

(** C1 (amended).  On a wheel whose split is computed without rounding
    (the fee, its products with the two percentages and what is left of it
    after each share are below 2^53 in magnitude), and whose pools add up
    to the fees of its paid joins, any sequence of join requests leaves
    the pools at their old values plus [n] times the split of one fee,
    where [n] is the number of joins that succeeded on the wheel (rows
    added), each split being [floor(fee * winner_pct / 100)],
    [floor(fee * admin_pct / 100)] and the rest of the fee for the app
    pool; the three pools again add up to the fees collected, exactly. *)
Theorem join_pools_equal_fees d wid w js :
  safe_split (getConfigSplit d) (entry_fee w) ->
  spin_wheels d !! wid = Some w ->
  pool_total w = fees_collected wid d ->
  let d' := run d (join_requests js) in
  let n := count_participants wid d' - count_participants wid d in
  let winnerAmt := entry_fee w * winner_pct (getConfigSplit d) / 100 in
  let adminAmt := entry_fee w * admin_pct (getConfigSplit d) / 100 in
  let appAmt := entry_fee w - winnerAmt - adminAmt in
  exists w', spin_wheels d' !! wid = Some w' /\
    winner_pool w' = winner_pool w + n * winnerAmt /\
    admin_pool w' = admin_pool w + n * adminAmt /\
    app_pool w' = app_pool w + n * appAmt /\
    pool_total w' = fees_collected wid d'.
Proof.
  intros Hsafe Hw Hinv. cbv zeta.
  destruct (pools_track_run d wid w js Hsafe Hw)
    as (Hn & Hcfg & w' & Hw' & Hfee & Hwp & Hap & Hpp).
  exists w'. repeat split; try done.
  rewrite (fees_collected_count _ _ _ Hw'), Hfee.
  rewrite (fees_collected_count _ _ _ Hw) in Hinv.
  unfold pool_total in *. rewrite Hwp, Hap, Hpp. lia.
Qed.

Example split_of_101 :
  (fun w => (winner_pool w, admin_pool w, app_pool w))
    <$> spin_wheels (join (Sample.with_wheel 101) 1 7).1.1 !! 1
  = Some (70, 20, 11).
Proof. evaluate. Qed.

(** Two joins to a wheel of fee 101 under the default split 70/20/10: each
    adds 70, 20 and 11. *)
Lemma join_pools_equal_fees_witness :
  exists w',
    spin_wheels
      (run (Sample.with_wheel 101)
           (join_requests [(1, 7); (1, 8)])) !! 1 = Some w' /\
    winner_pool w' = 0 + (2 - 0) * 70 /\
    admin_pool w' = 0 + (2 - 0) * 20 /\
    app_pool w' = 0 + (2 - 0) * 11 /\
    pool_total w' = 202.
Proof.
  pose proof (join_pools_equal_fees (Sample.with_wheel 101) 1
                (new_wheel 1 101) [(1, 7); (1, 8)]) as H.
  vm_compute in H. vm_compute.
  apply H; [|reflexivity|reflexivity].
  repeat split; reflexivity.
Defined.

(** C1 as stated fails.  The fee of wheel 1 is 2^53 + 1, and Eve, who has
    the coins, joins it.  The handler reads the fee as the double 2^53 and
    splits that: the three pools add up to 2^53, one less than the fee
    that the join has collected. *)
Lemma join_pools_miss_one :
  (join Sample.with_big_wheel 1 11).2 = JoinOk /\
  entry_fee <$> spin_wheels (join Sample.with_big_wheel 1 11).1.1 !! 1
    = Some (2 ^ 53 + 1) /\
  (fun w => (winner_pool w, admin_pool w, app_pool w))
    <$> spin_wheels (join Sample.with_big_wheel 1 11).1.1 !! 1
    = Some (6305039478318694, 1801439850948198, 900719925474100) /\
  fees_collected 1 (join Sample.with_big_wheel 1 11).1.1 = 2 ^ 53 + 1 /\
  pool_total <$> spin_wheels (join Sample.with_big_wheel 1 11).1.1 !! 1
    = Some (2 ^ 53) /\
  pool_total <$> spin_wheels (join Sample.with_big_wheel 1 11).1.1 !! 1
    <> Some (fees_collected 1 (join Sample.with_big_wheel 1 11).1.1).
Proof.
  assert (pool_total
            <$> spin_wheels (join Sample.with_big_wheel 1 11).1.1 !! 1
          = Some (2 ^ 53)) as Hsum by (vm_compute; reflexivity).
  assert (fees_collected 1 (join Sample.with_big_wheel 1 11).1.1
          = 2 ^ 53 + 1) as Hfees by (vm_compute; reflexivity).
  split; [vm_compute; reflexivity|]. split; [vm_compute; reflexivity|].
  split; [vm_compute; reflexivity|]. split; [exact Hfees|].
  split; [exact Hsum|]. rewrite Hsum, Hfees. discriminate.
Qed.

(** ** What the refund loop and the payout do *)

Lemma set_status_missing wid st d :
  spin_wheels d !! wid = None -> set_status wid st d = d.
Proof.
  intros Hw. destruct d as [us ws ps ts cf sq pq].
  unfold set_status, set_wheels. simpl in *. f_equal. apply map_eq.
  intros k.
  destruct (decide (k = wid)) as [->|Hne].
  - by rewrite lookup_alter_eq, Hw.
  - by rewrite lookup_alter_ne.
Qed.

Lemma foldl_refund_none wheelId reason ps :
  foldl (refund_one wheelId reason) None ps = None.
Proof. by induction ps. Qed.

Lemma refunded_frame wheelId reason fee ps d :
  spin_wheels (refunded wheelId reason fee ps d) = spin_wheels d /\
  spin_participants (refunded wheelId reason fee ps d) = spin_participants d /\
  config (refunded wheelId reason fee ps d) = config d /\
  wheel_seq (refunded wheelId reason fee ps d) = wheel_seq d.
Proof.
  unfold refunded. revert d. induction ps as [|p ps IH]; intros d; simpl;
    [done|].
  by destruct (IH (credited (user_id p) fee (reason_meta wheelId reason) d))
    as (-> & -> & -> & ->).
Qed.

(** The loop of [refundWheel] either throws or, the wheel row being there,
    credits the fee of the wheel, as the handler reads it, to the user of
    every row. *)
Lemma refund_loop_cases wheelId reason ps d :
  foldl (refund_one wheelId reason) (Some d) ps = None \/
  (ps = [] /\ spin_wheels d !! wheelId = None) \/
  exists w, spin_wheels d !! wheelId = Some w /\
    foldl (refund_one wheelId reason) (Some d) ps =
    Some (refunded wheelId reason (refund_amount w) ps d).
Proof.
  revert d. induction ps as [|p ps IH]; intros d; simpl.
  - destruct (spin_wheels d !! wheelId) as [w|] eqn:Hw; [|by right; left].
    right; right. by exists w.
  - destruct (spin_wheels d !! wheelId) as [w|] eqn:Hw;
      [|left; apply foldl_refund_none].
    destruct (Js.binds (Js.nearest (entry_fee w)));
      [|left; apply foldl_refund_none].
    unfold credit. destruct (users d !! user_id p);
      [|left; apply foldl_refund_none].
    fold (refund_amount w).
    set (d1 := credited (user_id p) (refund_amount w)
                        (reason_meta wheelId reason) d).
    assert (Hw1 : spin_wheels d1 !! wheelId = Some w) by done.
    destruct (IH d1) as [Hnone|[[-> Habs]|(w' & Hw' & Hrun)]].
    + by left.
    + congruence.
    + right; right. exists w. split; [done|].
      rewrite Hrun. by replace w' with w by congruence.
Qed.

(** ... and it does not throw when the wheel and the users are there and
    the fee read is one the columns take. *)
Lemma refund_loop_ok wheelId reason ps d w :
  spin_wheels d !! wheelId = Some w ->
  Js.binds (Js.nearest (entry_fee w)) = true ->
  Forall (fun p => is_Some (users d !! user_id p)) ps ->
  foldl (refund_one wheelId reason) (Some d) ps =
  Some (refunded wheelId reason (refund_amount w) ps d).
Proof.
  intros Hw Hb Hus. revert d Hw Hus.
  induction ps as [|p ps IH]; intros d Hw Hus; [done|].
  apply Forall_cons in Hus as [[u Hu] Hus]. simpl.
  rewrite Hw, Hb. unfold credit. rewrite Hu. fold (refund_amount w).
  rewrite IH; [done|done|].
  eapply Forall_impl; [exact Hus|]. intros q Hq. unfold credited. simpl.
  destruct (decide (user_id p = user_id q)) as [Heq|Hne].
  - rewrite <- Heq, lookup_alter_eq, Hu. by eexists.
  - by rewrite lookup_alter_ne.
Qed.

Lemma refundWheel_cases wheelId reason d :
  refundWheel wheelId reason d = d \/
  exists w, spin_wheels d !! wheelId = Some w /\
    refundWheel wheelId reason d =
    set_status wheelId Aborted
      (refunded wheelId reason (refund_amount w) (participants_of wheelId d) d).
Proof.
  unfold refundWheel.
  destruct (refund_loop_cases wheelId reason (participants_of wheelId d) d)
    as [->|[[-> Hw]|(w & Hw & ->)]].
  - by left.
  - left. by apply set_status_missing.
  - right. by exists w.
Qed.

(** A fee below 2^53 in magnitude is refunded as it is. *)
Lemma refund_amount_exact w :
  Z.abs (entry_fee w) < 2 ^ 53 ->
  refund_amount w = entry_fee w /\ Js.binds (Js.nearest (entry_fee w)) = true.
Proof.
  intros Hf. unfold refund_amount. rewrite nearest_exact by done.
  split; [by apply shown_exact|by apply binds_exact].
Qed.

Lemma paid_out_frame wheelId winner w d :
  spin_wheels (paid_out wheelId winner w d) = spin_wheels d /\
  spin_participants (paid_out wheelId winner w d) = spin_participants d /\
  wheel_seq (paid_out wheelId winner w d) = wheel_seq d.
Proof.
  unfold paid_out. by destruct (0 <? winner_pool w), (0 <? admin_pool w).
Qed.

(** [finalizeWinner] either rolls back, or pays out and finishes. *)
Lemma finalizeWinner_cases wheelId winner d :
  finalizeWinner wheelId winner d = (d, []) \/
  exists w, spin_wheels d !! wheelId = Some w /\
    finalizeWinner wheelId winner d =
    (set_status wheelId Finished (paid_out wheelId winner w d),
     [wheelFinished wheelId winner]).
Proof.
  unfold finalizeWinner, paid_out, credit.
  destruct (spin_wheels d !! wheelId) as [w|]; [|by left].
  destruct (0 <? winner_pool w) eqn:Hwp; cbn [mbind option_bind].
  - destruct (users d !! winner) as [u|]; cbn [mbind option_bind];
      [|by left].
    destruct (0 <? admin_pool w) eqn:Hap.
    + destruct (users _ !! owner_id w); [|by left].
      right; exists w; by rewrite Hwp, Hap.
    + right; exists w; by rewrite Hwp, Hap.
  - destruct (0 <? admin_pool w) eqn:Hap.
    + destruct (users d !! owner_id w); [|by left].
      right; exists w; by rewrite Hwp, Hap.
    + right; exists w; by rewrite Hwp, Hap.
Qed.

(** ... and it pays out when the wheel, the winner and the owner are
    there. *)
Lemma finalizeWinner_ok wheelId winner d w :
  spin_wheels d !! wheelId = Some w ->
  is_Some (users d !! winner) -> is_Some (users d !! owner_id w) ->
  finalizeWinner wheelId winner d =
  (set_status wheelId Finished (paid_out wheelId winner w d),
   [wheelFinished wheelId winner]).
Proof.
  intros Hw [u Hu] [o Ho]. unfold finalizeWinner, paid_out, credit.
  rewrite Hw. destruct (0 <? winner_pool w); cbn [mbind option_bind].
  - rewrite Hu. cbn [mbind option_bind].
    destruct (0 <? admin_pool w); [|done].
    unfold credited at 1. simpl.
    destruct (decide (winner = owner_id w)) as [Heq|Hne].
    + by rewrite <- Heq, lookup_alter_eq, Hu.
    + by rewrite lookup_alter_ne, Ho.
  - destruct (0 <? admin_pool w); [|done]. by rewrite Ho.
Qed.

Lemma refundWheel_participants wheelId reason d :
  spin_participants (refundWheel wheelId reason d) = spin_participants d.
Proof.
  destruct (refundWheel_cases wheelId reason d) as [->|(w & _ & ->)];
    [done|].
  simpl. by destruct (refunded_frame wheelId reason (refund_amount w)
                        (participants_of wheelId d) d) as (_ & -> & _).
Qed.

Lemma finalizeWinner_participants wheelId winner d :
  spin_participants (finalizeWinner wheelId winner d).1 = spin_participants d.
Proof.
  destruct (finalizeWinner_cases wheelId winner d) as [->|(w & _ & ->)];
    [done|].
  simpl. by destruct (paid_out_frame wheelId winner w d) as (_ & -> & _).
Qed.

(** ** Joining a wheel twice *)

Lemma rows_of_joined d wid uid w u :
  rows_of uid wid (joined d wid uid w u) = rows_of uid wid d + 1.
Proof.
  unfold rows_of. rewrite participants_of_joined.
  destruct (decide (wid = wid)); [|done].
  rewrite filter_app, length_app. filter_head. simpl. lia.
Qed.




(** The balance check compares doubles: Fay holds 2^53 coins, one less
    than the fee 2^53 + 1 of wheel 1, both read as 2^53, and her join is
    accepted; it leaves her 0 coins. *)
Example join_balance_below_fee :
  balance 12 Sample.with_fay = Some (2 ^ 53) /\
  entry_fee <$> spin_wheels Sample.with_fay !! 1 = Some (2 ^ 53 + 1) /\
  (join Sample.with_fay 1 12).2 = JoinOk /\
  balance 12 (join Sample.with_fay 1 12).1.1 = Some 0.
Proof. evaluate. Qed.

(** ** The elimination loop on three participants *)

Example started_ok :
  Sample.started.2 = StartOk /\
  Sample.started.1.2 = [EliminateTimer Sample.started_chain] /\
  length (active_of 1 Sample.started_db) = 3%nat.
Proof. evaluate. Qed.

(** C3.  Three players have joined wheel 1 (fee 100, winner pool 210) and
    the wheel is started.  Each tick eliminates one participant and the
    third finalises: the remaining participant, Ann, is credited the winner
    pool.  But both eliminated rows get [eliminated_order] 3, the number of
    rows of the wheel: the values are equal, not strictly increasing. *)
Theorem elimination_order_constant :
  length (active_of 1 Sample.tick1.1.1) = 2%nat /\
  eliminated_rows 1 Sample.tick1.1.1 = [(10, Some 3)] /\
  length (active_of 1 Sample.tick2.1.1) = 1%nat /\
  eliminated_rows 1 Sample.tick2.1.1 = [(8, Some 3); (10, Some 3)] /\
  Sample.tick3.1.2 = [wheelFinished 1 7] /\
  Sample.tick3.2 = [] /\
  w_status <$> spin_wheels Sample.tick3.1.1 !! 1 = Some Finished /\
  winner_pool <$> spin_wheels Sample.started_db !! 1 = Some 210 /\
  balance 7 Sample.started_db = Some 400 /\
  balance 7 Sample.tick3.1.1 = Some 610 /\
  run_timers (fun l => l) 5 [EliminateTimer Sample.started_chain]
             Sample.started_db =
    (Sample.tick3.1.1,
     [userEliminated 1 10 "di"; userEliminated 1 8 "bob";
      wheelFinished 1 7]).
Proof. evaluate. Qed.

(** ** Timers that fire on a wheel that is no longer pending *)

(** [autoStartWheel] returns at once unless the wheel is pending. *)
Lemma autoStartWheel_not_pending shuffle wid d w :
  spin_wheels d !! wid = Some w -> w_status w <> Pending ->
  autoStartWheel shuffle wid d = (d, [], []).
Proof.
  intros Hw Hst. unfold autoStartWheel. rewrite Hw.
  by rewrite bool_decide_eq_false_2.
Qed.

(** C7.  Wheel 1 is finished after the third tick, and the deadline timer
    that fires then does nothing.  An elimination tick that fires then is
    not a no-op: [eliminateOne] does not look at the status, finds one
    active participant and finalises again, so Ann is paid the winner pool
    of 210 and the owner the admin pool of 60 a second time.  Such a tick
    exists when two start requests have both passed their checks before
    either wrote ['active']: two loops run, and the one that ticks second
    pays Bob, the winner, again. *)
Theorem tick_after_finish_pays_again :
  w_status <$> spin_wheels Sample.tick3.1.1 !! 1 = Some Finished /\
  autoStartWheel (fun l => l) 1 Sample.tick3.1.1
    = (Sample.tick3.1.1, [], []) /\
  balance 7 Sample.tick3.1.1 = Some 610 /\
  balance 7 Sample.tick4.1.1 = Some 820 /\
  balance 1 Sample.tick3.1.1 = Some 60 /\
  balance 1 Sample.tick4.1.1 = Some 120 /\
  Sample.tick4.1.2 = [wheelFinished 1 7] /\
  length (transactions Sample.tick4.1.1) =
    (length (transactions Sample.tick3.1.1) + 2)%nat /\
  start_checks Sample.three_joined 1 1 = None /\
  length Sample.started_twice.2 = 2%nat /\
  Sample.raced.2 =
    [userEliminated 1 10 "di"; userEliminated 1 7 "ann";
     wheelFinished 1 8; wheelFinished 1 8] /\
  balance 8 Sample.started_twice.1 = Some 400 /\
  balance 8 Sample.raced.1 = Some 820.
Proof. evaluate. Qed.

(** ** Ledger reconciliation in the backend *)

Lemma recorded_app uid l1 l2 :
  recorded uid (l1 ++ l2) = recorded uid l1 + recorded uid l2.
Proof.
  unfold recorded. rewrite filter_app, fmap_app, foldr_app.
  generalize (foldr Z.add 0 (t_amount <$> filter (fun t => t_user t = uid) l2)).
  induction (t_amount <$> filter (fun t => t_user t = uid) l1) as [|x xs IH];
    intros z; simpl; [lia|]. rewrite IH. lia.
Qed.

Lemma recorded_one uid t :
  recorded uid [t] = if decide (t_user t = uid) then t_amount t else 0.
Proof.
  unfold recorded. destruct (decide (t_user t = uid)).
  - rewrite filter_cons_True by done. simpl. lia.
  - by rewrite filter_cons_False.
Qed.

Lemma ledger_step_refl d : ledger_step d d [].
Proof.
  split; [by rewrite app_nil_r|]. intros uid. unfold balance.
  destruct (users d !! uid); simpl; [|done]. f_equal. unfold recorded. simpl.
  lia.
Qed.

Lemma ledger_step_frame d d' :
  users d' = users d -> transactions d' = transactions d ->
  ledger_step d d' [].
Proof.
  intros Hu Ht. destruct (ledger_step_refl d) as [H1 H2].
  split; [by rewrite Ht|]. intros uid. unfold balance in *. rewrite Hu.
  apply H2.
Qed.

Lemma ledger_step_trans d1 d2 d3 n1 n2 :
  ledger_step d1 d2 n1 -> ledger_step d2 d3 n2 ->
  ledger_step d1 d3 (n1 ++ n2).
Proof.
  intros [Ht1 Hb1] [Ht2 Hb2]. split.
  - by rewrite Ht2, Ht1, app_assoc.
  - intros uid. rewrite Hb2, Hb1, recorded_app.
    destruct (balance uid d1); simpl; [|done]. f_equal; lia.
Qed.

Lemma ledger_step_credit uid amt m d :
  ledger_step d (credited uid amt m d)
    [{| t_user := uid; t_amount := amt; t_type := Credit; t_meta := m |}].
Proof.
  split; [done|]. intros uid'. unfold balance, credited. simpl.
  rewrite recorded_one. simpl.
  destruct (decide (uid = uid')) as [->|Hne].
  - rewrite lookup_alter_eq. by destruct (users d !! uid').
  - rewrite lookup_alter_ne by done.
    destruct (users d !! uid'); simpl; [|done]. f_equal; lia.
Qed.

Lemma safe_amounts_debit d wid uid w u :
  safe_amounts d -> spin_wheels d !! wid = Some w ->
  users d !! uid = Some u -> safe_debit w u.
Proof.
  intros [Hws Hus] Hw Hu. split; [exact (Hws _ _ Hw)|exact (Hus _ _ Hu)].
Qed.

Lemma ledger_step_join d wid uid :
  safe_amounts d ->
  exists new, ledger_step d (join d wid uid).1.1 new.
Proof.
  intros Hsafe.
  destruct (join_cases d wid uid) as [[ev Hj]|[e Hj]]; rewrite Hj; simpl.
  2:{ exists []. apply ledger_step_refl. }
  destruct (join_ok_inv _ _ _ _ _ Hj)
    as (w & u & Hw & _ & Hu & [Hle _] & ->).
  pose proof (safe_amounts_debit _ _ _ _ _ Hsafe Hw Hu) as Hd.
  destruct (debit_exact _ _ Hd) as (_ & Hdb & _ & Hnew).
  destruct Hd as [Hf Hc].
  rewrite !nearest_exact in Hle by lia.
  destruct (Hnew Hle) as [Hnc _].
  eexists. split; [unfold joined; simpl; reflexivity|].
  intros uid'. unfold balance, joined. simpl. rewrite recorded_one. simpl.
  rewrite Hdb, Hnc.
  destruct (decide (uid = uid')) as [->|Hne].
  - rewrite lookup_alter_eq, Hu. simpl. f_equal; lia.
  - rewrite lookup_alter_ne by done.
    destruct (users d !! uid'); simpl; [|done]. f_equal; lia.
Qed.

Lemma ledger_step_paid_out wheelId winner w d :
  ledger_step d (paid_out wheelId winner w d)
              (payout_records wheelId winner w).
Proof.
  unfold paid_out, payout_records.
  eapply ledger_step_trans.
  - instantiate (1 := if 0 <? winner_pool w then _ else d).
    destruct (0 <? winner_pool w);
      [apply ledger_step_credit|apply ledger_step_refl].
  - destruct (0 <? admin_pool w);
      [apply ledger_step_credit|apply ledger_step_refl].
Qed.

Lemma ledger_step_set_status wid st d new d' :
  ledger_step d d' new -> ledger_step d (set_status wid st d') new.
Proof.
  intros Hs. rewrite <- (app_nil_r new).
  eapply ledger_step_trans; [exact Hs|]. by apply ledger_step_frame.
Qed.

Lemma ledger_step_finalizeWinner wheelId winner d :
  exists new, ledger_step d (finalizeWinner wheelId winner d).1 new.
Proof.
  destruct (finalizeWinner_cases wheelId winner d) as [->|(w & _ & ->)].
  - exists []. apply ledger_step_refl.
  - eexists. apply ledger_step_set_status, ledger_step_paid_out.
Qed.

Lemma ledger_step_refunded wheelId reason fee ps d :
  ledger_step d (refunded wheelId reason fee ps d)
              (refund_record wheelId reason fee <$> ps).
Proof.
  unfold refunded. revert d. induction ps as [|p ps IH]; intros d; simpl.
  - apply ledger_step_refl.
  - change (?x :: ?l) with ([x] ++ l).
    eapply ledger_step_trans; [apply ledger_step_credit|apply IH].
Qed.

Lemma ledger_step_refundWheel wheelId reason d :
  exists new, ledger_step d (refundWheel wheelId reason d) new.
Proof.
  destruct (refundWheel_cases wheelId reason d) as [->|(w & _ & ->)].
  - exists []. apply ledger_step_refl.
  - eexists. apply ledger_step_set_status, ledger_step_refunded.
Qed.

Lemma ledger_step_eliminateOne c d :
  exists new, ledger_step d (eliminateOne c d).1.1 new.
Proof.
  unfold eliminateOne.
  destruct (active_of (c_wheel c) d) as [|r [|r' rs]].
  - exists []. by apply ledger_step_frame.
  - destruct (ledger_step_finalizeWinner (c_wheel c) (user_id r) d)
      as [new H].
    destruct (finalizeWinner (c_wheel c) (user_id r) d) as [d' ev].
    by exists new.
  - destruct (next_candidate d _ _) as [found idx].
    exists [].
    match goal with
    | |- context [users (mark_eliminated ?w ?p d) !! ?k] =>
      destruct (users (mark_eliminated w p d) !! k)
    end; simpl; by apply ledger_step_frame.
Qed.

Lemma ledger_step_perform d a :
  safe_amounts d ->
  exists new, ledger_step d (perform d a) new.
Proof.
  intros Hsafe.
  destruct a as [owner fee|wj uj|sh wj owner|sh wj|c]; simpl.
  - exists []. unfold post_wheels.
    destruct (users d !! owner) as [adm|]; [|apply ledger_step_refl].
    destruct (negb (is_admin adm)); [apply ledger_step_refl|].
    destruct (negb (bool_decide (live_wheels d = ∅)));
      [apply ledger_step_refl|].
    destruct (fee_param _); [|apply ledger_step_refl].
    by apply ledger_step_frame.
  - by apply ledger_step_join.
  - exists []. unfold post_wheels_start.
    destruct (start_checks d wj owner); [apply ledger_step_refl|].
    by apply ledger_step_frame.
  - unfold autoStartWheel.
    destruct (spin_wheels d !! wj) as [w|];
      [|exists []; apply ledger_step_refl].
    destruct (negb (bool_decide (w_status w = Pending)));
      [exists []; apply ledger_step_refl|].
    destruct (count_participants wj d <? min_participants w).
    + apply ledger_step_refundWheel.
    + exists []. by apply ledger_step_frame.
  - apply ledger_step_eliminateOne.
Qed.

Lemma ledger_step_run d l :
  throughout safe_amounts d l ->
  exists new, ledger_step d (run d l) new.
Proof.
  revert d. induction l as [|a l IH]; intros d Hsafe.
  - exists []. apply ledger_step_refl.
  - destruct Hsafe as [Hd Hl].
    destruct (ledger_step_perform d a Hd) as [n1 H1].
    destruct (IH (perform d a) Hl) as [n2 H2].
    exists (n1 ++ n2). by eapply ledger_step_trans.
Qed.

(** C4 (amended).  In the backend, after any sequence of requests and timer
    callbacks (joins, starts, refunds on abort, elimination ticks and the
    payout on finalisation) each of which finds fees that are not negative
    and below 2^53 and balances of magnitude below 2^53, the transaction
    table is the old one followed by the records appended, and the balance
    of every user has moved by the sum of the signed amounts of the records
    appended for that user. *)
Theorem backend_ledger_reconciles d l uid :
  throughout safe_amounts d l ->
  transactions (run d l) = transactions d ++ appended d (run d l) /\
  balance uid (run d l) =
    (fun c => c + recorded uid (appended d (run d l))) <$> balance uid d.
Proof.
  intros Hsafe.
  destruct (ledger_step_run d l Hsafe) as [new [Ht Hb]].
  assert (appended d (run d l) = new) as ->.
  { unfold appended. rewrite Ht. by rewrite drop_app_length. }
  split; [done|apply Hb].
Qed.

(** Wheel 1 of fee 100: Ann, Bob and Di join, and Ann's balance of 500 has
    moved by the one record of -100 appended for her. *)
Lemma backend_ledger_reconciles_witness :
  throughout safe_amounts (Sample.with_wheel 100)
    [ReqJoin 1 7; ReqJoin 1 8; ReqJoin 1 10] /\
  transactions (run (Sample.with_wheel 100)
                    [ReqJoin 1 7; ReqJoin 1 8; ReqJoin 1 10]) =
    transactions (Sample.with_wheel 100) ++
    appended (Sample.with_wheel 100)
      (run (Sample.with_wheel 100)
           [ReqJoin 1 7; ReqJoin 1 8; ReqJoin 1 10]) /\
  balance 7 (run (Sample.with_wheel 100)
                 [ReqJoin 1 7; ReqJoin 1 8; ReqJoin 1 10]) =
    (fun c => c + recorded 7
       (appended (Sample.with_wheel 100)
          (run (Sample.with_wheel 100)
               [ReqJoin 1 7; ReqJoin 1 8; ReqJoin 1 10])))
      <$> balance 7 (Sample.with_wheel 100).
Proof.
  assert (throughout safe_amounts (Sample.with_wheel 100)
            [ReqJoin 1 7; ReqJoin 1 8; ReqJoin 1 10]) as Hsafe.
  { cbn [throughout].
    repeat lazymatch goal with
           | |- _ /\ _ => split
           | |- True => exact I
           end; apply (bool_decide_unpack _); vm_compute; reflexivity. }
  split; [exact Hsafe|].
  exact (backend_ledger_reconciles (Sample.with_wheel 100)
           [ReqJoin 1 7; ReqJoin 1 8; ReqJoin 1 10] 7 Hsafe).
Defined.

(** C4 as stated fails for the payout of the game service: [startWheel]
    increments the balance of the winner by the pool (one paid player, fee
    100) and writes no transaction record.  It also fails in the backend
    above 2^53: Eve holds 2^53 + 1 coins and joins a wheel of fee 100; the
    handler reads her balance as 2^53 and writes 2^53 - 100, so that her
    balance has moved by 101 while the record appended for her says
    -100. *)
Lemma direct_draw_payout_unrecorded :
  GameService.users (GameService.st SampleDraw.before_start) !! 7
    = Some 500 /\
  GameService.users (GameService.st SampleDraw.after_start.1) !! 7
    = Some 600 /\
  GameService.ledger (GameService.st SampleDraw.after_start.1) =
    GameService.ledger (GameService.st SampleDraw.before_start) /\
  600 - 500 <>
    recorded 7
      (drop (length (GameService.ledger
                       (GameService.st SampleDraw.before_start)))
            (GameService.ledger (GameService.st SampleDraw.after_start.1))) /\
  balance 11 Sample.with_odd_eve = Some (2 ^ 53 + 1) /\
  (join Sample.with_odd_eve 1 11).2 = JoinOk /\
  balance 11 (join Sample.with_odd_eve 1 11).1.1 = Some (2 ^ 53 - 100) /\
  recorded 11 (appended Sample.with_odd_eve
                 (join Sample.with_odd_eve 1 11).1.1) = -100 /\
  balance 11 (join Sample.with_odd_eve 1 11).1.1 <>
    (fun c => c + recorded 11
       (appended Sample.with_odd_eve (join Sample.with_odd_eve 1 11).1.1))
      <$> balance 11 Sample.with_odd_eve.
Proof. evaluate. Qed.

(** ** Abort: the refund *)

Lemma recorded_refunds uid wid reason fee ps :
  recorded uid (refund_record wid reason fee <$> ps) =
  fee * Z.of_nat (length (filter (fun p => user_id p = uid) ps)).
Proof.
  induction ps as [|p ps IH]; [unfold recorded; simpl; lia|].
  rewrite fmap_cons. change (?x :: ?l) with ([x] ++ l) at 1.
  rewrite recorded_app, IH, recorded_one. simpl.
  destruct (decide (user_id p = uid)).
  - rewrite filter_cons_True by done. simpl length. lia.
  - rewrite filter_cons_False by done. lia.
Qed.



Example refund_three_players :
  balance 7 Sample.three_joined = Some 400 /\
  balance 8 Sample.three_joined = Some 400 /\
  balance 10 Sample.three_joined = Some 150 /\
  balance 7 (refundWheel 1 "abort" Sample.three_joined) = Some 500 /\
  balance 8 (refundWheel 1 "abort" Sample.three_joined) = Some 500 /\
  balance 10 (refundWheel 1 "abort" Sample.three_joined) = Some 250 /\
  balance 9 (refundWheel 1 "abort" Sample.three_joined) = Some 100 /\
  w_status <$> spin_wheels (refundWheel 1 "abort" Sample.three_joined) !! 1
    = Some Aborted /\
  (fun t => (t_user t, t_amount t, t_type t, m_reason (t_meta t)))
    <$> appended Sample.three_joined
          (refundWheel 1 "abort" Sample.three_joined)
    = [(7, 100, Credit, Some "abort"%string);
       (8, 100, Credit, Some "abort"%string);
       (10, 100, Credit, Some "abort"%string)].
Proof. evaluate. Qed.


(** ** Creating a wheel: the default entry fee *)

Lemma in_int8_inv z fee : in_int8 z = Some fee -> fee = z.
Proof.
  unfold in_int8. destruct ((- 2 ^ 63 <=? z) && (z <? 2 ^ 63)); congruence.
Qed.

(** C10 (amended).  When [POST /api/wheels] creates a wheel, the value
    bound to the [entry_fee] column is the supplied one if it is truthy and
    the number 100 otherwise.  So an absent, [null], [false], empty or
    numeric zero fee is not rejected: the wheel is created with fee 100; a
    non-zero number is stored as the column reads the text [String(number)]
    of its double, which is the number itself when its magnitude is below
    2^53; and no supplied value other than a string yields a wheel of fee
    0.  A non-empty string is truthy and is stored as the column reads
    it. *)
Theorem create_default_entry_fee d owner v d' ev tm id w :
  post_wheels d owner v = (d', ev, tm, Created id w) ->
  spin_wheels d' !! id = Some w /\
  fee_param (if Js.truthy v then v else Js.Num 100) = Some (entry_fee w) /\
  (Js.truthy v = false -> entry_fee w = 100) /\
  (forall z, v = Js.Num z ->
     entry_fee w = if z =? 0 then 100 else Js.shown (Js.nearest z)) /\
  (forall z, v = Js.Num z -> Z.abs z < 2 ^ 53 ->
     entry_fee w = if z =? 0 then 100 else z) /\
  ((forall s, v <> Js.Str s) -> entry_fee w <> 0) /\
  (forall s, v = Js.Str s -> s <> ""%string -> int8in s = Some (entry_fee w)).
Proof.
  unfold post_wheels. intros Hc.
  destruct (users d !! owner) as [adm|]; [|discriminate].
  destruct (negb (is_admin adm)); [discriminate|].
  destruct (negb (bool_decide (live_wheels d = ∅))); [discriminate|].
  destruct (fee_param (Js.or v (Js.Num 100))) as [fee|] eqn:Hfee;
    [|discriminate].
  injection Hc as <- _ _ <- <-.
  split; [by simpl; rewrite lookup_insert_eq|].
  split; [exact Hfee|].
  unfold Js.or in Hfee. simpl.
  assert (Hdefault : fee_param (Js.Num 100) = Some fee -> fee = 100).
  { intros Hf. vm_compute in Hf. congruence. }
  assert (Hnum : forall z, fee_param (Js.Num z) = Some fee ->
                           fee = Js.shown (Js.nearest z)).
  { intros z Hf. unfold fee_param in Hf.
    destruct (Js.binds (Js.nearest z)); congruence. }
  split; [intros Hv; rewrite Hv in Hfee; by apply Hdefault|].
  split; [|split; [|split]].
  - intros z ->. simpl in Hfee. destruct (z =? 0); simpl in Hfee;
      [by apply Hdefault|by apply Hnum].
  - intros z -> Hz. simpl in Hfee. destruct (z =? 0); simpl in Hfee;
      [by apply Hdefault|].
    apply Hnum in Hfee. by rewrite nearest_exact, shown_exact in Hfee.
  - intros Hs. destruct v as [| |b|z|s]; simpl in Hfee.
    + apply Hdefault in Hfee. lia.
    + apply Hdefault in Hfee. lia.
    + destruct b; simpl in Hfee; [discriminate|]. apply Hdefault in Hfee. lia.
    + destruct (z =? 0) eqn:Hz; simpl in Hfee;
        [apply Hdefault in Hfee; lia|].
      apply Z.eqb_neq in Hz. apply Hnum in Hfee. intros H0.
      apply Hz, nearest_zero, shown_zero. congruence.
    + by destruct (Hs s).
  - intros s -> Hne. simpl in Hfee.
    destruct (String.eqb s "") eqn:Hs; [|done].
    by apply String.eqb_eq in Hs.
Qed.

(** The administrator creates a wheel with [entry_fee: 0]: fee 100. *)
Lemma create_default_entry_fee_witness :
  spin_wheels (Sample.with_wheel 0) !! 1 = Some (new_wheel 1 100) /\
  fee_param (if Js.truthy (Js.Num 0) then Js.Num 0 else Js.Num 100)
    = Some (entry_fee (new_wheel 1 100)) /\
  (Js.truthy (Js.Num 0) = false -> entry_fee (new_wheel 1 100) = 100) /\
  (forall z, Js.Num 0 = Js.Num z ->
   entry_fee (new_wheel 1 100) =
     if z =? 0 then 100 else Js.shown (Js.nearest z)) /\
  (forall z, Js.Num 0 = Js.Num z -> Z.abs z < 2 ^ 53 ->
   entry_fee (new_wheel 1 100) = if z =? 0 then 100 else z) /\
  ((forall s, Js.Num 0 <> Js.Str s) -> entry_fee (new_wheel 1 100) <> 0) /\
  (forall s, Js.Num 0 = Js.Str s -> s <> ""%string ->
   int8in s = Some (entry_fee (new_wheel 1 100))).
Proof.
  apply (create_default_entry_fee Sample.empty_db 1 (Js.Num 0)
           (Sample.with_wheel 0) [wheelCreated 1 (new_wheel 1 100)]
           [AutoStartTimer 1] 1 (new_wheel 1 100)).
  vm_compute. reflexivity.
Defined.

(** C10 as stated fails: the string ["0"] is truthy, so it is bound to the
    column as it is, the column reads it as 0, and a wheel with entry fee 0
    is created.  And a truthy number is not always stored as supplied: 2^62
    is bound as the text of its double, 4611686018427388000. *)
Lemma create_zero_fee_from_text :
  Js.truthy (Js.Str "0") = true /\
  (post_wheels Sample.empty_db 1 (Js.Str "0")).2
    = Created 1 (new_wheel 1 0) /\
  entry_fee (new_wheel 1 0) = 0 /\
  entry_fee <$> spin_wheels (post_wheels Sample.empty_db 1
                               (Js.Str "0")).1.1.1 !! 1 = Some 0 /\
  Js.truthy (Js.Num (2 ^ 62)) = true /\
  entry_fee <$> spin_wheels (post_wheels Sample.empty_db 1
                               (Js.Num (2 ^ 62))).1.1.1 !! 1
    = Some 4611686018427388000 /\
  4611686018427388000 <> 2 ^ 62.
Proof. evaluate. Qed.

Example create_fee_values :
  (post_wheels Sample.empty_db 1 Js.Undefined).2
    = Created 1 (new_wheel 1 100) /\
  (post_wheels Sample.empty_db 1 Js.Null).2 = Created 1 (new_wheel 1 100) /\
  (post_wheels Sample.empty_db 1 (Js.Num 0)).2
    = Created 1 (new_wheel 1 100) /\
  (post_wheels Sample.empty_db 1 (Js.Str "")).2
    = Created 1 (new_wheel 1 100) /\
  (post_wheels Sample.empty_db 1 (Js.Bool false)).2
    = Created 1 (new_wheel 1 100) /\
  (post_wheels Sample.empty_db 1 (Js.Num 250)).2
    = Created 1 (new_wheel 1 250) /\
  (post_wheels Sample.empty_db 1 (Js.Str " 250 ")).2
    = Created 1 (new_wheel 1 250) /\
  (post_wheels Sample.empty_db 1 (Js.Str "-7")).2
    = Created 1 (new_wheel 1 (-7)) /\
  (post_wheels Sample.empty_db 1 (Js.Str "0x10")).2
    = Created 1 (new_wheel 1 16) /\
  (post_wheels Sample.empty_db 1 (Js.Str "1_000")).2
    = Created 1 (new_wheel 1 1000) /\
  (post_wheels Sample.empty_db 1 (Js.Num (2 ^ 53 + 1))).2
    = Created 1 (new_wheel 1 (2 ^ 53)) /\
  (post_wheels Sample.empty_db 1 (Js.Num (2 ^ 62))).2
    = Created 1 (new_wheel 1 4611686018427388000) /\
  (post_wheels Sample.empty_db 1 (Js.Num (2 ^ 63))).2 = CreateFailed /\
  (post_wheels Sample.empty_db 1 (Js.Str "ten")).2 = CreateFailed /\
  (post_wheels Sample.empty_db 1 (Js.Bool true)).2 = CreateFailed /\
  (post_wheels Sample.empty_db 7 (Js.Num 250)).2 = OnlyAdmin /\
  (post_wheels (Sample.with_wheel 100) 1 (Js.Num 250)).2
    = ActiveWheelExists.
Proof. evaluate. Qed.

(** ** The weighted draw *)

Section draw.
Import GameService.
Context `{Crypto}.

Lemma to_double_nonneg n : 0 <= n -> 0 <= Js.to_double n.
Proof.
  intros Hn. unfold Js.to_double.
  destruct (Z.log2 n - 52 <=? 0) eqn:He; [done|].
  apply Z.leb_gt in He.
  assert (0 < 2 ^ (Z.log2 n - 52)) by (apply Z.pow_pos_nonneg; lia).
  assert (0 <= n / 2 ^ (Z.log2 n - 52)) by (apply Z.div_pos; lia).
  apply Z.mul_nonneg_nonneg; [|lia].
  repeat match goal with |- context [if ?b then _ else _] => destruct b end;
    lia.
Qed.

Lemma digest_num_nonneg seed nonce : 0 <= digest_num seed nonce.
Proof.
  unfold digest_num. apply to_double_nonneg.
  apply Z.div_pos; [|lia]. apply Z.mod_pos_bound. lia.
Qed.

Lemma eff_weight_pos seg : weight_ok seg -> 1 <= eff_weight seg.
Proof.
  unfold weight_ok, eff_weight, Js.or_num. intros Hok.
  destruct (weight seg) as [z|]; [|lia].
  specialize (Hok z eq_refl). destruct (z =? 0) eqn:Hz; [lia|].
  apply Z.eqb_neq in Hz. lia.
Qed.

Lemma eff_weight_default seg :
  weight seg = None \/ weight seg = Some 0 -> eff_weight seg = 1.
Proof. unfold eff_weight. by intros [-> | ->]. Qed.

Lemma foldl_weights a segs :
  foldl (fun s seg => s + eff_weight seg) a segs =
  a + foldr Z.add 0 (eff_weight <$> segs).
Proof.
  revert a. induction segs as [|seg segs IH]; intros a; csimpl; [lia|].
  rewrite IH. lia.
Qed.

Lemma totalWeight_sum segs :
  totalWeight segs = foldr Z.add 0 (eff_weight <$> segs).
Proof. unfold totalWeight. rewrite foldl_weights. lia. Qed.

Lemma totalWeight_pos segs :
  segs <> [] -> Forall weight_ok segs -> 0 < totalWeight segs.
Proof.
  rewrite totalWeight_sum. intros Hne Hok.
  assert (Z.of_nat (length segs) <= foldr Z.add 0 (eff_weight <$> segs)).
  { clear Hne. induction Hok as [|seg segs Hseg _ IH]; csimpl; [lia|].
    pose proof (eff_weight_pos seg Hseg). lia. }
  destruct segs; [done|]. simpl length in *. lia.
Qed.

(** The loop returns an index of the part it walks, or [last]. *)
Lemma spin_loop_range pick acc i rest last :
  let r := spin_loop pick acc i rest last in
  i <= r < i + Z.of_nat (length rest) \/ r = last.
Proof.
  revert acc i. induction rest as [|seg rest IH]; intros acc i; csimpl.
  - by right.
  - destruct (Js.lt pick (acc + eff_weight seg)).
    + left. lia.
    + destruct (IH (acc + eff_weight seg) (i + 1)) as [Hr|Hr];
        [left; lia|by right].
Qed.

(** With a reduced value between the running sum and the sum of all the
    weights, the loop stops at the first index whose cumulative weight
    exceeds it. *)
Lemma spin_loop_first p acc i rest last :
  acc <= p < acc + foldr Z.add 0 (eff_weight <$> rest) ->
  exists k : nat,
    spin_loop (Some p) acc i rest last = i + Z.of_nat k /\
    (k < length rest)%nat /\
    p < acc + foldr Z.add 0 (eff_weight <$> take (S k) rest) /\
    forall j, (j < k)%nat ->
      acc + foldr Z.add 0 (eff_weight <$> take (S j) rest) <= p.
Proof.
  revert acc i. induction rest as [|seg rest IH]; intros acc i; csimpl.
  - lia.
  - intros Hp. destruct (p <? acc + eff_weight seg) eqn:Hlt.
    + apply Z.ltb_lt in Hlt. exists 0%nat. rewrite take_0. csimpl.
      repeat split; try lia.
    + apply Z.ltb_ge in Hlt.
      destruct (IH (acc + eff_weight seg) (i + 1))
        as (k & Hr & Hk & Hex & Hmin); [lia|].
      exists (S k). rewrite Hr.
      split; [lia|]. split; [simpl; lia|]. split; [csimpl; lia|].
      intros [|j] Hj; csimpl; [lia|].
      specialize (Hmin j). csimpl in Hmin. lia.
Qed.

Lemma reduced_pick seed nonce segs :
  0 < totalWeight segs ->
  Js.rem (digest_num seed nonce) (totalWeight segs) =
  Some (digest_num seed nonce `mod` totalWeight segs).
Proof.
  intros Hpos. unfold Js.rem.
  destruct (totalWeight segs =? 0) eqn:Hz; [apply Z.eqb_eq in Hz; lia|].
  f_equal. apply Z.rem_mod_nonneg; [apply digest_num_nonneg|done].
Qed.





(** C9 (amended).  For a non-empty list of segments, whatever the seed,
    the nonce and the weights, the index returned is at least 0 and less
    than the number of segments.  A segment whose weight is missing or zero
    counts 1; so when no weight is negative the total is positive and the
    reduction modulo the total is a number. *)
Theorem spin_index_in_range seed nonce segs :
  segs <> [] ->
  0 <= deterministicSpinIndex seed nonce segs < Z.of_nat (length segs) /\
  (forall seg,
     weight seg = None \/ weight seg = Some 0 -> eff_weight seg = 1) /\
  (Forall weight_ok segs ->
   0 < totalWeight segs /\
   Js.rem (digest_num seed nonce) (totalWeight segs) =
   Some (digest_num seed nonce `mod` totalWeight segs)).
Proof.
  intros Hne. split; [|split].
  - unfold deterministicSpinIndex.
    pose proof (spin_loop_range
                  (Js.rem (digest_num seed nonce) (totalWeight segs)) 0 0 segs
                  (Z.of_nat (length segs) - 1)) as Hr.
    cbv zeta in Hr. destruct segs; [done|]. simpl length in *. lia.
  - apply eff_weight_default.
  - intros Hok. pose proof (totalWeight_pos segs Hne Hok) as Hpos.
    split; [done|]. by apply reduced_pick.
Qed.

End draw.



Example spin_index_sample :
  GameService.digest_num (H := SampleDraw.crypto) "5eed" 1730000000000
    = 679138159603606912 /\
  GameService.totalWeight SampleDraw.mixed_segments = 10 /\
  GameService.deterministicSpinIndex (H := SampleDraw.crypto) "5eed"
    1730000000000 SampleDraw.mixed_segments = 2 /\
  GameService.deterministicSpinIndex (H := SampleDraw.crypto) "5eed"
    1730000000000 SampleDraw.four_segments = 0.
Proof. evaluate. Qed.

Lemma spin_index_in_range_witness :
  0 <= GameService.deterministicSpinIndex (H := SampleDraw.crypto) "5eed"
         1730000000000 SampleDraw.mixed_segments
    < Z.of_nat (length SampleDraw.mixed_segments) /\
  GameService.eff_weight
    {| GameService.label := "b"; GameService.weight := None |} = 1 /\
  GameService.eff_weight
    {| GameService.label := "c"; GameService.weight := Some 0 |} = 1 /\
  0 < GameService.totalWeight SampleDraw.mixed_segments /\
  Js.rem (GameService.digest_num (H := SampleDraw.crypto) "5eed"
            1730000000000)
         (GameService.totalWeight SampleDraw.mixed_segments) =
  Some (GameService.digest_num (H := SampleDraw.crypto) "5eed"
          1730000000000
        `mod` GameService.totalWeight SampleDraw.mixed_segments).
Proof.
  destruct (spin_index_in_range (H := SampleDraw.crypto) "5eed"
              1730000000000 SampleDraw.mixed_segments)
    as (Hrange & Hdefault & Htotal); [discriminate|].
  split; [exact Hrange|].
  split; [apply Hdefault; by left|].
  split; [apply Hdefault; by right|].
  apply Htotal. unfold SampleDraw.mixed_segments.
  repeat match goal with |- Forall _ _ => constructor end;
    intros z Hz; inversion Hz; lia.
Defined.

(** C9 as stated fails.  The weights -1 and 1 are neither missing nor
    zero, so both count as they are: the total weight is 0, not positive,
    and the reduction modulo it is [NaN], not a number.  The index returned
    is still in range: the loop falls through to the last one. *)
Lemma spin_index_zero_total :
  GameService.eff_weight
    {| GameService.label := "a"; GameService.weight := Some (-1) |} = -1 /\
  GameService.totalWeight SampleDraw.cancelling_segments = 0 /\
  ~ 0 < GameService.totalWeight SampleDraw.cancelling_segments /\
  Js.rem (GameService.digest_num (H := SampleDraw.crypto) "5eed"
            1730000000000)
         (GameService.totalWeight SampleDraw.cancelling_segments) = None /\
  GameService.deterministicSpinIndex (H := SampleDraw.crypto) "5eed"
    1730000000000 SampleDraw.cancelling_segments = 1.
Proof. evaluate. Qed.

(** ** Commit and reveal *)

Section reveal.
Import GameService.
Context `{Crypto}.

(** [startWheel] either leaves the store, the seeds and the messages as
    they are, or commits the payout of a waiting wheel together with its
    seed and then throws the [ReferenceError]. *)
Lemma startWheel_cases wheelId now rt :
  (st (startWheel wheelId now rt).1 = st rt /\
   wheelSeeds (startWheel wheelId now rt).1 = wheelSeeds rt /\
   emitted (startWheel wheelId now rt).1 = emitted rt /\
   (startWheel wheelId now rt).2 <> ReferenceError) \/
  (exists w seed,
     (startWheel wheelId now rt).2 = ReferenceError /\
     wheels (st rt) !! wheelId = Some w /\
     status w = "waiting"%string /\
     wheelSeeds rt !! wheelId = Some seed /\
     wheels (st (startWheel wheelId now rt).1) =
       <[wheelId := finish seed w]> (wheels (st rt)) /\
     ledger (st (startWheel wheelId now rt).1) = ledger (st rt) /\
     wheel_seq (st (startWheel wheelId now rt).1) = wheel_seq (st rt) /\
     wheelSeeds (startWheel wheelId now rt).1 = wheelSeeds rt /\
     emitted (startWheel wheelId now rt).1 = emitted rt).
Proof.
  unfold startWheel.
  case_bool_decide; [by left|].
  destruct (wheels (st rt) !! wheelId) as [w|] eqn:Hw; [|by left].
  destruct (String.eqb (status w) "waiting") eqn:Hst; simpl; [|by left].
  apply String.eqb_eq in Hst.
  destruct (wheelSeeds rt !! wheelId) as [seed|] eqn:Hseed; [|by left].
  destruct (String.eqb seed ""); [by left|].
  match goal with
  | |- context [match ?x with Some _ => _ | None => _ end] =>
    destruct x as [winnerJoin|]; [|by left]
  end.
  destruct (users (st rt) !! userId winnerJoin) as [bal|]; [|by left].
  right. exists w, seed. simpl. repeat split; try done.
  apply map_eq. intros k. destruct (decide (k = wheelId)) as [->|Hne].
  - by rewrite lookup_alter_eq, lookup_insert_eq, Hw.
  - by rewrite lookup_alter_ne, lookup_insert_ne.
Qed.

Lemma seed_inv_boot us : seed_inv (boot (fresh_store us)).
Proof.
  unfold seed_inv, boot, fresh_store. simpl. split; [|split; [|split]].
  - intros id w Hw. by rewrite lookup_empty in Hw.
  - intros id w0 Hin. by apply elem_of_nil in Hin.
  - intros id s Hs. by rewrite lookup_empty in Hs.
  - intros e Hin. by apply elem_of_nil in Hin.
Qed.

Lemma seed_inv_create seed hostId title segments entryFee maxPlayers rt :
  seed_inv rt ->
  seed_inv
    (on_wheel_create seed hostId title segments entryFee maxPlayers rt).1.
Proof.
  intros (Hrows & Hev & Hmem & Hmsg).
  unfold seed_inv, on_wheel_create, createWheel. simpl.
  set (id := wheel_seq (st rt)).
  assert (Hfresh : wheels (st rt) !! id = None).
  { destruct (wheels (st rt) !! id) as [w|] eqn:Hw; [|done].
    destruct (Hrows id w Hw) as [Hlt _]. subst id. lia. }
  split; [|split; [|split]].
  - intros k w Hk. destruct (decide (k = id)) as [->|Hne].
    + rewrite lookup_insert_eq in Hk. injection Hk as <-. simpl.
      split; [lia|]. split; [done|].
      eexists. split; [apply elem_of_app; right; apply list_elem_of_here|].
      done.
    + rewrite lookup_insert_ne in Hk by done.
      destruct (Hrows k w Hk) as (Hlt & Hseed & w0 & Hin & Hh).
      split; [lia|]. split; [done|].
      exists w0. split; [apply elem_of_app; by left|done].
  - intros k w0 Hin. apply elem_of_app in Hin as [Hin|Hin].
    + destruct (Hev k w0 Hin) as (w & Hw & Hh).
      exists w. split; [|done].
      rewrite lookup_insert_ne; [done|]. intros ->. congruence.
    + apply list_elem_of_singleton in Hin. injection Hin as -> ->.
      eexists. split; [apply lookup_insert_eq|done].
  - intros k s Hk. destruct (decide (k = id)) as [->|Hne].
    + rewrite lookup_insert_eq in Hk. injection Hk as <-.
      eexists. split; [apply lookup_insert_eq|done].
    + rewrite lookup_insert_ne in Hk by done.
      destruct (Hmem k s Hk) as (w & Hw & Hh).
      exists w. by rewrite lookup_insert_ne.
  - intros e Hin. apply elem_of_app in Hin as [Hin|Hin]; [by apply Hmsg|].
    apply list_elem_of_singleton in Hin. by subst e.
Qed.

Lemma seed_inv_join charged userId wheelId rt :
  seed_inv rt -> seed_inv (on_wheel_join charged userId wheelId rt).1.
Proof.
  intros Hinv. unfold on_wheel_join.
  destruct (wheels (st rt) !! wheelId) as [wj|]; [|done].
  destruct (negb charged); [done|].
  destruct Hinv as (Hrows & Hev & Hmem & Hmsg).
  unfold seed_inv. simpl. split; [|split; [|split]].
  - intros k w Hk. destruct (Hrows k w Hk) as (Hlt & Hseed & w0 & Hin & Hh).
    split; [done|]. split; [done|].
    exists w0. split; [apply elem_of_app; by left|done].
  - intros k w0 Hin. apply elem_of_app in Hin as [Hin|Hin]; [by apply Hev|].
    by apply list_elem_of_singleton in Hin.
  - done.
  - intros e Hin. apply elem_of_app in Hin as [Hin|Hin]; [by apply Hmsg|].
    apply list_elem_of_singleton in Hin. by subst e.
Qed.

Lemma seed_inv_start wheelId now rt :
  seed_inv rt -> seed_inv (startWheel wheelId now rt).1.
Proof.
  intros (Hrows & Hev & Hmem & Hmsg).
  destruct (startWheel_cases wheelId now rt)
    as [(Hst & Hseeds & Hem & _)|
        (w & seed & _ & Hw & Hwait & Hseed & Hws & _ & Hseq & Hseeds & Hem)];
    unfold seed_inv; rewrite ?Hst, ?Hseeds, ?Hem, ?Hws, ?Hseq; [done|].
  destruct (Hmem wheelId seed Hseed) as (w' & Hw' & Hhash).
  rewrite Hw in Hw'. injection Hw' as <-.
  split; [|split; [|split]]; [| | |done].
  - intros k wk Hk. destruct (decide (k = wheelId)) as [->|Hne].
    + rewrite lookup_insert_eq in Hk. injection Hk as <-. simpl.
      destruct (Hrows wheelId w Hw) as (Hlt & _ & Hann).
      split; [done|]. split; [|done].
      intros s Hs. injection Hs as <-. done.
    + rewrite lookup_insert_ne in Hk by done. by apply Hrows.
  - intros k w0 Hin. destruct (Hev k w0 Hin) as (wk & Hk & Hh).
    destruct (decide (k = wheelId)) as [->|Hne].
    + rewrite Hw in Hk. injection Hk as <-.
      eexists. split; [apply lookup_insert_eq|done].
    + exists wk. by rewrite lookup_insert_ne.
  - intros k s Hk. destruct (Hmem k s Hk) as (wk & Hwk & Hh).
    destruct (decide (k = wheelId)) as [->|Hne].
    + rewrite Hw in Hwk. injection Hwk as <-.
      eexists. split; [apply lookup_insert_eq|done].
    + exists wk. by rewrite lookup_insert_ne.
Qed.

Lemma seed_inv_handle rt r : seed_inv rt -> seed_inv (handle rt r).
Proof.
  destruct r; simpl.
  - apply seed_inv_create.
  - apply seed_inv_join.
  - apply seed_inv_start.
  - done.
Qed.

Lemma seed_inv_serve rt l : seed_inv rt -> seed_inv (serve rt l).
Proof.
  revert rt. induction l as [|r l IH]; intros rt Hinv; [done|].
  simpl. apply IH. by apply seed_inv_handle.
Qed.

(** C5.  In every state that the server reaches from a store without
    wheels, for every wheel: the commitment in its row is the one that was
    announced in the [wheel:created] message for its id, and that message
    held no seed; the row holds a seed only when the wheel is finished, and
    that seed hashes to the commitment; no message sent so far discloses a
    seed; the seed kept in memory hashes to the commitment; and when
    [startWheel] commits the payout, the wheel it leaves is finished and
    holds the seed kept in memory, which hashes to the commitment. *)
Theorem commit_reveal_roundtrip us reqs id w :
  wheels (st (serve (boot (fresh_store us)) reqs)) !! id = Some w ->
  (exists w0,
     wheel_created id w0 ∈ emitted (serve (boot (fresh_store us)) reqs) /\
     serverSeedHash w0 = serverSeedHash w /\ serverSeed w0 = None) /\
  (forall s, serverSeed w = Some s ->
     status w = "finished"%string /\ sha256_hex s = serverSeedHash w) /\
  (forall e, e ∈ emitted (serve (boot (fresh_store us)) reqs) ->
     event_seed e = None) /\
  (forall s, wheelSeeds (serve (boot (fresh_store us)) reqs) !! id = Some s ->
     sha256_hex s = serverSeedHash w) /\
  (forall now,
     (startWheel id now (serve (boot (fresh_store us)) reqs)).2
       = ReferenceError ->
     exists s w',
       wheels (st (startWheel id now
                     (serve (boot (fresh_store us)) reqs)).1) !! id
         = Some w' /\
       status w' = "finished"%string /\ serverSeed w' = Some s /\
       serverSeedHash w' = serverSeedHash w /\
       sha256_hex s = serverSeedHash w).
Proof.
  set (rt := serve (boot (fresh_store us)) reqs). intros Hw.
  destruct (seed_inv_serve _ reqs (seed_inv_boot us))
    as (Hrows & Hev & Hmem & Hmsg). fold rt in Hrows, Hev, Hmem, Hmsg.
  destruct (Hrows id w Hw) as (_ & Hseed & w0 & Hin & Hh).
  split; [|split; [|split; [|split]]].
  - exists w0. split; [done|]. split; [done|]. apply (Hmsg _ Hin).
  - exact Hseed.
  - exact Hmsg.
  - intros s Hs. destruct (Hmem id s Hs) as (w' & Hw' & Hhash). congruence.
  - intros now Hthrown.
    destruct (startWheel_cases id now rt)
      as [(_ & _ & _ & Hne)|(w1 & seed & _ & Hw1 & _ & Hs & Hws & _)];
      [done|].
    rewrite Hw in Hw1. injection Hw1 as <-.
    destruct (Hmem id seed Hs) as (w' & Hw' & Hhash).
    rewrite Hw in Hw'. injection Hw' as <-.
    exists seed, (finish seed w). rewrite Hws, lookup_insert_eq. done.
Qed.

End reveal.

(** Wheel 1 after it was created with the seed ["5eed"], joined by user 7
    and started: the row holds the seed, is finished, and the seed hashes
    to the commitment that was announced. *)
Lemma commit_reveal_roundtrip_witness :
  GameService.wheels
    (GameService.st
       (GameService.serve (H := SampleDraw.crypto)
          (GameService.boot SampleDraw.store0) SampleDraw.requests)) !! 1
    = Some SampleDraw.revealed /\
  GameService.emitted
    (GameService.serve (H := SampleDraw.crypto)
       (GameService.boot SampleDraw.store0) SampleDraw.requests)
    = [GameService.wheel_created 1 SampleDraw.announced;
       GameService.wheel_player_joined 1 7] /\
  SampleDraw.after_start.2 = GameService.ReferenceError /\
  (exists w0,
     GameService.wheel_created 1 w0 ∈
       GameService.emitted
         (GameService.serve (H := SampleDraw.crypto)
            (GameService.boot SampleDraw.store0) SampleDraw.requests) /\
     GameService.serverSeedHash w0
       = GameService.serverSeedHash SampleDraw.revealed /\
     GameService.serverSeed w0 = None) /\
  (forall s,
     GameService.serverSeed SampleDraw.revealed = Some s ->
     GameService.status SampleDraw.revealed = "finished"%string /\
     sha256_hex (Crypto := SampleDraw.crypto) s
       = GameService.serverSeedHash SampleDraw.revealed).
Proof.
  assert (Hrow :
    GameService.wheels
      (GameService.st
         (GameService.serve (H := SampleDraw.crypto)
            (GameService.boot SampleDraw.store0) SampleDraw.requests)) !! 1
    = Some SampleDraw.revealed) by (vm_compute; reflexivity).
  destruct (commit_reveal_roundtrip (H := SampleDraw.crypto)
              (<[7 := 500]> (<[8 := 500]> ∅)) SampleDraw.requests 1
              SampleDraw.revealed Hrow) as (Hann & Hseed & _).
  split; [exact Hrow|].
  split; [vm_compute; reflexivity|].
  split; [vm_compute; reflexivity|].
  split; [exact Hann|exact Hseed].
Defined.

(** ** The elimination loop in general *)

Lemma users_exist_row d p :
  users_exist d -> p ∈ spin_participants d ->
  is_Some (users d !! user_id p).
Proof.
  unfold users_exist. rewrite Forall_forall. intros Hus Hp. by apply Hus.
Qed.

Lemma chain_ok_row c d cand p :
  chain_ok c d -> cand ∈ c_participants c -> p ∈ spin_participants d ->
  p_id p = cand.1 -> wheel_id p = c_wheel c /\ user_id p = cand.2.
Proof.
  unfold chain_ok. rewrite Forall_forall. intros Hch Hc Hp.
  specialize (Hch cand Hc). rewrite Forall_forall in Hch. by apply Hch.
Qed.

Lemma elem_of_active_of p wid d :
  p ∈ active_of wid d <->
  p ∈ spin_participants d /\ wheel_id p = wid /\ eliminated p = false.
Proof.
  unfold active_of, participants_of. rewrite !list_elem_of_filter. tauto.
Qed.

Lemma still_active_row pid d :
  still_active pid d = true ->
  exists p, p ∈ spin_participants d /\ p_id p = pid /\ eliminated p = false.
Proof.
  unfold still_active. rewrite existsb_exists. intros (p & Hin & Hp).
  apply andb_true_iff in Hp as [Hid He]. apply Z.eqb_eq in Hid.
  apply negb_true_iff in He. exists p.
  split; [by apply list_elem_of_In|done].
Qed.

Lemma next_candidate_found d rest idx cand idx' :
  next_candidate d rest idx = (Some cand, idx') ->
  cand ∈ rest /\ still_active cand.1 d = true.
Proof.
  revert idx. induction rest as [|c rest IH]; intros idx; simpl;
    [discriminate|].
  destruct (still_active c.1 d) eqn:Hc.
  - intros [= <- _]. split; [apply list_elem_of_here|done].
  - intros Hn. destruct (IH _ Hn) as [Hin Hact].
    split; [by apply list_elem_of_further|done].
Qed.

(** A tick on a wheel with at least two active participants marks one of
    them eliminated, announces it and sets the next timer. *)
Lemma eliminateOne_step c d :
  chain_ok c d -> users_exist d ->
  (2 <= length (active_of (c_wheel c) d))%nat ->
  exists p u idx,
    p ∈ active_of (c_wheel c) d /\ users d !! user_id p = Some u /\
    eliminateOne c d =
    (mark_eliminated (c_wheel c) (p_id p) d,
     [userEliminated (c_wheel c) (user_id p) (username u)],
     [EliminateTimer {| c_wheel := c_wheel c;
                        c_participants := c_participants c;
                        c_idx := idx |}]).
Proof.
  intros Hch Hus Hlen. unfold eliminateOne.
  destruct (active_of (c_wheel c) d) as [|cand2 [|x rest]] eqn:Hact;
    simpl in Hlen; [lia|lia|].
  destruct (next_candidate d (drop (c_idx c) (c_participants c)) (c_idx c))
    as [found idx] eqn:Hnext.
  assert (exists p, p ∈ active_of (c_wheel c) d /\
            match found with
            | Some cand => cand
            | None => (p_id cand2, user_id cand2)
            end = (p_id p, user_id p)) as (p & Hp & Heq).
  { destruct found as [cand|].
    - destruct (next_candidate_found _ _ _ _ _ Hnext) as [Hin Hstill].
      destruct (still_active_row _ _ Hstill) as (p & Hrow & Hid & He).
      assert (cand ∈ c_participants c) as Hc.
      { rewrite <- (take_drop (c_idx c) (c_participants c)).
        apply elem_of_app. by right. }
      destruct (chain_ok_row _ _ _ _ Hch Hc Hrow Hid) as [Hw Hu].
      exists p. split; [by apply elem_of_active_of|].
      destruct cand as [pid uid]. simpl in *. by subst.
    - exists cand2. split; [|done]. rewrite Hact. apply list_elem_of_here. }
  rewrite Heq. simpl.
  apply elem_of_active_of in Hp as Hp'. destruct Hp' as (Hrow & _ & _).
  destruct (users_exist_row _ _ Hus Hrow) as [u Hu].
  exists p, u, idx. rewrite <- Hact. split; [done|]. split; [done|].
  unfold mark_eliminated at 1. simpl. by rewrite Hu.
Qed.

Lemma unique_row (l : list participant) p q :
  NoDup (p_id <$> l) -> p ∈ l -> q ∈ l -> p_id p = p_id q -> p = q.
Proof.
  induction l as [|x l IH]; csimpl; intros Hnd Hp Hq Hid.
  - by apply elem_of_nil in Hp.
  - apply NoDup_cons in Hnd as [Hx Hnd].
    apply elem_of_cons in Hp as [->|Hp]; apply elem_of_cons in Hq as [->|Hq].
    + done.
    + destruct Hx. rewrite Hid. apply list_elem_of_fmap. by exists q.
    + destruct Hx. rewrite <- Hid. apply list_elem_of_fmap. by exists p.
    + by apply IH.
Qed.

Lemma mark_other_rows n pid (l : list participant) :
  pid ∉ p_id <$> l ->
  (fun q => if p_id q =? pid then mark n q else q) <$> l = l.
Proof.
  induction l as [|x l IH]; csimpl; intros Hnot; [done|].
  apply not_elem_of_cons in Hnot as [Hx Hl].
  destruct (p_id x =? pid) eqn:Hid; [apply Z.eqb_eq in Hid; congruence|].
  by rewrite IH.
Qed.

Lemma Forall2_same_rows (R : participant -> participant -> Prop) l :
  (forall p, R p p) -> Forall2 R l l.
Proof. intros HR. induction l; by constructor. Qed.

(** Marking the active row [p] changes that row and no other. *)
Lemma mark_eliminated_marks wid n (l : list participant) p :
  NoDup (p_id <$> l) -> p ∈ l -> wheel_id p = wid -> eliminated p = false ->
  Forall2 (fun q q' => q' = q \/
             (wheel_id q = wid /\ eliminated q = false /\ q' = mark n q))
          l ((fun q => if p_id q =? p_id p then mark n q else q) <$> l) /\
  length (filter (fun q => eliminated q = false)
            (filter (fun q => wheel_id q = wid)
               ((fun q => if p_id q =? p_id p then mark n q else q) <$> l)))
  = pred (length (filter (fun q => eliminated q = false)
                    (filter (fun q => wheel_id q = wid) l))) /\
  length (filter (fun q => wheel_id q = wid)
            ((fun q => if p_id q =? p_id p then mark n q else q) <$> l))
  = length (filter (fun q => wheel_id q = wid) l).
Proof.
  induction l as [|x l IH]; csimpl; intros Hnd Hp Hw He.
  - by apply elem_of_nil in Hp.
  - apply NoDup_cons in Hnd as [Hx Hnd].
    destruct (p_id x =? p_id p) eqn:Hid.
    + apply Z.eqb_eq in Hid.
      assert (x = p) as ->.
      { apply (unique_row (x :: l)); [|apply list_elem_of_here|done|done].
        csimpl. by apply NoDup_cons. }
      rewrite mark_other_rows by done.
      assert (wheel_id (mark n p) = wid) by done.
      assert (eliminated (mark n p) <> false) by done.
      split; [|split].
      * constructor; [by right|]. apply Forall2_same_rows. by left.
      * by filter_head.
      * by filter_head.
    + apply elem_of_cons in Hp as [->|Hp];
        [by rewrite Z.eqb_refl in Hid|].
      destruct (IH Hnd Hp Hw He) as (HF & Hlen & Hcnt).
      assert (p ∈ filter (fun q => eliminated q = false)
                  (filter (fun q => wheel_id q = wid) l)) as Hin
        by (by rewrite !list_elem_of_filter).
      split; [|split].
      * constructor; [by left|done].
      * destruct (decide (wheel_id x = wid));
          destruct (decide (eliminated x = false)); filter_head;
          try done.
        simpl. rewrite Hlen.
        destruct (filter _ (filter _ l)); [|done].
        by apply elem_of_nil in Hin.
      * destruct (decide (wheel_id x = wid)); filter_head; [|done].
        simpl. by rewrite Hcnt.
Qed.

Lemma marks_only_refl wid n d : marks_only wid n d d.
Proof.
  repeat split; try done. apply Forall2_same_rows. by left.
Qed.

Lemma marks_only_trans wid n d1 d2 d3 :
  marks_only wid n d1 d2 -> marks_only wid n d2 d3 -> marks_only wid n d1 d3.
Proof.
  intros (Hu1 & Hw1 & Ht1 & HF1) (Hu2 & Hw2 & Ht2 & HF2).
  repeat split; try congruence.
  revert HF2. generalize (spin_participants d3).
  induction HF1 as [|p q l1 l2 Hpq _ IH]; intros l3 HF2;
    inversion HF2 as [|q' r l2' l3' Hqr HF2']; subst; constructor.
  - destruct Hpq as [->|(Hw & He & ->)]; [done|].
    destruct Hqr as [->|(_ & Hm & _)]; [by right|done].
  - by apply IH.
Qed.

(** What one mark preserves and changes. *)
Lemma mark_eliminated_step wid p d :
  ids_unique d -> p ∈ active_of wid d ->
  marks_only wid (count_participants wid d) d
             (mark_eliminated wid (p_id p) d) /\
  length (active_of wid (mark_eliminated wid (p_id p) d)) =
    pred (length (active_of wid d)) /\
  count_participants wid (mark_eliminated wid (p_id p) d) =
    count_participants wid d.
Proof.
  intros Hnd Hp. apply elem_of_active_of in Hp as (Hrow & Hw & He).
  destruct (mark_eliminated_marks wid (count_participants wid d)
              (spin_participants d) p Hnd Hrow Hw He) as (HF & Hlen & Hcnt).
  split; [by repeat split|]. split; [exact Hlen|].
  unfold count_participants, participants_of, mark_eliminated. simpl.
  by rewrite Hcnt.
Qed.

Lemma marks_only_keys wid n d dn :
  marks_only wid n d dn ->
  (fun p => (p_id p, wheel_id p, user_id p)) <$> spin_participants dn =
  (fun p => (p_id p, wheel_id p, user_id p)) <$> spin_participants d.
Proof.
  intros (_ & _ & _ & HF).
  induction HF as [|p q l1 l2 Hpq _ IH]; csimpl; [done|].
  rewrite IH. by destruct Hpq as [->|(_ & _ & ->)].
Qed.

Lemma marks_only_invariants wid n c d dn :
  marks_only wid n d dn ->
  ids_unique d -> users_exist d -> chain_ok c d ->
  ids_unique dn /\ users_exist dn /\ chain_ok c dn /\
  count_participants wid dn = count_participants wid d.
Proof.
  intros Hm Hnd Hus Hch. pose proof (marks_only_keys _ _ _ _ Hm) as Hkeys.
  destruct Hm as (Hu & _ & _ & HF).
  assert (Hrow : forall q, q ∈ spin_participants dn ->
            exists p, p ∈ spin_participants d /\ p_id p = p_id q /\
              wheel_id p = wheel_id q /\ user_id p = user_id q).
  { intros q Hq.
    assert ((p_id q, wheel_id q, user_id q) ∈
            (fun p => (p_id p, wheel_id p, user_id p))
              <$> spin_participants d) as Hin.
    { rewrite <- Hkeys. apply list_elem_of_fmap. by exists q. }
    apply list_elem_of_fmap in Hin as (p & Heq & Hp).
    injection Heq as ? ? ?. by exists p. }
  split; [|split; [|split]].
  - unfold ids_unique in *.
    replace (p_id <$> spin_participants dn)
      with (p_id <$> spin_participants d); [done|].
    apply (f_equal (fmap (fun k : Z * Z * Z => k.1.1))) in Hkeys.
    by rewrite <- !list_fmap_compose in Hkeys.
  - apply Forall_forall. intros q Hq.
    destruct (Hrow q Hq) as (p & Hp & _ & _ & Huid).
    rewrite Hu, <- Huid. by apply users_exist_row.
  - apply Forall_forall. intros cand Hc. apply Forall_forall. intros q Hq Hid.
    destruct (Hrow q Hq) as (p & Hp & Hpid & Hw & Huid).
    rewrite <- Hw, <- Huid. apply (chain_ok_row c d cand p Hch Hc Hp).
    congruence.
  - unfold count_participants, participants_of. f_equal.
    apply (f_equal (fmap (fun k : Z * Z * Z => k.1.2))) in Hkeys.
    rewrite <- !list_fmap_compose in Hkeys.
    assert (forall l : list participant,
              length (filter (fun p => wheel_id p = wid) l) =
              length (filter (fun w => w = wid) (wheel_id <$> l))) as Hlen.
    { induction l as [|x l IH]; csimpl; [done|].
      destruct (decide (wheel_id x = wid)).
      - rewrite !filter_cons_True by done. simpl. by rewrite IH.
      - by rewrite !filter_cons_False by done. }
    rewrite !Hlen. by setoid_rewrite Hkeys.
Qed.

Lemma marks_only_order wid n d dn q :
  marks_only wid n d dn -> q ∈ spin_participants dn ->
  q ∈ spin_participants d \/
  (eliminated q = true /\ eliminated_order q = Some n /\ wheel_id q = wid).
Proof.
  intros (_ & _ & _ & HF). induction HF as [|p q' l1 l2 Hpq _ IH];
    intros Hq; [by apply elem_of_nil in Hq|].
  apply elem_of_cons in Hq as [->|Hq].
  - destruct Hpq as [->|(Hw & _ & ->)]; [left; apply list_elem_of_here|].
    by right.
  - destruct (IH Hq) as [Hin|Hm]; [left; by apply list_elem_of_further|].
    by right.
Qed.

Lemma run_timers_idle shuffle fuel d : run_timers shuffle fuel [] d = (d, []).
Proof. by destruct fuel. Qed.

Lemma finalizeWinner_ledger wheelId winner d w :
  spin_wheels d !! wheelId = Some w ->
  is_Some (users d !! winner) -> is_Some (users d !! owner_id w) ->
  ledger_step d (finalizeWinner wheelId winner d).1
              (payout_records wheelId winner w) /\
  spin_wheels (finalizeWinner wheelId winner d).1 !! wheelId =
    Some (with_status Finished w) /\
  (finalizeWinner wheelId winner d).2 = [wheelFinished wheelId winner].
Proof.
  intros Hw Hwin Hown.
  rewrite (finalizeWinner_ok wheelId winner d w Hw Hwin Hown).
  split; [|split; [|done]].
  - apply ledger_step_set_status, ledger_step_paid_out.
  - simpl. destruct (paid_out_frame wheelId winner w d) as (-> & _).
    by rewrite lookup_alter_eq, Hw.
Qed.

(** The loop on a wheel with [S n] active participants: after [n] ticks
    that each mark one active row, with the number of rows of the wheel as
    its order, one row [r] is left, and the next tick finalises with its
    user as the winner.  More fuel changes nothing: no timer is left. *)
Lemma elimination_loop shuffle n : forall c d k,
  ids_unique d -> users_exist d -> chain_ok c d ->
  length (active_of (c_wheel c) d) = S n ->
  exists dn r,
    marks_only (c_wheel c) (count_participants (c_wheel c) d) d dn /\
    active_of (c_wheel c) dn = [r] /\
    (run_timers shuffle (S n + k) [EliminateTimer c] d).1 =
    (finalizeWinner (c_wheel c) (user_id r) dn).1.
Proof.
  induction n as [|n IH]; intros c d k Hnd Hus Hch Hlen.
  - destruct (active_of (c_wheel c) d) as [|r [|]] eqn:Hact; try done.
    exists d, r. split; [apply marks_only_refl|]. split; [done|].
    simpl. unfold eliminateOne. rewrite Hact.
    destruct (finalizeWinner (c_wheel c) (user_id r) d) as [d' ev].
    simpl. by rewrite run_timers_idle.
  - destruct (eliminateOne_step c d Hch Hus) as (p & u & idx & Hp & Hu & Hstep);
      [lia|].
    destruct (mark_eliminated_step (c_wheel c) p d Hnd Hp)
      as (Hm & Hlen' & Hcnt).
    set (d1 := mark_eliminated (c_wheel c) (p_id p) d) in *.
    set (c1 := {| c_wheel := c_wheel c; c_participants := c_participants c;
                  c_idx := idx |}) in *.
    destruct (marks_only_invariants _ _ c _ _ Hm Hnd Hus Hch)
      as (Hnd1 & Hus1 & Hch1 & _).
    destruct (IH c1 d1 k Hnd1 Hus1 Hch1) as (dn & r & Hmn & Hact & Hrun).
    { simpl. rewrite Hlen', Hlen. done. }
    change (c_wheel c1) with (c_wheel c) in *. rewrite Hcnt in Hmn.
    exists dn, r. split; [by eapply marks_only_trans|]. split; [done|].
    change (S (S n) + k)%nat with (S (S n + k)).
    cbn [run_timers fire]. rewrite Hstep. cbn [app].
    destruct (run_timers shuffle (S n + k) [EliminateTimer c1] d1)
      as [d'' ev'] eqn:Hrt.
    exact Hrun.
Qed.

(** The elimination loop, for any number of participants.  On a wheel with
    [S n] active participants, with the tables as the schema keeps them and
    a loop whose array holds rows of the wheel, the timers run the wheel to
    its end: one of the participants active at the start, [r], is the only
    one left active; the wheel is finished; the ledger moved by the payout
    records for [r] and the owner, so [r] is credited the whole winner pool;
    and every row that the loop has marked carries the same
    [eliminated_order], the number of rows of the wheel. *)
Theorem elimination_to_winner shuffle c d w n k :
  ids_unique d -> users_exist d -> chain_ok c d ->
  spin_wheels d !! c_wheel c = Some w ->
  is_Some (users d !! owner_id w) ->
  length (active_of (c_wheel c) d) = S n ->
  exists r,
    r ∈ active_of (c_wheel c) d /\
    active_of (c_wheel c)
      (run_timers shuffle (S n + k) [EliminateTimer c] d).1 = [r] /\
    ledger_step d (run_timers shuffle (S n + k) [EliminateTimer c] d).1
      (payout_records (c_wheel c) (user_id r) w) /\
    spin_wheels (run_timers shuffle (S n + k) [EliminateTimer c] d).1
      !! c_wheel c = Some (with_status Finished w) /\
    forall q,
      q ∈ spin_participants
            (run_timers shuffle (S n + k) [EliminateTimer c] d).1 ->
      q ∈ spin_participants d \/
      (eliminated q = true /\
       eliminated_order q = Some (count_participants (c_wheel c) d) /\
       wheel_id q = c_wheel c).
Proof.
  intros Hnd Hus Hch Hw Hown Hlen.
  destruct (elimination_loop shuffle n c d k Hnd Hus Hch Hlen)
    as (dn & r & Hm & Hact & ->).
  pose proof Hm as (Hu & Hws & Ht & _).
  assert (Hwn : spin_wheels dn !! c_wheel c = Some w) by (by rewrite Hws).
  assert (Hr : r ∈ active_of (c_wheel c) dn)
    by (rewrite Hact; apply list_elem_of_here).
  apply elem_of_active_of in Hr as (Hrow & Hrw & Hre).
  destruct (marks_only_invariants _ _ c _ _ Hm Hnd Hus Hch)
    as (_ & Husn & _ & _).
  destruct (finalizeWinner_ledger (c_wheel c) (user_id r) dn w Hwn)
    as ([Htx Hbal] & Hfin & _);
    [by apply users_exist_row|by rewrite Hu|].
  pose proof (finalizeWinner_participants (c_wheel c) (user_id r) dn) as Hps.
  exists r. split; [|split; [|split; [|split]]].
  - apply elem_of_active_of.
    destruct (marks_only_order _ _ _ _ _ Hm Hrow) as [Hin|(He & _)];
      [done|congruence].
  - unfold active_of, participants_of in *. by rewrite Hps.
  - split; [by rewrite Htx, Ht|].
    intros uid. rewrite Hbal. unfold balance. by rewrite Hu.
  - exact Hfin.
  - intros q Hq. rewrite Hps in Hq. by eapply marks_only_order.
Qed.

(** The tables of the sample satisfy what the theorem asks for, and the
    loop started on three participants ends as it says. *)
Example elimination_to_winner_sample :
  exists r,
    r ∈ active_of 1 Sample.started_db /\
    active_of 1
      (run_timers (fun l => l) 3 [EliminateTimer Sample.started_chain]
                  Sample.started_db).1 = [r] /\
    spin_wheels
      (run_timers (fun l => l) 3 [EliminateTimer Sample.started_chain]
                  Sample.started_db).1 !! 1
    = Some (with_status Finished
              (with_status Active (add_pools 210 60 30 (new_wheel 1 100)))).
Proof.
  destruct (elimination_to_winner (fun l => l) Sample.started_chain
              Sample.started_db
              (with_status Active (add_pools 210 60 30 (new_wheel 1 100)))
              2 0) as (r & Hr & Hact & _ & Hw & _).
  - apply (bool_decide_unpack _). by vm_compute.
  - apply (bool_decide_unpack _). by vm_compute.
  - apply (bool_decide_unpack _). by vm_compute.
  - vm_compute. reflexivity.
  - vm_compute. by eexists.
  - vm_compute. reflexivity.
  - exists r. split; [exact Hr|]. split; [exact Hact|exact Hw].
Qed.

(** ** The pool invariant in every reachable state *)

Lemma count_participants_ids wid d :
  count_participants wid d =
  Z.of_nat (length (filter (fun w => w = wid)
                           (wheel_id <$> spin_participants d))).
Proof.
  unfold count_participants, participants_of. f_equal.
  induction (spin_participants d) as [|x l IH]; csimpl; [done|].
  destruct (decide (wheel_id x = wid)); filter_head; [|done].
  simpl. by rewrite IH.
Qed.

Lemma same_up_to_status_refl d : same_up_to_status d d.
Proof. done. Qed.

Lemma same_up_to_status_trans d1 d2 d3 :
  same_up_to_status d1 d2 -> same_up_to_status d2 d3 ->
  same_up_to_status d1 d3.
Proof.
  intros (Hs1 & Hr1 & Hw1) (Hs2 & Hr2 & Hw2).
  split; [congruence|]. split; [congruence|].
  intros id. by rewrite Hw2, Hw1.
Qed.

Lemma same_up_to_status_set_status wid s d :
  same_up_to_status d (set_status wid s d).
Proof.
  split; [done|]. split; [done|]. intros id. simpl.
  destruct (decide (id = wid)) as [->|Hne].
  - rewrite lookup_alter_eq. by destruct (spin_wheels d !! wid).
  - by rewrite lookup_alter_ne.
Qed.

Lemma same_up_to_status_frame d d' :
  wheel_seq d' = wheel_seq d -> spin_wheels d' = spin_wheels d ->
  spin_participants d' = spin_participants d ->
  same_up_to_status d d'.
Proof. intros Hs Hw Hp. split; [done|]. split; by rewrite ?Hp, ?Hw. Qed.

Lemma same_up_to_status_refundWheel wid reason d :
  same_up_to_status d (refundWheel wid reason d).
Proof.
  destruct (refundWheel_cases wid reason d) as [->|(w & _ & ->)];
    [apply same_up_to_status_refl|].
  eapply same_up_to_status_trans; [|apply same_up_to_status_set_status].
  destruct (refunded_frame wid reason (refund_amount w) (participants_of wid d) d)
    as (Hw & Hp & _ & Hs).
  by apply same_up_to_status_frame.
Qed.

Lemma same_up_to_status_finalizeWinner wid winner d :
  same_up_to_status d (finalizeWinner wid winner d).1.
Proof.
  destruct (finalizeWinner_cases wid winner d) as [->|(w & _ & ->)];
    [apply same_up_to_status_refl|].
  eapply same_up_to_status_trans; [|apply same_up_to_status_set_status].
  destruct (paid_out_frame wid winner w d) as (Hw & Hp & Hs).
  by apply same_up_to_status_frame.
Qed.

Lemma same_up_to_status_mark wid pid d :
  same_up_to_status d (mark_eliminated wid pid d).
Proof.
  split; [done|]. split; [|done]. unfold mark_eliminated. simpl.
  rewrite <- list_fmap_compose. apply list_fmap_ext.
  intros i p _. simpl. by destruct (p_id p =? pid).
Qed.

Lemma same_up_to_status_eliminateOne c d :
  same_up_to_status d (eliminateOne c d).1.1.
Proof.
  unfold eliminateOne.
  destruct (active_of (c_wheel c) d) as [|r [|r' rs]].
  - apply same_up_to_status_set_status.
  - pose proof (same_up_to_status_finalizeWinner (c_wheel c) (user_id r) d).
    by destruct (finalizeWinner (c_wheel c) (user_id r) d).
  - destruct (next_candidate d _ _) as [found idx].
    match goal with
    | |- context [users (mark_eliminated ?w ?p d) !! ?k] =>
      destruct (users (mark_eliminated w p d) !! k)
    end; apply same_up_to_status_mark.
Qed.

Lemma pools_inv_same_up_to_status d d' :
  same_up_to_status d d' -> pools_inv d -> pools_inv d'.
Proof.
  intros (Hseq & Hrows & Hws) [Hpools Hfk].
  assert (Hcnt : forall id, count_participants id d' = count_participants id d)
    by (intros id; by rewrite !count_participants_ids, Hrows).
  split.
  - intros id w' Hw'. specialize (Hws id). rewrite Hw' in Hws.
    destruct (spin_wheels d !! id) as [w|] eqn:Hw; [|done].
    injection Hws as Ho Hf Hwp Hap Hpp Hmin.
    destruct (Hpools id w Hw) as [Hlt Hsum].
    split; [lia|].
    rewrite (fees_collected_count _ _ _ Hw'), Hcnt, Hf.
    rewrite (fees_collected_count _ _ _ Hw) in Hsum.
    unfold pool_total in *. lia.
  - intros p' Hp'.
    assert (wheel_id p' ∈ wheel_id <$> spin_participants d) as Hin.
    { rewrite <- Hrows. apply list_elem_of_fmap. by exists p'. }
    apply list_elem_of_fmap in Hin as (p & Heq & Hp).
    specialize (Hfk p Hp). rewrite <- Heq in Hfk.
    specialize (Hws (wheel_id p')).
    destruct (spin_wheels d' !! wheel_id p'); [done|].
    by destruct Hfk as [w Hw]; rewrite Hw in Hws.
Qed.

Lemma pools_inv_create d owner fee :
  pools_inv d -> pools_inv (post_wheels d owner fee).1.1.1.
Proof.
  intros [Hpools Hfk]. unfold post_wheels.
  destruct (users d !! owner) as [adm|]; [|done].
  destruct (negb (is_admin adm)); [done|].
  destruct (negb (bool_decide (live_wheels d = ∅))); [done|].
  destruct (fee_param _) as [f|]; [|done]. simpl.
  assert (Hfresh : spin_wheels d !! wheel_seq d = None).
  { destruct (spin_wheels d !! wheel_seq d) as [w|] eqn:Hw; [|done].
    destruct (Hpools _ _ Hw). lia. }
  assert (Hnone : participants_of (wheel_seq d) d = []).
  { unfold participants_of.
    destruct (filter _ (spin_participants d)) as [|p ps] eqn:Hf; [done|].
    assert (p ∈ filter (fun p => wheel_id p = wheel_seq d)
                       (spin_participants d)) as Hp
      by (rewrite Hf; apply list_elem_of_here).
    apply list_elem_of_filter in Hp as [Hw Hp].
    specialize (Hfk p Hp). rewrite Hw, Hfresh in Hfk. by destruct Hfk. }
  split.
  - intros id w. unfold insert_wheel. simpl.
    destruct (decide (id = wheel_seq d)) as [->|Hne].
    + rewrite lookup_insert_eq. intros [= <-]. split; [lia|].
      unfold fees_collected, participants_of in *. simpl. by rewrite Hnone.
    + rewrite lookup_insert_ne by done. intros Hw.
      destruct (Hpools id w Hw) as [Hlt Hsum]. split; [lia|].
      rewrite Hsum. unfold fees_collected, participants_of. simpl.
      by rewrite lookup_insert_ne.
  - intros p Hp. simpl in *.
    destruct (decide (wheel_id p = wheel_seq d)) as [->|Hne].
    + by rewrite lookup_insert_eq.
    + rewrite lookup_insert_ne by done. by apply Hfk.
Qed.

Lemma pools_inv_join d wid uid :
  safe_pools d -> pools_inv d -> pools_inv (join d wid uid).1.1.
Proof.
  intros Hsafe [Hpools Hfk].
  destruct (join_cases d wid uid) as [[ev Hj]|[e Hj]]; rewrite Hj;
    simpl; [|done].
  destruct (join_ok_inv _ _ _ _ _ Hj) as (w & u & Hw & _ & _ & _ & ->).
  destruct (split_exact _ _ (Hsafe _ _ Hw)) as (Hsw & Hsa & Hsp & _).
  split.
  - intros id w' Hw'.
    assert (wheel_seq (joined d wid uid w u) = wheel_seq d) as -> by done.
    assert (spin_wheels (joined d wid uid w u) =
            alter (add_pools
                     (entry_fee w * winner_pct (getConfigSplit d) / 100)
                     (entry_fee w * admin_pct (getConfigSplit d) / 100)
                     (entry_fee w
                      - entry_fee w * winner_pct (getConfigSplit d) / 100
                      - entry_fee w * admin_pct (getConfigSplit d) / 100))
                  wid (spin_wheels d)) as Hws
      by (unfold joined; simpl; by rewrite Hsw, Hsa, Hsp).
    rewrite (fees_collected_count _ _ _ Hw'), count_participants_joined.
    rewrite Hws in Hw'.
    destruct (decide (wid = id)) as [->|Hne].
    + rewrite lookup_alter_eq, Hw in Hw'. injection Hw' as <-.
      destruct (Hpools id w Hw) as [Hlt Hsum]. split; [done|].
      rewrite (fees_collected_count _ _ _ Hw) in Hsum.
      unfold pool_total in *. simpl. lia.
    + rewrite lookup_alter_ne in Hw' by done.
      destruct (Hpools id w' Hw') as [Hlt Hsum]. split; [done|].
      rewrite (fees_collected_count _ _ _ Hw') in Hsum. lia.
  - intros p Hp. unfold joined in *. simpl in *.
    apply elem_of_app in Hp as [Hp|Hp].
    + destruct (decide (wheel_id p = wid)) as [->|Hne].
      * rewrite lookup_alter_eq, Hw. by eexists.
      * rewrite lookup_alter_ne by done. by apply Hfk.
    + apply list_elem_of_singleton in Hp. subst p. simpl.
      rewrite lookup_alter_eq, Hw. by eexists.
Qed.

Lemma pools_inv_perform d a :
  safe_pools d -> pools_inv d -> pools_inv (perform d a).
Proof.
  intros Hsafe.
  destruct a as [owner fee|wj uj|sh wj owner|sh wj|c]; simpl.
  - apply pools_inv_create.
  - by apply pools_inv_join.
  - apply pools_inv_same_up_to_status. unfold post_wheels_start.
    destruct (start_checks d wj owner); [apply same_up_to_status_refl|].
    apply same_up_to_status_set_status.
  - apply pools_inv_same_up_to_status. unfold autoStartWheel.
    destruct (spin_wheels d !! wj) as [w|]; [|apply same_up_to_status_refl].
    destruct (negb (bool_decide (w_status w = Pending)));
      [apply same_up_to_status_refl|].
    destruct (count_participants wj d <? min_participants w).
    + apply same_up_to_status_refundWheel.
    + apply same_up_to_status_set_status.
  - apply pools_inv_same_up_to_status, same_up_to_status_eliminateOne.
Qed.

(** X7.  In every state that the backend reaches from a database without
    wheels, by requests and timers each of which finds only wheels whose
    fee is split without rounding (the fee, its products with the two
    percentages and what is left of it after each share are below 2^53 in
    magnitude), the three pools of every wheel add up to the entry fees of
    its participant rows. *)
Theorem pools_equal_fees_always us cfg l id w :
  throughout safe_pools (initial_db us cfg) l ->
  spin_wheels (run (initial_db us cfg) l) !! id = Some w ->
  pool_total w = fees_collected id (run (initial_db us cfg) l).
Proof.
  intros Hsafe.
  assert (Hinv : pools_inv (run (initial_db us cfg) l)).
  { assert (pools_inv (initial_db us cfg)) as H0.
    { split; [intros k w' Hk; simpl in Hk; by rewrite lookup_empty in Hk|].
      intros p Hp. by apply elem_of_nil in Hp. }
    revert H0 Hsafe. generalize (initial_db us cfg).
    induction l as [|a l IH]; intros d Hd Hsafe; [done|].
    destruct Hsafe as [Hs Hl].
    simpl. apply IH; [|done]. by apply pools_inv_perform. }
  intros Hw. by destruct (proj1 Hinv id w Hw).
Qed.

Lemma pools_equal_fees_always_witness :
  throughout safe_pools (initial_db Sample.people ∅)
    (Sample.three_join ++ [ReqStart (@rev _) 1 1]) /\
  pool_total (with_status Active (add_pools 210 60 30 (new_wheel 1 100))) =
  fees_collected 1
    (run (initial_db Sample.people ∅)
         (Sample.three_join ++ [ReqStart (@rev _) 1 1])).
Proof.
  assert (throughout safe_pools (initial_db Sample.people ∅)
            (Sample.three_join ++ [ReqStart (@rev _) 1 1])) as Hsafe.
  { unfold Sample.three_join. cbn [throughout app].
    repeat lazymatch goal with
           | |- _ /\ _ => split
           | |- True => exact I
           end; apply (bool_decide_unpack _); vm_compute; reflexivity. }
  split; [exact Hsafe|].
  pose proof (pools_equal_fees_always Sample.people ∅
                (Sample.three_join ++ [ReqStart (@rev _) 1 1]) 1
                (with_status Active (add_pools 210 60 30 (new_wheel 1 100)))
                Hsafe)
    as H.
  vm_compute in H. vm_compute. exact (H eq_refl).
Defined.

(** * Further properties of the code *)

(** ** The constraints of the schema hold in every reachable state *)

Lemma is_Some_alter {A} (f : A -> A) (m : gmap Z A) i j :
  is_Some (alter f i m !! j) <-> is_Some (m !! j).
Proof.
  destruct (decide (i = j)) as [->|Hne].
  - by rewrite lookup_alter_eq, fmap_is_Some.
  - by rewrite lookup_alter_ne.
Qed.

Lemma tables_ok_users f k d : tables_ok d -> tables_ok (set_users (alter f k) d).
Proof.
  intros (Hnd & Hrows & Hws & Hts). unfold tables_ok. simpl.
  split; [done|]. split; [|split].
  - eapply Forall_impl; [exact Hrows|]. intros p (? & ? & ?).
    by rewrite is_Some_alter.
  - intros id w Hw. destruct (Hws id w Hw). by rewrite is_Some_alter.
  - eapply Forall_impl; [exact Hts|]. intros t ?. by rewrite is_Some_alter.
Qed.

Lemma tables_ok_transaction t d :
  tables_ok d -> is_Some (users d !! t_user t) ->
  tables_ok (insert_transaction t d).
Proof.
  intros (Hnd & Hrows & Hws & Hts) Hu. unfold tables_ok. simpl.
  split; [done|]. split; [done|]. split; [done|].
  apply Forall_app. split; [done|]. by apply Forall_singleton.
Qed.

Lemma tables_ok_wheels g wid d :
  tables_ok d -> (forall w, owner_id (g w) = owner_id w) ->
  tables_ok (set_wheels (alter g wid) d).
Proof.
  intros (Hnd & Hrows & Hws & Hts) Hg. unfold tables_ok. simpl.
  split; [done|]. split; [|split; [|done]].
  - eapply Forall_impl; [exact Hrows|]. intros p (? & ? & ?).
    by rewrite is_Some_alter.
  - intros id w' Hw'. destruct (decide (wid = id)) as [->|Hne].
    + rewrite lookup_alter_eq in Hw'.
      destruct (spin_wheels d !! id) as [w|] eqn:Hw; [|done].
      injection Hw' as <-. rewrite Hg. by apply (Hws id w).
    + rewrite lookup_alter_ne in Hw' by done. by apply (Hws id w').
Qed.

Lemma tables_ok_set_status wid st d :
  tables_ok d -> tables_ok (set_status wid st d).
Proof. intros Hok. by apply tables_ok_wheels. Qed.

Lemma tables_ok_participant wid uid d :
  tables_ok d -> is_Some (users d !! uid) ->
  is_Some (spin_wheels d !! wid) ->
  tables_ok (insert_participant wid uid d).
Proof.
  intros (Hnd & Hrows & Hws & Hts) Hu Hw. unfold tables_ok. simpl.
  split; [|split; [|done]].
  - rewrite fmap_app. apply NoDup_app. split; [done|]. split.
    + intros k Hk Hin. apply list_elem_of_singleton in Hin. subst k.
      apply list_elem_of_fmap in Hk as (p & Hid & Hp).
      rewrite Forall_forall in Hrows. destruct (Hrows p Hp).
      simpl in Hid. lia.
    + apply NoDup_singleton.
  - apply Forall_app. split.
    + eapply Forall_impl; [exact Hrows|]. intros p (? & ? & ?).
      split; [lia|]. by split.
    + apply Forall_singleton. simpl. split; [lia|]. by split.
Qed.

Lemma tables_ok_mark wid pid d :
  tables_ok d -> tables_ok (mark_eliminated wid pid d).
Proof.
  intros (Hnd & Hrows & Hws & Hts). unfold tables_ok, mark_eliminated.
  simpl. split; [|split; [|done]].
  - rewrite <- list_fmap_compose.
    replace (p_id ∘ _ <$> spin_participants d)
      with (p_id <$> spin_participants d); [done|].
    apply list_fmap_ext. intros i p _. simpl. by destruct (p_id p =? pid).
  - apply Forall_fmap. eapply Forall_impl; [exact Hrows|].
    intros p Hp. simpl. by destruct (p_id p =? pid).
Qed.

Lemma tables_ok_wheel w d :
  tables_ok d -> is_Some (users d !! owner_id w) ->
  tables_ok (insert_wheel w d).
Proof.
  intros (Hnd & Hrows & Hws & Hts) Ho. unfold tables_ok. simpl.
  split; [done|]. split; [|split; [|done]].
  - eapply Forall_impl; [exact Hrows|]. intros p (? & ? & [w' Hw']).
    split; [done|]. split; [done|].
    destruct (decide (wheel_seq d = wheel_id p)) as [<-|Hne].
    + rewrite lookup_insert_eq. by eexists.
    + rewrite lookup_insert_ne by done. by eexists.
  - intros id w' Hw'. destruct (decide (wheel_seq d = id)) as [<-|Hne].
    + rewrite lookup_insert_eq in Hw'. injection Hw' as <-. split; [lia|done].
    + rewrite lookup_insert_ne in Hw' by done.
      destruct (Hws id w' Hw'). split; [lia|done].
Qed.

Lemma tables_ok_credited uid amt m d :
  tables_ok d -> is_Some (users d !! uid) -> tables_ok (credited uid amt m d).
Proof.
  intros Hok Hu. unfold credited, add_coins.
  apply tables_ok_transaction; [by apply tables_ok_users|].
  simpl. by rewrite is_Some_alter.
Qed.

Lemma tables_ok_credit uid amt m d d' :
  credit uid amt m d = Some d' -> tables_ok d -> tables_ok d'.
Proof.
  unfold credit. destruct (users d !! uid) as [u|] eqn:Hu; [|done].
  intros [= <-] Hok. apply tables_ok_credited; [done|]. by rewrite Hu.
Qed.

Lemma tables_ok_refund_loop wheelId reason ps d d' :
  foldl (refund_one wheelId reason) (Some d) ps = Some d' ->
  tables_ok d -> tables_ok d'.
Proof.
  revert d. induction ps as [|p ps IH]; intros d; simpl.
  - by intros [= <-].
  - destruct (spin_wheels d !! wheelId) as [w|];
      [|by rewrite foldl_refund_none].
    destruct (Js.binds (Js.nearest (entry_fee w)));
      [|by rewrite foldl_refund_none].
    destruct (credit (user_id p) (Js.shown (Js.nearest (entry_fee w)))
                (reason_meta wheelId reason) d)
      as [d1|] eqn:Hc; [|by rewrite foldl_refund_none].
    intros Hrun Hok. apply (IH d1 Hrun). by eapply tables_ok_credit.
Qed.

Lemma tables_ok_refundWheel wheelId reason d :
  tables_ok d -> tables_ok (refundWheel wheelId reason d).
Proof.
  intros Hok. unfold refundWheel.
  destruct (foldl (refund_one wheelId reason) (Some d)
              (participants_of wheelId d)) as [d'|] eqn:Hrun; [|done].
  apply tables_ok_set_status. by eapply tables_ok_refund_loop.
Qed.

Lemma tables_ok_finalizeWinner wheelId winner d :
  tables_ok d -> tables_ok (finalizeWinner wheelId winner d).1.
Proof.
  intros Hok. unfold finalizeWinner.
  destruct (spin_wheels d !! wheelId) as [w|]; [|done].
  destruct (0 <? winner_pool w); cbn [mbind option_bind].
  - destruct (credit winner (winner_pool w) (role_meta wheelId "winner") d)
      as [d1|] eqn:H1; cbn [mbind option_bind]; [|done].
    pose proof (tables_ok_credit _ _ _ _ _ H1 Hok) as Hok1.
    destruct (0 <? admin_pool w); [|by apply tables_ok_set_status].
    destruct (credit (owner_id w) (admin_pool w) (role_meta wheelId "admin")
                d1) as [d2|] eqn:H2; [|done].
    apply tables_ok_set_status. by eapply tables_ok_credit.
  - destruct (0 <? admin_pool w); [|by apply tables_ok_set_status].
    destruct (credit (owner_id w) (admin_pool w) (role_meta wheelId "admin")
                d) as [d2|] eqn:H2; [|done].
    apply tables_ok_set_status. by eapply tables_ok_credit.
Qed.

Lemma tables_ok_eliminateOne c d :
  tables_ok d -> tables_ok (eliminateOne c d).1.1.
Proof.
  intros Hok. unfold eliminateOne.
  destruct (active_of (c_wheel c) d) as [|r [|r' rs]].
  - by apply tables_ok_set_status.
  - pose proof (tables_ok_finalizeWinner (c_wheel c) (user_id r) d Hok).
    by destruct (finalizeWinner (c_wheel c) (user_id r) d).
  - destruct (next_candidate d _ _) as [found idx].
    match goal with
    | |- context [users (mark_eliminated ?w ?p d) !! ?k] =>
      destruct (users (mark_eliminated w p d) !! k)
    end; by apply tables_ok_mark.
Qed.

Lemma tables_ok_joined d wid uid w u :
  tables_ok d -> spin_wheels d !! wid = Some w -> users d !! uid = Some u ->
  tables_ok (joined d wid uid w u).
Proof.
  intros Hok Hw Hu. unfold joined.
  apply tables_ok_participant.
  - apply tables_ok_wheels; [|done].
    apply tables_ok_transaction; [by apply tables_ok_users|].
    simpl. by rewrite is_Some_alter, Hu.
  - simpl. by rewrite is_Some_alter, Hu.
  - simpl. by rewrite is_Some_alter, Hw.
Qed.

Lemma tables_ok_perform d a : tables_ok d -> tables_ok (perform d a).
Proof.
  intros Hok. destruct a as [owner fee|wj uj|sh wj owner|sh wj|c]; simpl.
  - unfold post_wheels. destruct (users d !! owner) as [adm|] eqn:Ha; [|done].
    destruct (negb (is_admin adm)); [done|].
    destruct (negb (bool_decide (live_wheels d = ∅))); [done|].
    destruct (fee_param _) as [f|]; [|done]. simpl.
    apply tables_ok_wheel; [done|]. simpl. by rewrite Ha.
  - destruct (join_cases d wj uj) as [[ev Hj]|[e Hj]]; rewrite Hj; simpl;
      [|done].
    destruct (join_ok_inv _ _ _ _ _ Hj) as (w & u & Hw & _ & Hu & _ & ->).
    by apply tables_ok_joined.
  - unfold post_wheels_start. destruct (start_checks d wj owner); [done|].
    by apply tables_ok_set_status.
  - unfold autoStartWheel. destruct (spin_wheels d !! wj) as [w|]; [|done].
    destruct (negb (bool_decide (w_status w = Pending))); [done|].
    destruct (count_participants wj d <? min_participants w); simpl.
    + by apply tables_ok_refundWheel.
    + by apply tables_ok_set_status.
  - by apply tables_ok_eliminateOne.
Qed.

Lemma tables_ok_run d l : tables_ok d -> tables_ok (run d l).
Proof.
  revert d. induction l as [|a l IH]; intros d Hok; [done|].
  simpl. apply IH. by apply tables_ok_perform.
Qed.

Lemma tables_ok_initial us cfg : tables_ok (initial_db us cfg).
Proof.
  unfold tables_ok, initial_db. simpl. split; [apply NoDup_nil_2|].
  split; [done|]. split; [apply map_Forall_empty|done].
Qed.

(** X1.  The program keeps the keys of the schema by its own writes: in
    every state reached from a database without wheels, participant ids
    are distinct, every participant row names an existing user and an
    existing wheel, every wheel names an existing owner, and every
    transaction names an existing user. *)
Theorem schema_keys_kept us cfg l :
  ids_unique (run (initial_db us cfg) l) /\
  users_exist (run (initial_db us cfg) l) /\
  Forall (fun p =>
            is_Some (spin_wheels (run (initial_db us cfg) l) !! wheel_id p))
         (spin_participants (run (initial_db us cfg) l)) /\
  map_Forall (fun _ w =>
                is_Some (users (run (initial_db us cfg) l) !! owner_id w))
             (spin_wheels (run (initial_db us cfg) l)) /\
  Forall (fun t => is_Some (users (run (initial_db us cfg) l) !! t_user t))
         (transactions (run (initial_db us cfg) l)).
Proof.
  destruct (tables_ok_run _ l (tables_ok_initial us cfg))
    as (Hnd & Hrows & Hws & Hts).
  split; [done|]. split; [|split; [|split; [|done]]].
  - unfold users_exist. eapply Forall_impl; [exact Hrows|]. by intros p (_ & ? & _).
  - eapply Forall_impl; [exact Hrows|]. by intros p (_ & _ & ?).
  - intros id w Hw. by destruct (Hws id w Hw).
Qed.

(** ** The life of a wheel *)

Lemma status_le_refl a : status_le a a = true.
Proof. by destruct a. Qed.

Lemma status_le_trans a b c :
  status_le a b = true -> status_le b c = true -> status_le a c = true.
Proof. by destruct a, b, c. Qed.

Lemma status_le_finished a : status_le a Finished = true.
Proof. by destruct a. Qed.

Lemma status_le_pending a b :
  status_le a b = true -> a <> Pending -> b <> Pending.
Proof. by destruct a, b. Qed.

Lemma status_le_live a b :
  status_le a b = true -> b = Pending \/ b = Active ->
  a = Pending \/ a = Active.
Proof. destruct a, b; intros ? [?|?]; try done; first [by left|by right]. Qed.

Lemma evolves_refl w : evolves w w.
Proof. unfold evolves. by rewrite status_le_refl. Qed.

Lemma evolves_trans w1 w2 w3 : evolves w1 w2 -> evolves w2 w3 -> evolves w1 w3.
Proof.
  intros (Ho1 & Hf1 & Hm1 & Hs1 & Hp1) (Ho2 & Hf2 & Hm2 & Hs2 & Hp2).
  unfold evolves. split; [congruence|]. split; [congruence|].
  split; [congruence|]. split; [by eapply status_le_trans|].
  intros Hnp. destruct (Hp1 Hnp) as (Ha & Hb & Hc).
  destruct Hp2 as (Ha' & Hb' & Hc'); [by eapply status_le_pending|].
  repeat split; congruence.
Qed.

(** A status written on top of a database with the same wheels. *)
Lemma evolves_set_status d d1 wid st id :
  spin_wheels d1 = spin_wheels d ->
  (forall w, spin_wheels d !! wid = Some w ->
             status_le (w_status w) st = true) ->
  option_Forall2 evolves (spin_wheels d !! id)
                 (spin_wheels (set_status wid st d1) !! id).
Proof.
  intros Hws Hle. simpl. rewrite Hws.
  destruct (decide (wid = id)) as [->|Hne].
  - rewrite lookup_alter_eq.
    destruct (spin_wheels d !! id) as [w|] eqn:Hw; constructor.
    unfold evolves. simpl. repeat split; try done. by apply Hle.
  - rewrite lookup_alter_ne by done.
    destruct (spin_wheels d !! id); constructor. apply evolves_refl.
Qed.

Lemma option_evolves_refl (o : option wheel) : option_Forall2 evolves o o.
Proof. destruct o; constructor. apply evolves_refl. Qed.

Lemma start_checks_pass d wid owner :
  start_checks d wid owner = None ->
  exists w, spin_wheels d !! wid = Some w /\ w_status w = Pending /\
    min_participants w <= count_participants wid d.
Proof.
  unfold start_checks. destruct (users d !! owner) as [ow|]; [|done].
  destruct (negb (is_admin ow)); [done|].
  destruct (spin_wheels d !! wid) as [w|]; [|done].
  case_bool_decide as Hst; simpl; [|done].
  destruct (count_participants wid d <? min_participants w) eqn:Hc; [done|].
  intros _. exists w. apply Z.ltb_ge in Hc. done.
Qed.

Lemma refundWheel_evolves wid reason d id :
  (forall w, spin_wheels d !! wid = Some w -> w_status w = Pending) ->
  option_Forall2 evolves (spin_wheels d !! id)
                 (spin_wheels (refundWheel wid reason d) !! id).
Proof.
  intros Hp.
  destruct (refundWheel_cases wid reason d) as [->|(w & Hw & ->)];
    [apply option_evolves_refl|].
  apply evolves_set_status.
  - by destruct (refunded_frame wid reason (refund_amount w)
                   (participants_of wid d) d) as (-> & _).
  - intros w' Hw'. by rewrite (Hp w' Hw').
Qed.

Lemma finalizeWinner_evolves wid winner d id :
  option_Forall2 evolves (spin_wheels d !! id)
                 (spin_wheels (finalizeWinner wid winner d).1 !! id).
Proof.
  destruct (finalizeWinner_cases wid winner d) as [->|(w & Hw & ->)];
    [apply option_evolves_refl|].
  apply evolves_set_status.
  - by destruct (paid_out_frame wid winner w d) as (-> & _).
  - intros. apply status_le_finished.
Qed.

Lemma eliminateOne_evolves c d id :
  option_Forall2 evolves (spin_wheels d !! id)
                 (spin_wheels (eliminateOne c d).1.1 !! id).
Proof.
  unfold eliminateOne.
  destruct (active_of (c_wheel c) d) as [|r [|r' rs]].
  - apply evolves_set_status; [done|]. intros. apply status_le_finished.
  - pose proof (finalizeWinner_evolves (c_wheel c) (user_id r) d id).
    by destruct (finalizeWinner (c_wheel c) (user_id r) d).
  - destruct (next_candidate d _ _) as [found idx].
    match goal with
    | |- context [users (mark_eliminated ?w ?p d) !! ?k] =>
      destruct (users (mark_eliminated w p d) !! k)
    end; apply option_evolves_refl.
Qed.

(** What a request other than a creation, or a timer, does to the row of a
    wheel: it neither adds nor removes the row, and the row evolves. *)
Lemma perform_evolves d a id :
  (forall owner fee, a <> ReqCreate owner fee) ->
  option_Forall2 evolves (spin_wheels d !! id)
                 (spin_wheels (perform d a) !! id).
Proof.
  intros Hnc. destruct a as [owner fee|wj uj|sh wj owner|sh wj|c]; simpl.
  - by destruct (Hnc owner fee).
  - destruct (join_cases d wj uj) as [[ev Hj]|[e Hj]]; rewrite Hj; simpl;
      [|apply option_evolves_refl].
    destruct (join_ok_inv _ _ _ _ _ Hj) as (w & u & Hw & Hst & _ & _ & ->).
    unfold joined. simpl. destruct (decide (wj = id)) as [->|Hne].
    + rewrite lookup_alter_eq, Hw. constructor. unfold evolves. simpl.
      rewrite Hst. by repeat split.
    + rewrite lookup_alter_ne by done. apply option_evolves_refl.
  - unfold post_wheels_start.
    destruct (start_checks d wj owner) eqn:Hc; [apply option_evolves_refl|].
    destruct (start_checks_pass _ _ _ Hc) as (w & Hw & Hst & _).
    apply evolves_set_status; [done|].
    intros w' Hw'. replace w' with w by congruence. by rewrite Hst.
  - unfold autoStartWheel.
    destruct (spin_wheels d !! wj) as [w|] eqn:Hw;
      [|apply option_evolves_refl].
    case_bool_decide as Hst; simpl; [|apply option_evolves_refl].
    destruct (count_participants wj d <? min_participants w); simpl.
    + apply refundWheel_evolves. intros w' Hw'. congruence.
    + apply evolves_set_status; [done|].
      intros w' Hw'. replace w' with w by congruence. by rewrite Hst.
  - apply eliminateOne_evolves.
Qed.

(** ... and a creation leaves the rows that are there as they are. *)
Lemma create_keeps_rows d owner fee id w :
  tables_ok d -> spin_wheels d !! id = Some w ->
  spin_wheels (post_wheels d owner fee).1.1.1 !! id = Some w.
Proof.
  intros (_ & _ & Hws & _) Hw. unfold post_wheels.
  destruct (users d !! owner) as [adm|]; [|done].
  destruct (negb (is_admin adm)); [done|].
  destruct (negb (bool_decide (live_wheels d = ∅))); [done|].
  destruct (fee_param _) as [f|]; [|done]. simpl.
  rewrite lookup_insert_ne; [done|]. destruct (Hws id w Hw). lia.
Qed.

Lemma run_evolves d l id w :
  tables_ok d -> spin_wheels d !! id = Some w ->
  exists w', spin_wheels (run d l) !! id = Some w' /\ evolves w w'.
Proof.
  revert d w. induction l as [|a l IH]; intros d w Hok Hw.
  - exists w. split; [done|apply evolves_refl].
  - assert (exists w1, spin_wheels (perform d a) !! id = Some w1 /\
              evolves w w1) as (w1 & Hw1 & Hev1).
    { destruct a as [owner fee| | | |];
        [exists w; split; [by apply create_keeps_rows|apply evolves_refl]|..].
      all: match goal with
           | |- context [perform ?d0 ?a0] =>
             pose proof (perform_evolves d0 a0 id ltac:(done)) as Hpe
           end;
        rewrite Hw in Hpe;
        inversion Hpe as [w0 w1 Hev Ha Hb|]; subst;
        exists w1; split; [done|exact Hev]. }
    destruct (IH (perform d a) w1 (tables_ok_perform d a Hok) Hw1)
      as (w' & Hw' & Hev').
    exists w'. split; [done|]. by eapply evolves_trans.
Qed.

(** X2.  A wheel row, once written, is never deleted and only moves
    forward: after any further requests and timers the row is still there
    with the same owner, entry fee and threshold; its status has moved along
    pending -> active -> finished or pending -> aborted (-> finished) and
    never back; and its pools are those it had when it stopped being
    pending. *)
Theorem wheel_lifecycle us cfg l1 l2 id w :
  spin_wheels (run (initial_db us cfg) l1) !! id = Some w ->
  exists w',
    spin_wheels (run (initial_db us cfg) (l1 ++ l2)) !! id = Some w' /\
    evolves w w'.
Proof.
  intros Hw. unfold run. rewrite foldl_app.
  apply run_evolves; [|done]. apply tables_ok_run, tables_ok_initial.
Qed.

Lemma wheel_lifecycle_witness :
  exists w',
    spin_wheels
      (run (initial_db Sample.people ∅)
           ([ReqCreate 1 (Js.Num 100); ReqJoin 1 7] ++
            [ReqJoin 1 8; ReqJoin 1 10; ReqStart (@rev _) 1 1])) !! 1
    = Some w' /\
    evolves (add_pools 70 20 10 (new_wheel 1 100)) w'.
Proof.
  pose proof (wheel_lifecycle Sample.people ∅
                [ReqCreate 1 (Js.Num 100); ReqJoin 1 7]
                [ReqJoin 1 8; ReqJoin 1 10; ReqStart (@rev _) 1 1]
                1 (add_pools 70 20 10 (new_wheel 1 100))) as H.
  vm_compute in H. vm_compute. exact (H eq_refl).
Defined.

(** The wheels that a request or a timer leaves pending or active were so
    before, unless the request created the wheel. *)
Lemma live_before d a id w' :
  (forall owner fee, a <> ReqCreate owner fee) ->
  spin_wheels (perform d a) !! id = Some w' -> is_live w' ->
  exists w, spin_wheels d !! id = Some w /\ is_live w.
Proof.
  intros Hnc Hw' Hl. pose proof (perform_evolves d a id Hnc) as Hpe.
  rewrite Hw' in Hpe. inversion Hpe as [w w1 Hev Ha Hb|]; subst.
  exists w. split; [done|].
  destruct Hev as (_ & _ & _ & Hle & _). by eapply status_le_live.
Qed.

Lemma one_live_perform d a :
  tables_ok d ->
  (forall i j wi wj,
     spin_wheels d !! i = Some wi -> is_live wi ->
     spin_wheels d !! j = Some wj -> is_live wj -> i = j) ->
  forall i j wi wj,
    spin_wheels (perform d a) !! i = Some wi -> is_live wi ->
    spin_wheels (perform d a) !! j = Some wj -> is_live wj -> i = j.
Proof.
  intros Hok Hone i j wi wj Hi Hli Hj Hlj.
  destruct a as [owner fee| | | |].
  1: { simpl in Hi, Hj. unfold post_wheels in Hi, Hj.
    destruct (users d !! owner) as [adm|]; [|exact (Hone _ _ _ _ Hi Hli Hj Hlj)].
    destruct (negb (is_admin adm)); [exact (Hone _ _ _ _ Hi Hli Hj Hlj)|].
    case_bool_decide as Hlive; simpl in Hi, Hj; [|exact (Hone _ _ _ _ Hi Hli Hj Hlj)].
    destruct (fee_param _) as [f|]; [|exact (Hone _ _ _ _ Hi Hli Hj Hlj)].
    simpl in Hi, Hj.
    assert (forall k wk, <[wheel_seq d := new_wheel owner f]> (spin_wheels d)
                           !! k = Some wk -> is_live wk -> k = wheel_seq d)
      as Hnew.
    { intros k wk Hk Hlk.
      destruct (decide (k = wheel_seq d)) as [|Hne]; [done|].
      rewrite lookup_insert_ne in Hk by done.
      assert (live_wheels d !! k = Some wk) as Hin.
      { unfold live_wheels. by apply map_lookup_filter_Some. }
      rewrite Hlive in Hin. by rewrite lookup_empty in Hin. }
    rewrite (Hnew i wi Hi Hli). by rewrite (Hnew j wj Hj Hlj). }
  all: match type of Hi with
       | context [perform ?d0 ?a0] =>
         destruct (live_before d0 a0 i wi ltac:(done) Hi Hli) as (vi & ? & ?);
         destruct (live_before d0 a0 j wj ltac:(done) Hj Hlj) as (vj & ? & ?)
       end;
    by apply (Hone i j vi vj).
Qed.

(** X3.  Requests being served one after the other, at most one wheel is
    pending or active at any time: [POST /api/wheels] refuses to create a
    wheel while one is, and nothing brings a finished or aborted wheel
    back. *)
Theorem one_live_wheel us cfg l i j wi wj :
  spin_wheels (run (initial_db us cfg) l) !! i = Some wi -> is_live wi ->
  spin_wheels (run (initial_db us cfg) l) !! j = Some wj -> is_live wj ->
  i = j.
Proof.
  pose proof (tables_ok_initial us cfg) as Hok.
  assert (forall i j wi wj,
     spin_wheels (initial_db us cfg) !! i = Some wi -> is_live wi ->
     spin_wheels (initial_db us cfg) !! j = Some wj -> is_live wj -> i = j)
    as Hone.
  { intros ? ? ? ? Hi. simpl in Hi. by rewrite lookup_empty in Hi. }
  revert Hok Hone. generalize (initial_db us cfg). clear us cfg.
  revert i j wi wj. induction l as [|a l IH]; intros i j wi wj d Hok Hone.
  - apply Hone.
  - simpl. apply IH; [by apply tables_ok_perform|by apply one_live_perform].
Qed.

Lemma one_live_wheel_witness :
  spin_wheels
    (run (initial_db Sample.people ∅)
         [ReqCreate 1 (Js.Num 100); ReqJoin 1 7; ReqCreate 1 (Js.Num 5)]) !! 1
  = Some (add_pools 70 20 10 (new_wheel 1 100)) /\
  is_live (add_pools 70 20 10 (new_wheel 1 100)) /\ (1 : Z) = 1.
Proof.
  pose proof (one_live_wheel Sample.people ∅
                [ReqCreate 1 (Js.Num 100); ReqJoin 1 7; ReqCreate 1 (Js.Num 5)]
                1 1 (add_pools 70 20 10 (new_wheel 1 100))
                (add_pools 70 20 10 (new_wheel 1 100))) as H.
  vm_compute in H.
  split; [vm_compute; reflexivity|]. split; [by left|].
  exact (H eq_refl (or_introl eq_refl) eq_refl (or_introl eq_refl)).
Defined.

(** ** No balance goes negative *)

Lemma solvent_add_coins uid amt d :
  0 <= amt -> solvent d -> solvent (add_coins uid amt d).
Proof.
  intros Hamt [Hw Hu]. split; [done|]. simpl. intros k u Hk.
  destruct (decide (uid = k)) as [->|Hne].
  - rewrite lookup_alter_eq in Hk.
    destruct (users d !! k) as [u0|] eqn:Hu0; [|done].
    simpl in Hk. injection Hk as <-. simpl. specialize (Hu k u0 Hu0).
    simpl in Hu. lia.
  - rewrite lookup_alter_ne in Hk by done. by apply (Hu k).
Qed.

Lemma solvent_credited uid amt m d :
  0 <= amt -> solvent d -> solvent (credited uid amt m d).
Proof.
  intros Hamt Hs. destruct (solvent_add_coins uid amt d Hamt Hs). by split.
Qed.

Lemma solvent_set_status wid st d : solvent d -> solvent (set_status wid st d).
Proof.
  intros [Hw Hu]. split; [|done]. simpl. intros k w Hk.
  destruct (decide (wid = k)) as [->|Hne].
  - rewrite lookup_alter_eq in Hk.
    destruct (spin_wheels d !! k) as [w0|] eqn:Hw0; [|done].
    simpl in Hk. injection Hk as <-. simpl. by apply (Hw k).
  - rewrite lookup_alter_ne in Hk by done. by apply (Hw k).
Qed.

Lemma solvent_refunded wid reason fee ps d :
  0 <= fee -> solvent d -> solvent (refunded wid reason fee ps d).
Proof.
  intros Hfee. unfold refunded. revert d.
  induction ps as [|p ps IH]; intros d Hs; simpl; [done|].
  by apply IH, solvent_credited.
Qed.

Lemma solvent_paid_out wid winner w d :
  solvent d -> solvent (paid_out wid winner w d).
Proof.
  intros Hs. unfold paid_out.
  destruct (0 <? winner_pool w) eqn:Hwp, (0 <? admin_pool w) eqn:Hap;
    try apply Z.ltb_lt in Hwp; try apply Z.ltb_lt in Hap;
    repeat apply solvent_credited; try lia; done.
Qed.

Lemma solvent_perform d a :
  fee_not_negative a -> solvent d -> solvent (perform d a).
Proof.
  intros Hfee Hs. destruct a as [owner fee|wj uj|sh wj owner|sh wj|c]; simpl.
  - unfold post_wheels. destruct (users d !! owner) as [adm|]; [|done].
    destruct (negb (is_admin adm)); [done|].
    destruct (negb (bool_decide (live_wheels d = ∅))); [done|].
    destruct (fee_param _) as [f|] eqn:Hf; [|done]. simpl.
    destruct Hs as [Hw Hu]. split; [|done]. simpl.
    apply map_Forall_insert_2; [|done]. simpl. by apply Hfee.
  - destruct (join_cases d wj uj) as [[ev Hj]|[e Hj]]; rewrite Hj; [|done].
    destruct (join_ok_inv _ _ _ _ _ Hj) as (w & u & Hw & _ & Hu & Hle & ->).
    destruct Hs as [Hws Hus]. split; simpl.
    + intros k w' Hk. destruct (decide (wj = k)) as [->|Hne].
      * rewrite lookup_alter_eq, Hw in Hk. simpl in Hk.
        injection Hk as <-. simpl. by apply (Hws k).
      * rewrite lookup_alter_ne in Hk by done. by apply (Hws k).
    + intros k u' Hk. destruct (decide (uj = k)) as [->|Hne].
      * rewrite lookup_alter_eq, Hu in Hk. simpl in Hk.
        injection Hk as <-. simpl.
        apply shown_nonneg, nearest_nonneg. lia.
      * rewrite lookup_alter_ne in Hk by done. by apply (Hus k).
  - unfold post_wheels_start. destruct (start_checks d wj owner); [done|].
    by apply solvent_set_status.
  - unfold autoStartWheel. destruct (spin_wheels d !! wj) as [w|] eqn:Hw;
      [|done].
    destruct (negb (bool_decide (w_status w = Pending))); [done|].
    destruct (count_participants wj d <? min_participants w); simpl;
      [|by apply solvent_set_status].
    destruct (refundWheel_cases wj "not_enough_participants" d)
      as [->|(w' & Hw' & ->)]; [done|].
    apply solvent_set_status, solvent_refunded; [|done].
    apply shown_nonneg, nearest_nonneg. by apply (proj1 Hs wj).
  - unfold eliminateOne.
    destruct (active_of (c_wheel c) d) as [|r [|r' rs]].
    + by apply solvent_set_status.
    + destruct (finalizeWinner_cases (c_wheel c) (user_id r) d)
        as [->|(w & Hw & ->)]; [done|].
      by apply solvent_set_status, solvent_paid_out.
    + destruct (next_candidate d _ _) as [found idx].
      match goal with
      | |- context [users (mark_eliminated ?w ?p d) !! ?k] =>
        destruct (users (mark_eliminated w p d) !! k)
      end; done.
Qed.

(** X4.  No balance ever goes negative.  If no balance is negative and no
    wheel has a negative entry fee, then after any requests and timers that
    create no wheel with a negative fee the same holds: a join is refused
    unless the balance covers the fee, a refund credits the fee, and a
    payout credits a pool only if the pool is positive. *)
Theorem balances_never_negative d l :
  solvent d -> Forall fee_not_negative l -> solvent (run d l).
Proof.
  intros Hs Hl. revert d Hs.
  induction Hl as [|a l Ha Hl IH]; intros d Hs; [done|].
  simpl. by apply IH, solvent_perform.
Qed.

Lemma balances_never_negative_witness :
  solvent (run Sample.empty_db
             [ReqCreate 1 (Js.Num 100); ReqJoin 1 7; ReqJoin 1 9;
              ReqJoin 1 9; FireAutoStart (@rev _) 1]).
Proof.
  apply balances_never_negative.
  - split; apply (bool_decide_unpack _); by vm_compute.
  - repeat constructor. simpl. intros z Hz. vm_compute in Hz.
    injection Hz as <-. lia.
Defined.

(** ** From the start request to the payout *)

Lemma start_checks_not_ok d wid owner :
  start_checks d wid owner <> Some StartOk.
Proof.
  unfold start_checks. destruct (users d !! owner) as [ow|]; [|done].
  destruct (negb (is_admin ow)); [done|].
  destruct (spin_wheels d !! wid) as [w|]; [|done].
  destruct (negb (bool_decide (w_status w = Pending))); [done|].
  by destruct (count_participants wid d <? min_participants w).
Qed.






(** ** A wheel that is aborted gives every entry fee back *)

Lemma post_wheels_created_inv d owner fee d1 ev tm id w :
  post_wheels d owner fee = (d1, ev, tm, Created id w) ->
  exists f,
    fee_param (Js.or fee (Js.Num 100)) = Some f /\
    w = new_wheel owner f /\ id = wheel_seq d /\ d1 = insert_wheel w d /\
    live_wheels d = ∅ /\ is_Some (users d !! owner) /\
    ev = [wheelCreated id w] /\ tm = [AutoStartTimer id].
Proof.
  unfold post_wheels. destruct (users d !! owner) as [adm|]; [|done].
  destruct (negb (is_admin adm)); [done|].
  case_bool_decide as Hlive; simpl; [|done].
  destruct (fee_param _) as [f|]; [|done].
  intros [= <- <- <- <- <-]. exists f. by repeat split.
Qed.

Lemma rows_of_other d wid uid w u k :
  k <> uid -> rows_of k wid (joined d wid uid w u) = rows_of k wid d.
Proof.
  intros Hne. unfold rows_of. rewrite participants_of_joined.
  destruct (decide (wid = wid)); [|done].
  rewrite filter_app, length_app. filter_head. simpl. lia.
Qed.

(** While wheel [id], of a fee [f] that is not negative and below 2^53,
    is the only pending wheel and every balance is of magnitude below
    2^53, the join requests, whatever wheel they name, keep it so, and
    every balance is the balance [b0] less one fee for every row the user
    has on [id]. *)
Lemma joins_track_rows id f m (b0 : Z -> option Z) js : forall d,
  0 <= f < 2 ^ 53 ->
  map_Forall (fun _ u => Z.abs (coins u) < 2 ^ 53) (users d) ->
  tables_ok d ->
  (exists wd, spin_wheels d !! id = Some wd /\ entry_fee wd = f /\
     min_participants wd = m /\ w_status wd = Pending) ->
  (forall k wk, k <> id -> spin_wheels d !! k = Some wk ->
     w_status wk <> Pending) ->
  (forall uid, balance uid d = (fun c => c - f * rows_of uid id d) <$> b0 uid) ->
  tables_ok (run d (join_requests js)) /\
  (exists wd, spin_wheels (run d (join_requests js)) !! id = Some wd /\
     entry_fee wd = f /\ min_participants wd = m /\ w_status wd = Pending) /\
  (forall uid, balance uid (run d (join_requests js)) =
     (fun c => c - f * rows_of uid id (run d (join_requests js))) <$> b0 uid).
Proof.
  induction js as [|[wj uj] js IH]; intros d Hf Hsafe Hok Hw Hothers Hbal;
    [done|].
  unfold join_requests. rewrite fmap_cons. simpl.
  assert (Hnew : forall w u ev,
            join d wj uj = (joined d wj uj w u, ev, JoinOk) ->
            spin_wheels d !! wj = Some w -> users d !! uj = Some u ->
            wj = id /\ entry_fee w = f /\
            Js.shown (newCoins w u) = coins u - f /\ f <= coins u).
  { intros w u ev Hj Hwj Hu.
    destruct (join_ok_inv _ _ _ _ _ Hj)
      as (w' & u' & Hwj' & Hst & Hu' & [Hle _] & _).
    replace w' with w in * by congruence.
    replace u' with u in * by congruence.
    destruct (decide (wj = id)) as [->|Hne];
      [|by destruct (Hothers wj w Hne Hwj)].
    destruct Hw as (wd & Hwd & Hfd & _).
    replace wd with w in * by congruence.
    assert (safe_debit w u) as Hd by (split; [lia|exact (Hsafe _ _ Hu)]).
    destruct (debit_exact _ _ Hd) as (_ & _ & _ & Hnc).
    destruct Hd as [Hf' Hc].
    rewrite !nearest_exact in Hle by lia.
    destruct (Hnc Hle) as [-> _]. repeat split; try done; lia. }
  apply IH; clear IH; [done|..].
  - destruct (join_cases d wj uj) as [[ev Hj]|[e Hj]]; rewrite Hj; [|done].
    destruct (join_ok_inv _ _ _ _ _ Hj) as (w & u & Hwj & Hst & Hu & _ & Hd).
    rewrite Hd in *.
    destruct (Hnew w u ev Hj Hwj Hu) as (_ & _ & Hnc & Hle).
    intros k u' Hk. unfold joined in Hk. simpl in Hk.
    destruct (decide (uj = k)) as [->|Hne].
    + rewrite lookup_alter_eq, Hu in Hk. simpl in Hk. injection Hk as <-.
      simpl. rewrite Hnc. pose proof (Hsafe _ _ Hu). simpl in *. lia.
    + rewrite lookup_alter_ne in Hk by done. exact (Hsafe _ _ Hk).
  - apply (tables_ok_perform d (ReqJoin wj uj) Hok).
  - destruct (join_cases d wj uj) as [[ev Hj]|[e Hj]]; rewrite Hj; [|done].
    destruct (join_ok_inv _ _ _ _ _ Hj) as (w & u & Hwj & Hst & _ & _ & ->).
    destruct Hw as (wd & Hwd & Hfd & Hm & Hp). unfold joined. simpl.
    destruct (decide (wj = id)) as [->|Hne].
    + rewrite lookup_alter_eq, Hwd. eexists. by split.
    + rewrite lookup_alter_ne by done. by exists wd.
  - destruct (join_cases d wj uj) as [[ev Hj]|[e Hj]]; rewrite Hj; [|done].
    destruct (join_ok_inv _ _ _ _ _ Hj) as (w & u & Hwj & Hst & _ & _ & ->).
    intros k wk Hk. unfold joined. simpl.
    destruct (decide (wj = k)) as [->|Hne].
    + by destruct (Hothers k w Hk Hwj).
    + rewrite lookup_alter_ne by done. by apply Hothers.
  - destruct (join_cases d wj uj) as [[ev Hj]|[e Hj]]; rewrite Hj; [|done].
    destruct (join_ok_inv _ _ _ _ _ Hj) as (w & u & Hwj & Hst & Hu & _ & Hd).
    rewrite Hd in *.
    destruct (Hnew w u ev Hj Hwj Hu) as (-> & Hfw & Hnc & _).
    cbn [fst]. intros uid. destruct (decide (uid = uj)) as [->|Hother].
    + rewrite rows_of_joined. pose proof (Hbal uj) as Hb.
      unfold balance in *. simpl. rewrite lookup_alter_eq, Hu in *.
      destruct (b0 uj) as [c0|]; [|done]. simpl in *.
      injection Hb as Hb. f_equal. rewrite Hnc. lia.
    + rewrite rows_of_other by done. rewrite <- Hbal.
      unfold balance. simpl. by rewrite lookup_alter_ne.
Qed.

(** The wheel that [POST /api/wheels] has just created has no rows. *)
Lemma new_wheel_has_no_rows d w :
  tables_ok d -> participants_of (wheel_seq d) (insert_wheel w d) = [].
Proof.
  intros (_ & Hrows & Hws & _). unfold participants_of. simpl.
  induction Hrows as [|p ps (_ & _ & [wp Hwp]) _ IH]; [done|].
  rewrite filter_cons_False; [done|].
  destruct (Hws _ _ Hwp). lia.
Qed.

Lemma refundWheel_balance wid reason d w uid :
  spin_wheels d !! wid = Some w -> users_exist d ->
  Z.abs (entry_fee w) < 2 ^ 53 ->
  balance uid (refundWheel wid reason d) =
    (fun c => c + entry_fee w * rows_of uid wid d) <$> balance uid d /\
  spin_wheels (refundWheel wid reason d) !! wid = Some (with_status Aborted w).
Proof.
  intros Hw Hus Hfee. unfold refundWheel.
  destruct (refund_amount_exact w Hfee) as [Hamt Hbind].
  rewrite (refund_loop_ok wid reason (participants_of wid d) d w Hw Hbind).
  2:{ apply Forall_forall. intros p Hp.
      apply list_elem_of_filter in Hp as [_ Hp]. by apply users_exist_row. }
  rewrite Hamt.
  pose proof (ledger_step_refunded wid reason (entry_fee w)
                (participants_of wid d) d) as [_ Hb].
  destruct (refunded_frame wid reason (entry_fee w)
              (participants_of wid d) d) as (Hws & _).
  split.
  - unfold balance in *. simpl. rewrite (Hb uid). unfold rows_of.
    by rewrite <- (recorded_refunds uid wid reason (entry_fee w)).
  - simpl. by rewrite Hws, lookup_alter_eq, Hw.
Qed.

(** X6.  A wheel that does not fill costs nobody anything.  In any state
    the backend has reached, let [POST /api/wheels] create a wheel whose
    fee is not negative and below 2^53 while every balance is of magnitude
    below 2^53, let any join requests follow, for any wheels and users and
    any number of times each, and let the auto-start timer fire while the
    wheel has fewer rows than its threshold: then the wheel is aborted and
    every balance is what it was before the wheel was created; the timer
    announces the abort and sets no further timer. *)
Theorem abort_restores_balances shuffle us cfg l owner fee d1 ev tm id w js :
  post_wheels (run (initial_db us cfg) l) owner fee =
    (d1, ev, tm, Created id w) ->
  0 <= entry_fee w < 2 ^ 53 ->
  map_Forall (fun _ u => Z.abs (coins u) < 2 ^ 53) (users d1) ->
  count_participants id (run d1 (join_requests js)) < min_participants w ->
  (forall uid,
     balance uid (autoStartWheel shuffle id
                    (run d1 (join_requests js))).1.1 =
     balance uid (run (initial_db us cfg) l)) /\
  w_status <$>
    spin_wheels (autoStartWheel shuffle id
                   (run d1 (join_requests js))).1.1 !! id = Some Aborted /\
  (autoStartWheel shuffle id (run d1 (join_requests js))).1.2 =
    [wheelAborted id "not_enough_participants"] /\
  (autoStartWheel shuffle id (run d1 (join_requests js))).2 = [].
Proof.
  pose proof (tables_ok_run _ l (tables_ok_initial us cfg)) as Hok.
  revert Hok. generalize (run (initial_db us cfg) l).
  intros d Hok Hcr Hfee Hsafe Hfew.
  destruct (post_wheels_created_inv _ _ _ _ _ _ _ _ Hcr)
    as (f & _ & Hw & -> & -> & Hlive & Hown & _).
  assert (entry_fee w = f) as Hwf by (by rewrite Hw).
  destruct (joins_track_rows (wheel_seq d) f 3 (fun uid => balance uid d) js
              (insert_wheel w d)) as (Hok2 & (w2 & Hw2 & Hf2 & Hm2 & Hp2) & Hb2).
  - lia.
  - exact Hsafe.
  - apply tables_ok_wheel; [done|]. by rewrite Hw.
  - exists w. simpl. rewrite lookup_insert_eq. by rewrite Hw.
  - intros k wk Hne Hk Hpend. simpl in Hk.
    rewrite lookup_insert_ne in Hk by done.
    assert (live_wheels d !! k = Some wk) as Hin.
    { unfold live_wheels. apply map_lookup_filter_Some. split; [done|].
      by left. }
    rewrite Hlive in Hin. by rewrite lookup_empty in Hin.
  - intros uid. unfold rows_of. rewrite new_wheel_has_no_rows by done.
    unfold balance. simpl. destruct (users d !! uid); simpl; [|done].
    f_equal. lia.
  - set (d2 := run (insert_wheel w d) (join_requests js)) in *.
    assert (Hm : min_participants w = 3) by (by rewrite Hw).
    unfold autoStartWheel. rewrite Hw2.
    case_bool_decide; [|done]. simpl.
    assert ((count_participants (wheel_seq d) d2 <? min_participants w2) = true)
      as -> by (apply Z.ltb_lt; lia).
    simpl. destruct Hok2 as (_ & Hrows & _).
    assert (Hus : users_exist d2).
    { eapply Forall_impl; [exact Hrows|]. by intros p (_ & ? & _). }
    assert (Z.abs (entry_fee w2) < 2 ^ 53) as Hfee2 by lia.
    split; [|split; [|done]].
    + intros uid.
      destruct (refundWheel_balance (wheel_seq d) "not_enough_participants"
                  d2 w2 uid Hw2 Hus Hfee2) as [-> _].
      rewrite Hb2, Hf2. destruct (balance uid d); simpl; [|done].
      f_equal. lia.
    + destruct (refundWheel_balance (wheel_seq d) "not_enough_participants"
                  d2 w2 0 Hw2 Hus Hfee2) as [_ ->]. done.
Qed.

Lemma abort_restores_balances_witness :
  (forall uid,
     balance uid
       (autoStartWheel (@rev _) 1
          (run (Sample.with_wheel 100)
               (join_requests [(1, 7); (1, 9); (2, 8); (1, 9)]))).1.1 =
     balance uid (run (initial_db Sample.people ∅) [])) /\
  w_status <$>
    spin_wheels
      (autoStartWheel (@rev _) 1
         (run (Sample.with_wheel 100)
              (join_requests [(1, 7); (1, 9); (2, 8); (1, 9)]))).1.1 !! 1
    = Some Aborted /\
  (autoStartWheel (@rev _) 1
     (run (Sample.with_wheel 100)
          (join_requests [(1, 7); (1, 9); (2, 8); (1, 9)]))).1.2 =
    [wheelAborted 1 "not_enough_participants"] /\
  (autoStartWheel (@rev _) 1
     (run (Sample.with_wheel 100)
          (join_requests [(1, 7); (1, 9); (2, 8); (1, 9)]))).2 = [].
Proof.
  assert (Hcr : post_wheels (run (initial_db Sample.people ∅) []) 1
                            (Js.Num 100) =
                (Sample.with_wheel 100, [wheelCreated 1 (new_wheel 1 100)],
                 [AutoStartTimer 1], Created 1 (new_wheel 1 100)))
    by (vm_compute; reflexivity).
  assert (Hfew : count_participants 1
                   (run (Sample.with_wheel 100)
                        (join_requests [(1, 7); (1, 9); (2, 8); (1, 9)]))
                 < min_participants (new_wheel 1 100))
    by (vm_compute; reflexivity).
  assert (Hfee : 0 <= entry_fee (new_wheel 1 100) < 2 ^ 53)
    by (vm_compute; split; [discriminate|reflexivity]).
  assert (Hsafe : map_Forall (fun _ u => Z.abs (coins u) < 2 ^ 53)
                             (users (Sample.with_wheel 100)))
    by (apply (bool_decide_unpack _); vm_compute; reflexivity).
  exact (abort_restores_balances (@rev _) Sample.people ∅ [] 1 (Js.Num 100)
           (Sample.with_wheel 100) [wheelCreated 1 (new_wheel 1 100)]
           [AutoStartTimer 1] 1 (new_wheel 1 100)
           [(1, 7); (1, 9); (2, 8); (1, 9)] Hcr Hfee Hsafe Hfew).
Defined.

(** ** The settings that a join reads *)

(** X8.  Of the three percentages in [config], a join uses two: the share
    of the application is what is left of the fee after the shares of the
    winner and the administrator, and [fee_split_app_pct] is read and then
    ignored.  Two databases that differ only in [config], and there agree
    on the two other keys, answer every join alike: same response, same
    event, same rows written. *)
Theorem join_ignores_app_pct d cfg wid uid :
  cfg !! "fee_split_winner_pct"%string =
    config d !! "fee_split_winner_pct"%string ->
  cfg !! "fee_split_admin_pct"%string =
    config d !! "fee_split_admin_pct"%string ->
  join (with_config cfg d) wid uid =
  (with_config cfg (join d wid uid).1.1, (join d wid uid).1.2,
   (join d wid uid).2).
Proof.
  intros Hwin Hadm.
  assert (Hsplit : forall w,
            winnerAmt (getConfigSplit (with_config cfg d)) w =
              winnerAmt (getConfigSplit d) w /\
            adminAmt (getConfigSplit (with_config cfg d)) w =
              adminAmt (getConfigSplit d) w /\
            appAmt (getConfigSplit (with_config cfg d)) w =
              appAmt (getConfigSplit d) w).
  { intros w. unfold appAmt, winnerAmt, adminAmt, getConfigSplit.
    cbn [config with_config winner_pct admin_pct]. by rewrite Hwin, Hadm. }
  unfold join. cbn [spin_wheels users with_config].
  destruct (spin_wheels d !! wid) as [w|]; [|done].
  destruct (negb (bool_decide (w_status w = Pending))); [done|].
  destruct (users d !! uid) as [u|]; [|done].
  destruct (Js.nearest (coins u) <? Js.nearest (entry_fee w)); [done|].
  destruct (Hsplit w) as (Hw1 & Hw2 & Hw3).
  unfold join_binds. rewrite Hw1, Hw2, Hw3.
  destruct (negb _); [done|].
  replace (getConfigSplit (insert_transaction _ (set_coins _ _ d)))
    with (getConfigSplit d) by done.
  replace (getConfigSplit
             (insert_transaction _ (set_coins _ _ (with_config cfg d))))
    with (getConfigSplit (with_config cfg d)) by done.
  by rewrite Hw1, Hw2, Hw3.
Qed.

Lemma join_ignores_app_pct_witness :
  join (with_config (<["fee_split_app_pct"%string := 55]> ∅)
                    (Sample.with_wheel 100)) 1 7 =
  (with_config (<["fee_split_app_pct"%string := 55]> ∅)
               (join (Sample.with_wheel 100) 1 7).1.1,
   (join (Sample.with_wheel 100) 1 7).1.2,
   (join (Sample.with_wheel 100) 1 7).2).
Proof.
  apply (join_ignores_app_pct (Sample.with_wheel 100)
           (<["fee_split_app_pct"%string := 55]> ∅) 1 7).
  - vm_compute. reflexivity.
  - vm_compute. reflexivity.
Defined.

(** ** One tick of the elimination loop *)

(** X9.  One tick of the loop, in any state the backend has reached and
    for any loop whose array holds rows of its wheel: while two or more
    participants of the wheel are not yet eliminated, the tick marks
    exactly one of them, with the number of rows of the wheel as its
    [eliminated_order]; it announces that user and sets exactly one timer,
    for the same loop; and it moves no coins: users, wheels and
    transactions are as they were. *)
Theorem tick_eliminates_one us cfg l c :
  chain_ok c (run (initial_db us cfg) l) ->
  (2 <= length (active_of (c_wheel c) (run (initial_db us cfg) l)))%nat ->
  exists p u idx,
    p ∈ active_of (c_wheel c) (run (initial_db us cfg) l) /\
    users (run (initial_db us cfg) l) !! user_id p = Some u /\
    (eliminateOne c (run (initial_db us cfg) l)).1.2 =
      [userEliminated (c_wheel c) (user_id p) (username u)] /\
    (eliminateOne c (run (initial_db us cfg) l)).2 =
      [EliminateTimer {| c_wheel := c_wheel c;
                         c_participants := c_participants c;
                         c_idx := idx |}] /\
    mark (count_participants (c_wheel c) (run (initial_db us cfg) l)) p
      ∈ spin_participants (eliminateOne c (run (initial_db us cfg) l)).1.1 /\
    length (active_of (c_wheel c)
              (eliminateOne c (run (initial_db us cfg) l)).1.1) =
      pred (length (active_of (c_wheel c) (run (initial_db us cfg) l))) /\
    users (eliminateOne c (run (initial_db us cfg) l)).1.1 =
      users (run (initial_db us cfg) l) /\
    spin_wheels (eliminateOne c (run (initial_db us cfg) l)).1.1 =
      spin_wheels (run (initial_db us cfg) l) /\
    transactions (eliminateOne c (run (initial_db us cfg) l)).1.1 =
      transactions (run (initial_db us cfg) l).
Proof.
  pose proof (tables_ok_run _ l (tables_ok_initial us cfg)) as Hok.
  revert Hok. generalize (run (initial_db us cfg) l).
  intros d (Hnd & Hrows & _) Hch Hlen.
  assert (Hus : users_exist d).
  { eapply Forall_impl; [exact Hrows|]. by intros p (_ & ? & _). }
  destruct (eliminateOne_step c d Hch Hus Hlen)
    as (p & u & idx & Hp & Hu & ->).
  destruct (mark_eliminated_step (c_wheel c) p d Hnd Hp)
    as ((Hu' & Hw' & Ht' & _) & Hlen' & _).
  exists p, u, idx. cbn [fst snd]. repeat split; try done.
  apply elem_of_active_of in Hp as (Hrow & _).
  unfold mark_eliminated. simpl. apply list_elem_of_fmap. exists p.
  by rewrite Z.eqb_refl.
Qed.

Lemma tick_eliminates_one_witness :
  exists p u idx,
    p ∈ active_of 1
          (run (initial_db Sample.people ∅)
               (Sample.three_join ++ [ReqStart (@rev _) 1 1])) /\
    users (run (initial_db Sample.people ∅)
               (Sample.three_join ++ [ReqStart (@rev _) 1 1]))
      !! user_id p = Some u /\
    (eliminateOne Sample.started_chain
       (run (initial_db Sample.people ∅)
            (Sample.three_join ++ [ReqStart (@rev _) 1 1]))).1.2 =
      [userEliminated 1 (user_id p) (username u)] /\
    (eliminateOne Sample.started_chain
       (run (initial_db Sample.people ∅)
            (Sample.three_join ++ [ReqStart (@rev _) 1 1]))).2 =
      [EliminateTimer {| c_wheel := 1;
                         c_participants := [(3, 10); (2, 8); (1, 7)];
                         c_idx := idx |}] /\
    mark 3 p ∈
      spin_participants
        (eliminateOne Sample.started_chain
           (run (initial_db Sample.people ∅)
                (Sample.three_join ++ [ReqStart (@rev _) 1 1]))).1.1.
Proof.
  destruct (tick_eliminates_one Sample.people ∅
              (Sample.three_join ++ [ReqStart (@rev _) 1 1])
              Sample.started_chain)
    as (p & u & idx & Hp & Hu & Hev & Htm & Hm & _).
  - apply (bool_decide_unpack _). by vm_compute.
  - vm_compute. lia.
  - exists p, u, idx. split; [exact Hp|]. split; [exact Hu|].
    split; [exact Hev|]. split; [exact Htm|]. exact Hm.
Defined.

(** ** What the utility endpoints return *)

Lemma perform_wheel_seq d a :
  (forall owner fee, a <> ReqCreate owner fee) ->
  wheel_seq (perform d a) = wheel_seq d.
Proof.
  intros Hnc. destruct a as [owner fee|wj uj|sh wj owner|sh wj|c]; simpl.
  - by destruct (Hnc owner fee).
  - destruct (join_cases d wj uj) as [[ev Hj]|[e Hj]]; rewrite Hj; [|done].
    by destruct (join_ok_inv _ _ _ _ _ Hj) as (w & u & _ & _ & _ & _ & ->).
  - unfold post_wheels_start. by destruct (start_checks d wj owner).
  - unfold autoStartWheel. destruct (spin_wheels d !! wj) as [w|]; [|done].
    destruct (negb (bool_decide (w_status w = Pending))); [done|].
    destruct (count_participants wj d <? min_participants w); [|done].
    by destruct (same_up_to_status_refundWheel wj "not_enough_participants" d).
  - by destruct (same_up_to_status_eliminateOne c d).
Qed.

(** A wheel that is pending or active is the newest wheel. *)
Lemma live_is_newest_perform d a :
  (forall id w, spin_wheels d !! id = Some w -> is_live w ->
     id = wheel_seq d - 1) ->
  forall id w, spin_wheels (perform d a) !! id = Some w -> is_live w ->
    id = wheel_seq (perform d a) - 1.
Proof.
  intros Hnew id w Hw Hl. destruct a as [owner fee| | | |].
  1: { simpl in *. unfold post_wheels in *.
       destruct (users d !! owner) as [adm|]; [|by apply (Hnew id w)].
       destruct (negb (is_admin adm)); [by apply (Hnew id w)|].
       case_bool_decide as Hlive; simpl in *; [|by apply (Hnew id w)].
       destruct (fee_param _) as [f|]; [|by apply (Hnew id w)].
       simpl in *. destruct (decide (id = wheel_seq d)) as [->|Hne]; [lia|].
       rewrite lookup_insert_ne in Hw by done.
       assert (live_wheels d !! id = Some w) as Hin.
       { unfold live_wheels. by apply map_lookup_filter_Some. }
       rewrite Hlive in Hin. by rewrite lookup_empty in Hin. }
  all: match type of Hw with
       | context [perform ?d0 ?a0] =>
         rewrite (perform_wheel_seq d0 a0) by done;
         destruct (live_before d0 a0 id w ltac:(done) Hw Hl) as (v & ? & ?)
       end;
    by apply (Hnew id v).
Qed.

Lemma live_is_newest us cfg l id w :
  spin_wheels (run (initial_db us cfg) l) !! id = Some w -> is_live w ->
  id = wheel_seq (run (initial_db us cfg) l) - 1.
Proof.
  assert (forall id w, spin_wheels (initial_db us cfg) !! id = Some w ->
            is_live w -> id = wheel_seq (initial_db us cfg) - 1) as H0.
  { intros ? ? Hi. simpl in Hi. by rewrite lookup_empty in Hi. }
  revert H0. generalize (initial_db us cfg). revert id w.
  induction l as [|a l IH]; intros id w d Hd; [apply Hd|].
  simpl. apply IH. by apply live_is_newest_perform.
Qed.

#[local] Instance newer_first_trans : Transitive newer_first.
Proof. unfold newer_first. intros a b c ? ?. lia. Qed.

#[local] Instance newer_first_total : Total newer_first.
Proof. unfold newer_first. intros a b. lia. Qed.

(** X10.  The list of [GET /api/wheels] starts with the wheel that is
    open: in any state the backend has reached, requests being served one
    after the other, a wheel that is pending or active is the first row of
    the ten that the endpoint returns, however many wheels there are. *)
Theorem live_wheel_listed_first us cfg l id w :
  spin_wheels (run (initial_db us cfg) l) !! id = Some w -> is_live w ->
  head (get_wheels (run (initial_db us cfg) l)) = Some (id, w).
Proof.
  intros Hw Hl. pose proof (live_is_newest us cfg l id w Hw Hl) as Hid.
  pose proof (tables_ok_run _ l (tables_ok_initial us cfg)) as (_ & _ & Hws & _).
  revert Hw Hid Hws. generalize (run (initial_db us cfg) l).
  intros d Hw Hid Hws. unfold get_wheels.
  pose proof (StronglySorted_merge_sort newer_first
                (map_to_list (spin_wheels d))) as Hs.
  pose proof (merge_sort_Permutation newer_first
                (map_to_list (spin_wheels d))) as Hp.
  assert ((id, w) ∈ merge_sort newer_first (map_to_list (spin_wheels d)))
    as Hin by (rewrite Hp; by apply elem_of_map_to_list).
  destruct (merge_sort newer_first (map_to_list (spin_wheels d)))
    as [|[k wk] rest]; [by apply elem_of_nil in Hin|].
  simpl. f_equal.
  assert (spin_wheels d !! k = Some wk) as Hk.
  { apply elem_of_map_to_list. rewrite <- Hp. apply list_elem_of_here. }
  assert (k = id) as ->.
  { destruct (Hws k wk Hk) as [Hlt _].
    apply elem_of_cons in Hin as [Heq|Hrest]; [by injection Heq|].
    apply StronglySorted_cons in Hs as [Hall _].
    rewrite Forall_forall in Hall. specialize (Hall _ Hrest).
    unfold newer_first in Hall. simpl in Hall. lia. }
  congruence.
Qed.

Lemma live_wheel_listed_first_witness :
  head (get_wheels (run (initial_db Sample.people ∅)
                        ([ReqCreate 1 (Js.Num 5); FireAutoStart (@rev _) 1] ++
                         [ReqCreate 1 (Js.Num 100); ReqJoin 2 7]))) =
  Some (2, add_pools 70 20 10 (new_wheel 1 100)).
Proof.
  pose proof (live_wheel_listed_first Sample.people ∅
                ([ReqCreate 1 (Js.Num 5); FireAutoStart (@rev _) 1] ++
                 [ReqCreate 1 (Js.Num 100); ReqJoin 2 7])
                2 (add_pools 70 20 10 (new_wheel 1 100))) as H.
  vm_compute in H. vm_compute. exact (H eq_refl (or_introl eq_refl)).
Defined.

(** The join with [users] drops no row of a wheel whose users exist. *)
Lemma with_username_rows d wid :
  tables_ok d ->
  (fun r : participant * string => r.1)
    <$> with_username d (participants_of wid d) =
  participants_of wid d.
Proof.
  intros (_ & Hrows & _). unfold with_username, participants_of.
  induction Hrows as [|p ps (_ & [u Hu] & _) _ IH]; [done|].
  destruct (decide (wheel_id p = wid)).
  - rewrite filter_cons_True by done. csimpl. rewrite Hu. csimpl.
    by rewrite IH.
  - by rewrite filter_cons_False by done.
Qed.

(** X11.  The participant list that [GET /api/wheels/:id/participants]
    answers is complete.  The query has no [ORDER BY], so the server lists
    the rows in an order of its choice; in any state the backend has
    reached and for any such order, the join with [users] drops no row:
    the rows listed are the rows of the wheel, each once, up to their
    order. *)
Theorem participants_query_complete order us cfg l wid :
  (forall rows : list (participant * string), order rows ≡ₚ rows) ->
  (fun r : participant * string => r.1)
    <$> get_participants order wid (run (initial_db us cfg) l) ≡ₚ
  participants_of wid (run (initial_db us cfg) l).
Proof.
  intros Horder.
  pose proof (tables_ok_run _ l (tables_ok_initial us cfg)) as Hok.
  unfold get_participants. rewrite Horder.
  by rewrite with_username_rows.
Qed.

(** The server lists the three rows of wheel 1 from the last to the
    first. *)
Lemma participants_query_complete_witness :
  (fun r : participant * string => r.1)
    <$> get_participants (@rev _) 1
          (run (initial_db Sample.people ∅) Sample.three_join) ≡ₚ
  participants_of 1 (run (initial_db Sample.people ∅) Sample.three_join).
Proof.
  apply (participants_query_complete (@rev _) Sample.people ∅
           Sample.three_join 1).
  intros rows. symmetry. apply Permutation_rev.
Defined.

Example participants_listed_backwards :
  (fun r : participant * string => (user_id r.1, r.2))
    <$> get_participants (@rev _) 1
          (run (initial_db Sample.people ∅) Sample.three_join)
  = [(10, "di"%string); (8, "bob"%string); (7, "ann"%string)].
Proof. evaluate. Qed.

(** ** The game service: starting a wheel *)

Section start.
Import GameService.
Context `{Crypto}.

Lemma locked_start id now rt :
  id ∈ locks rt -> startWheel id now rt = (rt, WheelAlreadyStarting).
Proof. intros Hin. unfold startWheel. by rewrite bool_decide_eq_true_2. Qed.

(** What a start that got as far as the payout has done. *)
Lemma startWheel_paid id now rt :
  (startWheel id now rt).2 = ReferenceError ->
  exists w seed i j bal,
    wheels (st rt) !! id = Some w /\ status w = "waiting"%string /\
    wheelSeeds rt !! id = Some seed /\
    Js.rem (digest_num seed now)
           (Z.of_nat (length (players_of id (st rt)))) = Some i /\
    players_of id (st rt) !! Z.to_nat i = Some j /\
    users (st rt) !! userId j = Some bal /\
    (startWheel id now rt).1 =
    {| st :=
         {| wheels := alter (finish seed) id (wheels (st rt));
            joins :=
              set_payout (j_id j)
                (Z.of_nat (length (players_of id (st rt))) * entryFee w)
                <$> joins (st rt);
            users :=
              <[userId j :=
                  bal + Z.of_nat (length (players_of id (st rt))) * entryFee w]>
                (users (st rt));
            ledger := ledger (st rt); wheel_seq := wheel_seq (st rt);
            join_seq := join_seq (st rt) |};
       wheelSeeds := wheelSeeds rt; locks := locks rt ∖ {[id]};
       emitted := emitted rt |}.
Proof.
  unfold startWheel, players_of.
  case_bool_decide; [done|].
  destruct (wheels (st rt) !! id) as [w|] eqn:Hw; [|done].
  destruct (String.eqb (status w) "waiting") eqn:Hst; simpl; [|done].
  apply String.eqb_eq in Hst.
  destruct (wheelSeeds rt !! id) as [seed|] eqn:Hseed; [|done].
  destruct (String.eqb seed ""); [done|].
  match goal with
  | |- context [match ?x with Some _ => _ | None => _ end] =>
    destruct x as [j|] eqn:Hj; [|done]
  end.
  apply bind_Some in Hj as (i & Hi & Hj).
  destruct (users (st rt) !! userId j) as [bal|] eqn:Hbal; [|done].
  intros _. by exists w, seed, i, j, bal.
Qed.

Lemma elem_of_players_of j id s :
  j ∈ players_of id s <-> j ∈ joins s /\ wheelId j = id /\ paid j = true.
Proof. unfold players_of. rewrite !list_elem_of_filter. tauto. Qed.

(** X12.  A start that fails keeps the lock.  Whatever made [startWheel]
    throw before the payout (the lock was taken, the wheel is missing or
    not waiting, the seed is missing, no paid player, no such user), the
    store, the seeds and the messages are as they were, the lock of the
    wheel is set, and every further start of that wheel is refused with
    "Wheel already starting" until the key expires: no path that throws
    releases the lock. *)
Theorem start_failure_keeps_lock id now rt :
  (startWheel id now rt).2 <> ReferenceError ->
  st (startWheel id now rt).1 = st rt /\
  wheelSeeds (startWheel id now rt).1 = wheelSeeds rt /\
  emitted (startWheel id now rt).1 = emitted rt /\
  id ∈ locks (startWheel id now rt).1 /\
  forall now',
    startWheel id now' (startWheel id now rt).1 =
    ((startWheel id now rt).1, WheelAlreadyStarting).
Proof.
  intros Hfail.
  assert (st (startWheel id now rt).1 = st rt /\
          wheelSeeds (startWheel id now rt).1 = wheelSeeds rt /\
          emitted (startWheel id now rt).1 = emitted rt /\
          id ∈ locks (startWheel id now rt).1) as (Hst & Hseeds & Hem & Hlock).
  { revert Hfail. unfold startWheel.
    case_bool_decide as Hl; [done|].
    assert (id ∈ locks (with_lock id rt)) as Hin by (simpl; set_solver).
    destruct (wheels (st rt) !! id) as [w|]; [|done].
    destruct (negb (String.eqb (status w) "waiting")); [done|].
    destruct (wheelSeeds rt !! id) as [seed|]; [|done].
    destruct (String.eqb seed ""); [done|].
    match goal with
    | |- context [match ?x with Some _ => _ | None => _ end] =>
      destruct x as [j|]; [|done]
    end.
    by destruct (users (st rt) !! userId j). }
  repeat split; try done. intros now'. by apply locked_start.
Qed.

Lemma filter_unchanged {A} (P : A -> Prop) `{forall x, Decision (P x)}
    (f : A -> A) (l : list A) :
  Forall (fun x => (P x -> f x = x) /\ (~ P x -> ~ P (f x))) l ->
  filter P (f <$> l) = filter P l.
Proof.
  induction 1 as [|x l [Hyes Hno] _ IH]; [done|]. csimpl.
  destruct (decide (P x)) as [Hx|Hx].
  - rewrite (Hyes Hx), !filter_cons_True by done. by rewrite IH.
  - rewrite !filter_cons_False by auto. exact IH.
Qed.

Lemma set_payout_other k amt j : j_id j <> k -> set_payout k amt j = j.
Proof.
  intros Hne. unfold set_payout.
  destruct (j_id j =? k) eqn:Hk; [apply Z.eqb_eq in Hk; done|done].
Qed.

Lemma set_payout_keys k amt j :
  j_id (set_payout k amt j) = j_id j /\
  wheelId (set_payout k amt j) = wheelId j /\
  userId (set_payout k amt j) = userId j /\
  paid (set_payout k amt j) = paid j.
Proof. unfold set_payout. by destruct (j_id j =? k). Qed.

Lemma set_payout_ids k amt (l : list join) :
  j_id <$> (set_payout k amt <$> l) = j_id <$> l.
Proof.
  rewrite <- list_fmap_compose. apply list_fmap_ext. intros i j _. simpl.
  by destruct (set_payout_keys k amt j).
Qed.

(** The row of join [j] is the only one that the payout changes. *)
Lemma unique_join (l : list join) j j' :
  NoDup (j_id <$> l) -> j ∈ l -> j' ∈ l -> j_id j' = j_id j -> j' = j.
Proof.
  induction l as [|x l IH]; csimpl; intros Hnd Hj Hj' Hid.
  - by apply elem_of_nil in Hj.
  - apply NoDup_cons in Hnd as [Hx Hnd].
    apply elem_of_cons in Hj as [->|Hj]; apply elem_of_cons in Hj' as [->|Hj'].
    + done.
    + destruct Hx. rewrite <- Hid. apply list_elem_of_fmap. by exists j'.
    + destruct Hx. rewrite Hid. apply list_elem_of_fmap. by exists j.
    + by apply IH.
Qed.

Lemma winners_of_other id id' amt j s :
  NoDup (j_id <$> joins s) -> j ∈ joins s -> wheelId j = id -> id' <> id ->
  filter (fun x => wheelId x = id' /\ is_Some (payout x))
         (set_payout (j_id j) amt <$> joins s) =
  winners_of id' s.
Proof.
  intros Hnd Hj Hw Hne. unfold winners_of. apply filter_unchanged.
  apply Forall_forall. intros x Hx.
  destruct (decide (j_id x = j_id j)) as [Hid|Hid].
  - rewrite (unique_join _ _ _ Hnd Hj Hx Hid).
    destruct (set_payout_keys (j_id j) amt j) as (_ & Hwk & _).
    split; [intros []; congruence|]. intros _ []. congruence.
  - rewrite set_payout_other by done. by split.
Qed.

Lemma winners_of_drawn id amt j (l : list join) :
  NoDup (j_id <$> l) -> j ∈ l -> wheelId j = id ->
  filter (fun x => wheelId x = id /\ is_Some (payout x)) l = [] ->
  filter (fun x => wheelId x = id /\ is_Some (payout x))
         (set_payout (j_id j) amt <$> l) =
  [set_payout (j_id j) amt j].
Proof.
  intros Hnd Hj Hw. induction l as [|x l IH]; csimpl;
    [by apply elem_of_nil in Hj|].
  apply NoDup_cons in Hnd as [Hx Hnd]. intros Hnone.
  destruct (decide (wheelId x = id /\ is_Some (payout x))) as [Hp|Hp];
    [by rewrite filter_cons_True in Hnone|].
  rewrite filter_cons_False in Hnone by done.
  apply elem_of_cons in Hj as [->|Hj].
  - rewrite filter_cons_True.
    2:{ unfold set_payout. rewrite Z.eqb_refl. simpl. split; [done|by eexists]. }
    f_equal.
    rewrite <- Hnone. apply filter_unchanged. apply Forall_forall.
    intros y Hy. rewrite set_payout_other; [done|].
    intros Hid. destruct Hx. rewrite <- Hid. apply list_elem_of_fmap.
    by exists y.
  - assert (j_id x <> j_id j) as Hid.
    { intros Hid. destruct Hx. rewrite Hid. apply list_elem_of_fmap.
      by exists j. }
    rewrite set_payout_other by done.
    rewrite filter_cons_False by done. by apply IH.
Qed.

Lemma payout_inv_fresh us : payout_inv (fresh_store us).
Proof.
  split; [constructor|]. split; [constructor|].
  intros id w Hw. simpl in Hw. by rewrite lookup_empty in Hw.
Qed.

Lemma payout_inv_create seed hostId title segments entryFee maxPlayers rt :
  payout_inv (st rt) ->
  payout_inv
    (st (on_wheel_create seed hostId title segments entryFee maxPlayers rt).1).
Proof.
  intros (Hnd & Hjs & Hws). unfold payout_inv. simpl.
  split; [done|]. split.
  - eapply Forall_impl; [exact Hjs|]. intros j [Hlt [w Hw]].
    split; [done|].
    destruct (decide (wheel_seq (st rt) = wheelId j)) as [<-|Hne].
    + rewrite lookup_insert_eq. by eexists.
    + rewrite lookup_insert_ne by done. by eexists.
  - intros id w Hw.
    destruct (decide (wheel_seq (st rt) = id)) as [<-|Hne].
    + rewrite lookup_insert_eq in Hw. injection Hw as <-. simpl.
      split; [lia|]. left. split; [done|]. unfold winners_of. simpl.
      clear Hnd. induction Hjs as [|j js [_ [wj Hwj]] _ IH]; [done|].
      rewrite filter_cons_False; [exact IH|].
      intros [Hid _]. destruct (Hws _ _ Hwj). lia.
    + rewrite lookup_insert_ne in Hw by done.
      destruct (Hws id w Hw) as [Hlt Hcase]. split; [lia|exact Hcase].
Qed.

Lemma payout_inv_join charged userId wheelId rt :
  payout_inv (st rt) ->
  payout_inv (st (on_wheel_join charged userId wheelId rt).1).
Proof.
  intros (Hnd & Hjs & Hws). unfold on_wheel_join.
  destruct (wheels (st rt) !! wheelId) as [w|] eqn:Hw; [|done].
  destruct (negb charged); [done|]. unfold payout_inv. simpl.
  split; [|split].
  - rewrite fmap_app. apply NoDup_app. split; [done|]. split.
    + intros k Hk Hk'. apply list_elem_of_fmap in Hk as (j & -> & Hj).
      rewrite Forall_forall in Hjs. destruct (Hjs j Hj) as [Hlt _].
      csimpl in Hk'. apply list_elem_of_singleton in Hk'. lia.
    + csimpl. apply NoDup_singleton.
  - apply Forall_app. split.
    + eapply Forall_impl; [exact Hjs|]. intros j [Hlt Hex].
      split; [lia|done].
    + apply Forall_singleton. simpl. split; [lia|]. by rewrite Hw.
  - intros id wd Hwd. destruct (Hws id wd Hwd) as [Hlt Hcase].
    split; [done|]. unfold winners_of in *. simpl.
    rewrite filter_app, filter_cons_False, filter_nil, app_nil_r;
      [done|].
    simpl. intros [_ [? ?]]. done.
Qed.

Lemma payout_inv_start id now rt :
  payout_inv (st rt) -> payout_inv (st (startWheel id now rt).1).
Proof.
  intros (Hnd & Hjs & Hws).
  destruct (startWheel id now rt) as [rt' t] eqn:Hstart.
  assert (t = ReferenceError \/ t <> ReferenceError) as [->|Hfail]
    by (destruct t; first [by left|by right]).
  - destruct (startWheel_paid id now rt) as
      (w & seed & i & j & bal & Hw & Hwait & _ & _ & Hj & _ & Hrt');
      [by rewrite Hstart|].
    rewrite Hstart in Hrt'. simpl in Hrt'. subst rt'. simpl.
    apply list_elem_of_lookup_2, elem_of_players_of in Hj
      as (Hin & Hwj & Hpaid).
    destruct (Hws id w Hw) as [_ [[_ Hnone]|[Hfin _]]]; [|congruence].
    unfold payout_inv. simpl. split; [by rewrite set_payout_ids|]. split.
    + apply Forall_fmap. eapply Forall_impl; [exact Hjs|].
      intros x [Hlt Hex]. simpl.
      destruct (set_payout_keys (j_id j)
                  (Z.of_nat (length (players_of id (st rt))) * entryFee w) x)
        as (-> & -> & _).
      split; [done|]. by rewrite is_Some_alter.
    + intros k wk Hk. unfold winners_of. simpl.
      destruct (decide (k = id)) as [->|Hne].
      * rewrite lookup_alter_eq, Hw in Hk. injection Hk as <-. simpl.
        destruct (Hws id w Hw) as [Hlt _]. split; [done|]. right.
        split; [done|].
        rewrite (winners_of_drawn id _ j (joins (st rt)) Hnd Hin Hwj Hnone).
        eexists. split; [done|].
        by destruct (set_payout_keys (j_id j)
                  (Z.of_nat (length (players_of id (st rt))) * entryFee w) j)
          as (_ & _ & _ & ->).
      * rewrite lookup_alter_ne in Hk by done.
        rewrite (winners_of_other id k _ j (st rt) Hnd Hin Hwj Hne).
        exact (Hws k wk Hk).
  - destruct (startWheel_cases id now rt) as [(Hst & _)|(? & ? & Href & _)];
      rewrite Hstart in *; simpl in *; [by rewrite Hst|done].
Qed.

Lemma payout_inv_serve rt l : payout_inv (st rt) -> payout_inv (st (serve rt l)).
Proof.
  revert rt. induction l as [|r l IH]; intros rt Hinv; [done|].
  simpl. apply IH. destruct r; simpl.
  - by apply payout_inv_create.
  - by apply payout_inv_join.
  - by apply payout_inv_start.
  - done.
Qed.

(** X13.  What a start pays.  In any state of the server, a start that
    gets as far as the payout was on a waiting wheel, with the seed that
    was committed to when the wheel was created; the winner is one of the
    paid joins of that wheel, the one at the index that the digest of the
    nonce under the seed gives modulo their number; the winner's balance
    grows by the whole pool, the number of paid joins times the entry
    fee; that join row, and no other, gets the payout written; the wheel
    is finished and holds the seed; the lock is released; nothing is
    written to the ledger and no message is sent. *)
Theorem start_pays_pool us reqs id now :
  (startWheel id now (reached us reqs)).2 = ReferenceError ->
  exists w seed i j bal,
    wheels (st (reached us reqs)) !! id = Some w /\
    status w = "waiting"%string /\
    wheelSeeds (reached us reqs) !! id = Some seed /\
    sha256_hex seed = serverSeedHash w /\
    Js.rem (digest_num seed now)
           (Z.of_nat (length (players_of id (st (reached us reqs)))))
      = Some i /\
    players_of id (st (reached us reqs)) !! Z.to_nat i = Some j /\
    j ∈ joins (st (reached us reqs)) /\ wheelId j = id /\ paid j = true /\
    users (st (reached us reqs)) !! userId j = Some bal /\
    users (st (startWheel id now (reached us reqs)).1) =
      <[userId j :=
          bal + Z.of_nat (length (players_of id (st (reached us reqs))))
                * entryFee w]> (users (st (reached us reqs))) /\
    wheels (st (startWheel id now (reached us reqs)).1) !! id =
      Some (finish seed w) /\
    set_payout (j_id j)
      (Z.of_nat (length (players_of id (st (reached us reqs)))) * entryFee w)
      j ∈ joins (st (startWheel id now (reached us reqs)).1) /\
    (forall j', j' ∈ joins (st (reached us reqs)) -> j' <> j ->
       j' ∈ joins (st (startWheel id now (reached us reqs)).1)) /\
    ledger (st (startWheel id now (reached us reqs)).1) =
      ledger (st (reached us reqs)) /\
    emitted (startWheel id now (reached us reqs)).1 =
      emitted (reached us reqs) /\
    id ∉ locks (startWheel id now (reached us reqs)).1.
Proof.
  unfold reached.
  pose proof (seed_inv_serve _ reqs (seed_inv_boot us)) as (_ & _ & Hmem & _).
  pose proof (payout_inv_serve (boot (fresh_store us)) reqs
                (payout_inv_fresh us)) as (Hnd & _).
  revert Hmem Hnd. generalize (serve (boot (fresh_store us)) reqs).
  intros rt Hmem Hnd Hstart.
  destruct (startWheel_paid id now rt Hstart)
    as (w & seed & i & j & bal & Hw & Hwait & Hseed & Hi & Hj & Hbal & ->).
  pose proof Hj as Hin.
  apply list_elem_of_lookup_2, elem_of_players_of in Hin
    as (Hin & Hwj & Hpaid).
  destruct (Hmem id seed Hseed) as (w' & Hw' & Hhash).
  replace w' with w in * by congruence.
  exists w, seed, i, j, bal. simpl.
  split; [done|]. split; [done|]. split; [done|]. split; [done|].
  split; [done|]. split; [done|]. split; [done|]. split; [done|].
  split; [done|]. split; [done|]. split; [done|].
  split; [by rewrite lookup_alter_eq, Hw|].
  split; [apply list_elem_of_fmap; by exists j|].
  split; [|split; [done|split; [done|]]].
  2:{ intros Hl. apply elem_of_difference in Hl as [_ Hl]. apply Hl.
      by apply elem_of_singleton. }
  intros j' Hj' Hne. apply list_elem_of_fmap. exists j'. split; [|done].
  rewrite set_payout_other; [done|]. intros Hid.
  by destruct Hne; apply (unique_join _ _ _ Hnd Hin Hj' Hid).
Qed.

(** X14.  A wheel pays once.  In any state that the server reaches from an
    empty store, requests being served one after the other, a wheel is
    either waiting, and then none of its joins holds a payout, or
    finished, and then exactly one of them does, a paid one. *)
Theorem one_payout_per_wheel us reqs id w :
  wheels (st (reached us reqs)) !! id = Some w ->
  (status w = "waiting"%string /\
   winners_of id (st (reached us reqs)) = []) \/
  (status w = "finished"%string /\
   exists j, winners_of id (st (reached us reqs)) = [j] /\ paid j = true).
Proof.
  intros Hw.
  destruct (payout_inv_serve (boot (fresh_store us)) reqs
              (payout_inv_fresh us)) as (_ & _ & Hws).
  by destruct (Hws id w Hw).
Qed.

End start.

Lemma start_failure_keeps_lock_witness :
  GameService.st
    (GameService.startWheel (H := SampleDraw.crypto) 1 1730000000000
       (GameService.reached (H := SampleDraw.crypto) (<[7 := 500]> ∅)
          [GameService.WheelCreate "5eed" 7 "Demo" SampleDraw.four_segments
             100 5])).1 =
  GameService.st
    (GameService.reached (H := SampleDraw.crypto) (<[7 := 500]> ∅)
       [GameService.WheelCreate "5eed" 7 "Demo" SampleDraw.four_segments
          100 5]) /\
  forall now',
    GameService.startWheel (H := SampleDraw.crypto) 1 now'
      (GameService.startWheel (H := SampleDraw.crypto) 1 1730000000000
         (GameService.reached (H := SampleDraw.crypto) (<[7 := 500]> ∅)
            [GameService.WheelCreate "5eed" 7 "Demo"
               SampleDraw.four_segments 100 5])).1 =
    ((GameService.startWheel (H := SampleDraw.crypto) 1 1730000000000
        (GameService.reached (H := SampleDraw.crypto) (<[7 := 500]> ∅)
           [GameService.WheelCreate "5eed" 7 "Demo"
              SampleDraw.four_segments 100 5])).1,
     GameService.WheelAlreadyStarting).
Proof.
  destruct (start_failure_keeps_lock (H := SampleDraw.crypto) 1 1730000000000
              (GameService.reached (H := SampleDraw.crypto) (<[7 := 500]> ∅)
                 [GameService.WheelCreate "5eed" 7 "Demo"
                    SampleDraw.four_segments 100 5]))
    as (Hst & _ & _ & _ & Hretry).
  - vm_compute. discriminate.
  - split; [exact Hst|exact Hretry].
Defined.

Lemma start_pays_pool_witness :
  exists bal,
    GameService.users
      (GameService.st (GameService.reached (H := SampleDraw.crypto)
                         (<[7 := 500]> (<[8 := 500]> ∅))
                         [GameService.WheelCreate "5eed" 8 "Demo Wheel"
                            SampleDraw.four_segments 100 5;
                          GameService.WheelJoin true 7 1;
                          GameService.WheelJoin true 8 1])) !! 7 = Some bal /\
    GameService.users
      (GameService.st
         (GameService.startWheel (H := SampleDraw.crypto) 1 1730000000000
            (GameService.reached (H := SampleDraw.crypto)
               (<[7 := 500]> (<[8 := 500]> ∅))
               [GameService.WheelCreate "5eed" 8 "Demo Wheel"
                  SampleDraw.four_segments 100 5;
                GameService.WheelJoin true 7 1;
                GameService.WheelJoin true 8 1])).1) !! 7 = Some (bal + 200).
Proof.
  destruct (start_pays_pool (H := SampleDraw.crypto)
              (<[7 := 500]> (<[8 := 500]> ∅))
              [GameService.WheelCreate "5eed" 8 "Demo Wheel"
                 SampleDraw.four_segments 100 5;
               GameService.WheelJoin true 7 1;
               GameService.WheelJoin true 8 1] 1 1730000000000)
    as (w & seed & i & j & bal & Hw & _ & Hseed & _ & Hi & Hj & _ & _ & _
        & Hbal & Hus & _).
  - vm_compute. reflexivity.
  - vm_compute in Hw. injection Hw as <-.
    vm_compute in Hseed. injection Hseed as <-.
    vm_compute in Hi. injection Hi as <-.
    vm_compute in Hj. injection Hj as <-.
    exists bal. split; [exact Hbal|].
    rewrite Hus. apply lookup_insert_eq.
Defined.

Lemma one_payout_per_wheel_witness :
  (GameService.status SampleDraw.revealed = "waiting"%string /\
   GameService.winners_of 1
     (GameService.st (GameService.reached (H := SampleDraw.crypto)
                        (<[7 := 500]> (<[8 := 500]> ∅))
                        SampleDraw.requests)) = []) \/
  (GameService.status SampleDraw.revealed = "finished"%string /\
   exists j,
     GameService.winners_of 1
       (GameService.st (GameService.reached (H := SampleDraw.crypto)
                          (<[7 := 500]> (<[8 := 500]> ∅))
                          SampleDraw.requests)) = [j] /\
     GameService.paid j = true).
Proof.
  apply (one_payout_per_wheel (H := SampleDraw.crypto)
           (<[7 := 500]> (<[8 := 500]> ∅)) SampleDraw.requests 1
           SampleDraw.revealed).
  vm_compute. reflexivity.
Defined.

(** ** The draw when every segment counts the same *)

Section uniform.
Import GameService.
Context `{Crypto}.

Lemma unit_weights_sum (segs : list segment) :
  Forall (fun seg => eff_weight seg = 1) segs ->
  foldr Z.add 0 (eff_weight <$> segs) = Z.of_nat (length segs).
Proof.
  induction 1 as [|seg segs Hseg _ IH]; csimpl; [done|].
  rewrite Hseg, IH. lia.
Qed.

(** X15.  With weights that all count 1 (missing, 0 or 1) the weighted
    draw is a plain remainder: the index returned for a non-empty list is
    the number read from the digest modulo the number of segments. *)
Theorem spin_index_unit_weights seed nonce segs :
  segs <> [] -> Forall (fun seg => eff_weight seg = 1) segs ->
  deterministicSpinIndex seed nonce segs =
  digest_num seed nonce `mod` Z.of_nat (length segs).
Proof.
  intros Hne Hunit.
  assert (totalWeight segs = Z.of_nat (length segs)) as Htot
    by (rewrite totalWeight_sum; by apply unit_weights_sum).
  assert (0 < totalWeight segs) as Hpos
    by (rewrite Htot; destruct segs; [done|simpl length; lia]).
  unfold deterministicSpinIndex. cbv zeta.
  rewrite (reduced_pick _ _ _ Hpos), Htot.
  set (p := digest_num seed nonce `mod` Z.of_nat (length segs)).
  assert (0 <= p < Z.of_nat (length segs)) as Hp
    by (apply Z.mod_pos_bound; lia).
  destruct (spin_loop_first p 0 0 segs (Z.of_nat (length segs) - 1))
    as (k & -> & Hk & Hex & Hmin);
    [by rewrite unit_weights_sum|].
  assert (forall j, (j < length segs)%nat ->
            foldr Z.add 0 (eff_weight <$> take (S j) segs) = Z.of_nat (S j))
    as Hsum.
  { intros j Hj. rewrite unit_weights_sum by (by apply Forall_take).
    rewrite length_take. lia. }
  rewrite Hsum in Hex by done.
  destruct k as [|k]; [lia|].
  specialize (Hmin k (Nat.lt_succ_diag_r k)). rewrite Hsum in Hmin by lia.
  lia.
Qed.

End uniform.

Lemma spin_index_unit_weights_witness :
  GameService.deterministicSpinIndex (H := SampleDraw.crypto) "5eed"
    1730000000001 SampleDraw.four_segments =
  GameService.digest_num (H := SampleDraw.crypto) "5eed" 1730000000001
  `mod` Z.of_nat (length SampleDraw.four_segments).
Proof.
  apply (spin_index_unit_weights (H := SampleDraw.crypto) "5eed"
           1730000000001 SampleDraw.four_segments).
  - discriminate.
  - unfold SampleDraw.four_segments.
    repeat match goal with |- Forall _ _ => constructor end; reflexivity.
Defined.

(** ** The two ways to start a wheel *)

(** X16.  The manual start and the auto-start timer do the same thing:
    when [POST /api/wheels/:id/start] answers ok, the database it leaves,
    the events it sends and the timers it sets are those that
    [autoStartWheel] would have produced in its place. *)
Theorem manual_start_as_timer shuffle d wid owner d' ev tm :
  post_wheels_start shuffle d wid owner = (d', ev, tm, StartOk) ->
  autoStartWheel shuffle wid d = (d', ev, tm).
Proof.
  unfold post_wheels_start. intros Hst.
  destruct (start_checks d wid owner) as [r|] eqn:Hc.
  { injection Hst as _ _ _ ->. by destruct (start_checks_not_ok d wid owner). }
  destruct (start_checks_pass _ _ _ Hc) as (w & Hw & Hpend & Hcount).
  unfold start_commit in Hst. injection Hst as <- <- <-.
  unfold autoStartWheel. rewrite Hw.
  rewrite bool_decide_eq_true_2 by done. simpl.
  by assert ((count_participants wid d <? min_participants w) = false)
    as -> by (apply Z.ltb_ge; lia).
Qed.

Lemma manual_start_as_timer_witness :
  autoStartWheel (@rev _) 1 Sample.three_joined =
  (Sample.started_db, Sample.started.1.1.2, Sample.started.1.2).
Proof.
  apply (manual_start_as_timer (@rev _) Sample.three_joined 1 1).
  vm_compute. reflexivity.
Defined.

(** ** The lobby page *)

Lemma lobby_ids_kept (f : Lobby.wheel -> Lobby.wheel) (k : Z)
    (l : list Lobby.wheel) :
  (forall w, Lobby.id (f w) = Lobby.id w) ->
  Lobby.id <$> (f <$> l) = Lobby.id <$> l /\
  filter (fun w => Lobby.id w = k) (f <$> l) =
    f <$> filter (fun w => Lobby.id w = k) l.
Proof.
  intros Hid. split.
  - rewrite <- list_fmap_compose. apply list_fmap_ext. intros i w _. apply Hid.
  - induction l as [|w l IH]; csimpl; [done|].
    destruct (decide (Lobby.id w = k)) as [Hk|Hk].
    + rewrite !filter_cons_True by (by rewrite ?Hid). csimpl. by rewrite IH.
    + rewrite !filter_cons_False by (by rewrite ?Hid). exact IH.
Qed.

Lemma lobby_handlers_keep_id wheelId (g : Lobby.wheel -> Lobby.wheel) w :
  (forall w, Lobby.id (g w) = Lobby.id w) ->
  Lobby.id (if Lobby.id w =? wheelId then g w else w) = Lobby.id w.
Proof. intros Hg. by destruct (Lobby.id w =? wheelId). Qed.

(** The state is the one that the messages since the last answer of the
    GET have made of the list that the answer held; none of them is an
    answer of the GET. *)
Lemma replay_since_fetch ms : forall base recent,
  Forall (fun m => Lobby.is_fetch m = false) recent ->
  Lobby.replay (Lobby.replay base recent) ms =
    Lobby.replay (Lobby.since_fetch base recent ms).1
                 (Lobby.since_fetch base recent ms).2 /\
  Forall (fun m => Lobby.is_fetch m = false)
         (Lobby.since_fetch base recent ms).2.
Proof.
  unfold Lobby.replay.
  induction ms as [|m ms IH]; intros base recent Hrec; [done|].
  assert (forall m', Lobby.is_fetch m' = false ->
            foldl Lobby.on_message
              (Lobby.on_message (foldl Lobby.on_message base recent) m') ms =
            foldl Lobby.on_message
              (Lobby.since_fetch base (recent ++ [m']) ms).1
              (Lobby.since_fetch base (recent ++ [m']) ms).2 /\
            Forall (fun m => Lobby.is_fetch m = false)
                   (Lobby.since_fetch base (recent ++ [m']) ms).2) as Hstep.
  { intros m' Hm'.
    destruct (IH base (recent ++ [m'])) as [<- Hall].
    - apply Forall_app. split; [done|]. by apply Forall_singleton.
    - split; [|done]. by rewrite foldl_app. }
  destruct m as [w|wheelId userId|wheelId win|data];
    cbn [foldl Lobby.since_fetch].
  - by apply (Hstep (Lobby.wheel_created w)).
  - by apply (Hstep (Lobby.wheel_player_joined wheelId userId)).
  - by apply (Hstep (Lobby.wheel_finished wheelId win)).
  - by apply (IH data []).
Qed.

Lemma lobby_ids_no_fetch ms : forall prev,
  Forall (fun m => Lobby.is_fetch m = false) ms ->
  Lobby.id <$> Lobby.replay prev ms =
  reverse (Lobby.created_ids ms) ++ (Lobby.id <$> prev).
Proof.
  unfold Lobby.replay.
  induction ms as [|m ms IH]; intros prev Hms; [done|].
  apply Forall_cons in Hms as [Hm Hms].
  simpl. rewrite IH by done.
  destruct m as [w|wheelId userId|wheelId win|data]; csimpl.
  - by rewrite reverse_cons, <- app_assoc.
  - f_equal.
    apply (lobby_ids_kept
             (fun w => if Lobby.id w =? wheelId
                       then Lobby.add_join userId w else w) 0).
    intros w. by apply lobby_handlers_keep_id.
  - f_equal.
    apply (lobby_ids_kept
             (fun w => if Lobby.id w =? wheelId
                       then Lobby.finished win w else w) 0).
    intros w. by apply lobby_handlers_keep_id.
  - done.
Qed.

Lemma lobby_counts_no_fetch k ms : forall prev,
  Forall (fun m => Lobby.is_fetch m = false) ms ->
  k ∉ Lobby.created_ids ms ->
  Lobby.players <$> filter (fun w => Lobby.id w = k) (Lobby.replay prev ms) =
  (fun n => (n + Lobby.joins_for k ms)%nat)
    <$> (Lobby.players <$> filter (fun w => Lobby.id w = k) prev).
Proof.
  unfold Lobby.replay.
  induction ms as [|m ms IH]; intros prev Hms Hk.
  - simpl. rewrite <- list_fmap_compose. apply list_fmap_ext.
    intros i w _. simpl. unfold Lobby.joins_for. simpl. lia.
  - apply Forall_cons in Hms as [Hm Hms].
    destruct m as [w|wheelId userId|wheelId win|data]; csimpl in *.
    + apply not_elem_of_cons in Hk as [Hw Hk]. rewrite (IH _ Hms Hk).
      rewrite filter_cons_False by done.
      unfold Lobby.joins_for. by rewrite filter_cons_False by done.
    + rewrite (IH _ Hms Hk).
      destruct (lobby_ids_kept
                  (fun w => if Lobby.id w =? wheelId
                            then Lobby.add_join userId w else w) k prev)
        as [_ ->]; [intros w; by apply lobby_handlers_keep_id|].
      rewrite <- !list_fmap_compose. apply list_fmap_ext.
      intros i w Hi.
      apply list_elem_of_lookup_2, list_elem_of_filter in Hi as [Hid _].
      simpl. unfold Lobby.joins_for.
      destruct (decide (wheelId = k)) as [->|Hne].
      * rewrite filter_cons_True by (simpl; by case_bool_decide).
        rewrite Hid, Z.eqb_refl. unfold Lobby.players, Lobby.add_join.
        simpl. rewrite length_app. simpl. lia.
      * rewrite filter_cons_False by (simpl; by case_bool_decide).
        by assert ((Lobby.id w =? wheelId) = false) as ->
          by (apply Z.eqb_neq; congruence).
    + rewrite (IH _ Hms Hk).
      destruct (lobby_ids_kept
                  (fun w => if Lobby.id w =? wheelId
                            then Lobby.finished win w else w) k prev)
        as [_ ->]; [intros w; by apply lobby_handlers_keep_id|].
      rewrite <- !list_fmap_compose. apply list_fmap_ext.
      intros i w _. simpl. unfold Lobby.joins_for.
      rewrite filter_cons_False by done.
      by destruct (Lobby.id w =? wheelId).
    + done.
Qed.

(** X17.  What the lobby lists.  Whatever messages and answers of the GET
    of [fetchWheels] arrive, in whatever order, the wheels listed are those
    of the last answer of the GET (those listed at the beginning, when no
    answer has come), in the same order, preceded by the wheels that
    [wheel:created] has announced since that answer, the latest first: the
    handlers of [wheel:player_joined] and [wheel:finished] neither add,
    remove nor reorder an entry, a wheel announced twice is listed twice,
    and an answer of the GET replaces the whole list. *)
Theorem lobby_lists_every_wheel prev ms :
  Lobby.id <$> Lobby.replay prev ms =
  reverse (Lobby.created_ids (Lobby.since_fetch prev [] ms).2) ++
  (Lobby.id <$> (Lobby.since_fetch prev [] ms).1).
Proof.
  destruct (replay_since_fetch ms prev []) as [Hre Hall]; [done|].
  change (Lobby.replay prev []) with prev in Hre. rewrite Hre.
  by apply lobby_ids_no_fetch.
Qed.

Example lobby_fetch_replaces :
  Lobby.id <$>
    Lobby.replay []
      [Lobby.wheel_created
         {| Lobby.id := 3; Lobby.joins := None; Lobby.status := None;
            Lobby.winner := None |};
       Lobby.wheels_fetched
         [{| Lobby.id := 2; Lobby.joins := None; Lobby.status := None;
             Lobby.winner := None |};
          {| Lobby.id := 1; Lobby.joins := None; Lobby.status := None;
             Lobby.winner := None |}];
       Lobby.wheel_player_joined 2 7;
       Lobby.wheel_created
         {| Lobby.id := 4; Lobby.joins := None; Lobby.status := None;
            Lobby.winner := None |}]
  = [4; 2; 1].
Proof. reflexivity. Qed.

(** X18.  The number of players that the lobby shows.  For a wheel that is
    in the list of the last answer of the GET (in the list of the
    beginning, when no answer has come), and while no message has announced
    its id again since, the number shown is the number that the answer
    gave it plus one for every [wheel:player_joined] of that wheel that has
    arrived since, whatever the status of the wheel; the joins that arrived
    before the answer count only as far as the answer holds them. *)
Theorem lobby_counts_joins k prev ms :
  k ∉ Lobby.created_ids (Lobby.since_fetch prev [] ms).2 ->
  Lobby.players <$> filter (fun w => Lobby.id w = k) (Lobby.replay prev ms) =
  (fun n => (n + Lobby.joins_for k (Lobby.since_fetch prev [] ms).2)%nat)
    <$> (Lobby.players
           <$> filter (fun w => Lobby.id w = k)
                      (Lobby.since_fetch prev [] ms).1).
Proof.
  intros Hk.
  destruct (replay_since_fetch ms prev []) as [Hre Hall]; [done|].
  change (Lobby.replay prev []) with prev in Hre. rewrite Hre.
  by apply lobby_counts_no_fetch.
Qed.

(** Wheel 1 has one join when the GET answers; two joins of wheel 1 arrive
    before the answer and one after it: the page shows 2. *)
Lemma lobby_counts_joins_witness :
  Lobby.players
    <$> filter (fun w => Lobby.id w = 1)
          (Lobby.replay []
             [Lobby.wheel_player_joined 1 7;
              Lobby.wheel_player_joined 1 9;
              Lobby.wheels_fetched
                [{| Lobby.id := 1; Lobby.joins := Some [7];
                    Lobby.status := Some "waiting"%string;
                    Lobby.winner := None |}];
              Lobby.wheel_created
                {| Lobby.id := 2; Lobby.joins := None;
                   Lobby.status := Some "waiting"%string;
                   Lobby.winner := None |};
              Lobby.wheel_player_joined 2 7;
              Lobby.wheel_finished 1 7;
              Lobby.wheel_player_joined 1 8]) = [2%nat].
Proof.
  pose proof (lobby_counts_joins 1 []
                [Lobby.wheel_player_joined 1 7;
                 Lobby.wheel_player_joined 1 9;
                 Lobby.wheels_fetched
                   [{| Lobby.id := 1; Lobby.joins := Some [7];
                       Lobby.status := Some "waiting"%string;
                       Lobby.winner := None |}];
                 Lobby.wheel_created
                   {| Lobby.id := 2; Lobby.joins := None;
                      Lobby.status := Some "waiting"%string;
                      Lobby.winner := None |};
                 Lobby.wheel_player_joined 2 7;
                 Lobby.wheel_finished 1 7;
                 Lobby.wheel_player_joined 1 8]) as H.
  rewrite H.
  - vm_compute. reflexivity.
  - apply (bool_decide_unpack _). by vm_compute.
Defined.

(** ** The number that the draw reads from the digest *)

Lemma to_double_close n :
  0 <= n < 2 ^ 60 ->
  Z.abs (Js.to_double n - n) <= 64 /\ (n < 2 ^ 53 -> Js.to_double n = n).
Proof.
  intros Hn. unfold Js.to_double.
  destruct (Z.log2 n - 52 <=? 0) eqn:He.
  { split; [lia|done]. }
  apply Z.leb_gt in He.
  assert (0 < n) as Hpos.
  { destruct (decide (n = 0)) as [->|]; [simpl in He; lia|lia]. }
  assert (Z.log2 n < 60) as Hlog by (apply Z.log2_lt_pow2; lia).
  split.
  2:{ intros Hsmall. apply Z.log2_lt_pow2 in Hsmall; lia. }
  set (e := Z.log2 n - 52) in *.
  assert (2 ^ e = 2 * 2 ^ (e - 1)) as Hpow.
  { replace e with (1 + (e - 1)) at 1 by lia.
    rewrite Z.pow_add_r by lia. done. }
  assert (0 < 2 ^ (e - 1)) as Hhalf by (apply Z.pow_pos_nonneg; lia).
  assert (2 ^ (e - 1) <= 2 ^ 6) as Hsix by (apply Z.pow_le_mono_r; lia).
  change (2 ^ 6) with 64 in Hsix.
  pose proof (Z.div_mod n (2 ^ e) ltac:(lia)) as Hdm.
  pose proof (Z.mod_pos_bound n (2 ^ e) ltac:(lia)) as Hr.
  set (q := n / 2 ^ e) in *. set (r := n mod 2 ^ e) in *.
  set (half := 2 ^ (e - 1)) in *.
  destruct (r <? half) eqn:Hlt; [apply Z.ltb_lt in Hlt; nia|].
  apply Z.ltb_ge in Hlt.
  destruct (half <? r) eqn:Hgt; [apply Z.ltb_lt in Hgt; nia|].
  apply Z.ltb_ge in Hgt. destruct (Z.even q); nia.
Qed.

(** X19.  The number of the draw is a rounded one.  The fifteen hex
    digits that [parseInt] reads are 60 bits, more than a double holds:
    the number that the draw reduces is the nearest double, which is the
    digits' value when that is below 2^53 and is otherwise off by at most
    64.  Whoever recomputes a draw from the revealed seed has to round
    the same way. *)
Theorem digest_num_rounding `{Crypto} seed nonce :
  0 <= GameService.digest_prefix seed nonce < 2 ^ 60 /\
  GameService.digest_num seed nonce =
    Js.to_double (GameService.digest_prefix seed nonce) /\
  Z.abs (GameService.digest_num seed nonce -
         GameService.digest_prefix seed nonce) <= 64 /\
  (GameService.digest_prefix seed nonce < 2 ^ 53 ->
   GameService.digest_num seed nonce = GameService.digest_prefix seed nonce).
Proof.
  assert (0 <= GameService.digest_prefix seed nonce < 2 ^ 60) as Hp.
  { unfold GameService.digest_prefix.
    pose proof (Z.mod_pos_bound (hmac_sha256 seed (pretty nonce)) (2 ^ 256)
                  ltac:(lia)) as Hm.
    split; [apply Z.div_pos; lia|].
    apply Z.div_lt_upper_bound; [lia|].
    change (2 ^ 196 * 2 ^ 60) with (2 ^ 256). lia. }
  split; [done|]. split; [done|]. by apply to_double_close.
Qed.

(** The sample digest shows the rounding: the digits denote
    679138159603606937, the draw reads 679138159603606912. *)
Example digest_num_rounded_sample :
  GameService.digest_prefix (H := SampleDraw.crypto) "5eed" 1730000000000
    = 679138159603606937 /\
  GameService.digest_num (H := SampleDraw.crypto) "5eed" 1730000000000
    = 679138159603606912.
Proof. evaluate. Qed.

(** ** Joining a wheel that has finished *)

Section late.
Import GameService.
Context `{Crypto}.

(** No handler removes a join row or changes whose it is, and a payout
    once written stays. *)
Lemma row_kept_handle rt r j :
  j ∈ joins (st rt) ->
  exists j', j' ∈ joins (st (handle rt r)) /\ j_id j' = j_id j /\
    wheelId j' = wheelId j /\ userId j' = userId j /\ paid j' = paid j /\
    (is_Some (payout j) -> is_Some (payout j')).
Proof.
  intros Hj. destruct r as [seed h t segs fee m|charged u wid|wid now|wid];
    simpl.
  - by exists j.
  - unfold on_wheel_join. destruct (wheels (st rt) !! wid); [|by exists j].
    destruct (negb charged); [by exists j|]. simpl. exists j.
    split; [apply elem_of_app; by left|done].
  - destruct (startWheel wid now rt) as [rt' t] eqn:Hstart.
    assert (t = ReferenceError \/ t <> ReferenceError) as [->|Hfail]
      by (destruct t; first [by left|by right]).
    + destruct (startWheel_paid wid now rt) as
        (w & seed & i & jw & bal & _ & _ & _ & _ & _ & _ & Hrt');
        [by rewrite Hstart|].
      rewrite Hstart in Hrt'. simpl in *. subst rt'. simpl.
      eexists. split; [apply list_elem_of_fmap; by exists j|].
      destruct (set_payout_keys (j_id jw)
                  (Z.of_nat (length (players_of wid (st rt))) * entryFee w) j)
        as (-> & -> & -> & ->).
      repeat split; try done. unfold set_payout.
      by destruct (j_id j =? j_id jw).
    + destruct (startWheel_cases wid now rt)
        as [(Hst & _)|(? & ? & Href & _)];
        rewrite Hstart in *; simpl in *; [|done].
      rewrite Hst. by exists j.
  - by exists j.
Qed.

Lemma row_kept_serve l : forall rt j,
  j ∈ joins (st rt) ->
  exists j', j' ∈ joins (st (serve rt l)) /\ j_id j' = j_id j /\
    wheelId j' = wheelId j /\ userId j' = userId j /\ paid j' = paid j /\
    (is_Some (payout j) -> is_Some (payout j')).
Proof.
  induction l as [|r l IH]; intros rt j Hj; [by exists j|].
  destruct (row_kept_handle rt r j Hj) as (j1 & Hj1 & Hid & Hw & Hu & Hp & Hpay).
  destruct (IH (handle rt r) j1 Hj1) as (j2 & Hj2 & Hid2 & Hw2 & Hu2 & Hp2 & Hpay2).
  exists j2. simpl. split; [done|].
  repeat split; try congruence. auto.
Qed.

Lemma payout_inv_handle rt r :
  payout_inv (st rt) -> payout_inv (st (handle rt r)).
Proof. intros Hinv. apply (payout_inv_serve rt [r] Hinv). Qed.

(** A wheel that has finished stays finished. *)
Lemma finished_kept l : forall rt id w,
  payout_inv (st rt) -> wheels (st rt) !! id = Some w ->
  status w = "finished"%string ->
  exists w', wheels (st (serve rt l)) !! id = Some w' /\
    status w' = "finished"%string.
Proof.
  induction l as [|r l IH]; intros rt id w Hinv Hw Hfin; [by exists w|].
  simpl. assert (exists w1, wheels (st (handle rt r)) !! id = Some w1 /\
                   status w1 = "finished"%string) as (w1 & Hw1 & Hfin1).
  { destruct r as [seed h t segs fee m|charged u wid|wid now|wid]; simpl.
    - exists w. split; [|done].
      destruct Hinv as (_ & _ & Hws). destruct (Hws id w Hw) as [Hlt _].
      rewrite lookup_insert_ne; [done|lia].
    - exists w. split; [|done]. unfold on_wheel_join.
      destruct (wheels (st rt) !! wid); [|done].
      by destruct (negb charged).
    - destruct (startWheel_cases wid now rt)
        as [(-> & _)|(w0 & seed & _ & Hw0 & Hwait & _ & -> & _)];
        [by exists w|].
      destruct (decide (wid = id)) as [->|Hne].
      + rewrite Hw in Hw0. injection Hw0 as <-. congruence.
      + exists w. by rewrite lookup_insert_ne.
    - by exists w. }
  apply (IH (handle rt r) id w1); [by apply payout_inv_handle|done|done].
Qed.

(** X20.  A join after the draw is taken and never paid.  The
    [wheel:join] handler looks at neither the status of the wheel nor
    [maxPlayers]: in any state of the server, when the payment succeeds, a
    join of a wheel that has finished is accepted and its row is written
    as paid.  Whatever requests follow, that row is still there and never
    holds a payout. *)
Theorem late_join_never_paid us reqs1 id w u reqs2 :
  wheels (st (reached us reqs1)) !! id = Some w ->
  status w = "finished"%string ->
  (exists x,
     x ∈ joins (st (reached us (reqs1 ++ WheelJoin true u id :: reqs2))) /\
     j_id x = join_seq (st (reached us reqs1))) /\
  forall x,
    x ∈ joins (st (reached us (reqs1 ++ WheelJoin true u id :: reqs2))) ->
    j_id x = join_seq (st (reached us reqs1)) ->
    userId x = u /\ wheelId x = id /\ paid x = true /\ payout x = None.
Proof.
  unfold reached, serve. rewrite foldl_app. fold (serve (boot (fresh_store us)) reqs1).
  pose proof (payout_inv_serve (boot (fresh_store us)) reqs1
                (payout_inv_fresh us)) as Hinv1.
  revert Hinv1. generalize (serve (boot (fresh_store us)) reqs1).
  intros rt1 Hinv1 Hw Hfin.
  change (foldl handle rt1 (WheelJoin true u id :: reqs2))
    with (serve (handle rt1 (WheelJoin true u id)) reqs2).
  set (rt2 := handle rt1 (WheelJoin true u id)).
  set (jn := {| j_id := join_seq (st rt1); userId := u; wheelId := id;
                paid := true; payout := None |}).
  assert (Hjoins2 : joins (st rt2) = joins (st rt1) ++ [jn]).
  { unfold rt2. simpl. unfold on_wheel_join. by rewrite Hw. }
  pose proof (payout_inv_handle rt1 (WheelJoin true u id) Hinv1) as Hinv2.
  fold rt2 in Hinv2.
  pose proof (payout_inv_serve rt2 reqs2 Hinv2) as HinvF.
  assert (Hjn : jn ∈ joins (st rt2))
    by (rewrite Hjoins2; apply elem_of_app; right; apply list_elem_of_here).
  destruct (row_kept_serve reqs2 rt2 jn Hjn)
    as (jn' & Hjn' & Hid' & Hwid' & Hu' & Hp' & _).
  change (j_id jn) with (join_seq (st rt1)) in Hid'.
  change (wheelId jn) with id in Hwid'. change (userId jn) with u in Hu'.
  change (paid jn) with true in Hp'.
  split; [by exists jn'|].
  intros x Hx Hidx.
  destruct HinvF as (HndF & _ & HwsF).
  assert (x = jn') as -> by (apply (unique_join _ _ _ HndF Hjn' Hx); congruence).
  split; [done|]. split; [done|]. split; [done|].
  destruct (payout jn') as [a|] eqn:Hpay; [exfalso|done].
  (* the winner that the draw has paid is still the only one *)
  pose proof Hinv1 as (_ & Hjs1 & Hws1).
  destruct (Hws1 id w Hw) as [_ [[Hwait _]|[_ (j0 & Hwin0 & _)]]];
    [congruence|].
  assert (j0 ∈ winners_of id (st rt1)) as Hj0
    by (rewrite Hwin0; apply list_elem_of_here).
  unfold winners_of in Hj0. apply list_elem_of_filter in Hj0 as [[Hw0 Hpay0] Hj0].
  rewrite Forall_forall in Hjs1. destruct (Hjs1 j0 Hj0) as [Hlt0 _].
  assert (j0 ∈ joins (st rt2)) as Hj02
    by (rewrite Hjoins2; apply elem_of_app; by left).
  destruct (row_kept_serve reqs2 rt2 j0 Hj02)
    as (j0' & Hj0' & Hid0 & Hwid0 & _ & _ & Hpay0').
  assert (exists w2, wheels (st rt2) !! id = Some w2 /\
            status w2 = "finished"%string) as (w2 & Hw2 & Hfin2)
    by (apply (finished_kept [WheelJoin true u id] rt1 id w); done).
  destruct (finished_kept reqs2 rt2 id w2 Hinv2 Hw2 Hfin2) as (wF & HwF & HfinF).
  destruct (HwsF id wF HwF) as [_ [[Hwait _]|[_ (jw & HwinF & _)]]];
    [congruence|].
  assert (jn' ∈ winners_of id (st (serve rt2 reqs2))) as Hin1.
  { unfold winners_of. apply list_elem_of_filter. split; [|done].
    split; [congruence|]. rewrite Hpay. by eexists. }
  assert (j0' ∈ winners_of id (st (serve rt2 reqs2))) as Hin2.
  { unfold winners_of. apply list_elem_of_filter. split; [|done].
    split; [congruence|]. by apply Hpay0'. }
  rewrite HwinF in Hin1, Hin2.
  apply list_elem_of_singleton in Hin1, Hin2. subst jn' j0'.
  simpl in *. lia.
Qed.

End late.

Lemma late_join_never_paid_witness :
  (exists x,
     x ∈ GameService.joins
           (GameService.st
              (GameService.reached (H := SampleDraw.crypto)
                 (<[7 := 500]> (<[8 := 500]> ∅))
                 (SampleDraw.requests ++
                  GameService.WheelJoin true 8 1 ::
                  [GameService.WheelStart 1 1730000000500]))) /\
     GameService.j_id x =
       GameService.join_seq
         (GameService.st
            (GameService.reached (H := SampleDraw.crypto)
               (<[7 := 500]> (<[8 := 500]> ∅)) SampleDraw.requests))) /\
  forall x,
    x ∈ GameService.joins
          (GameService.st
             (GameService.reached (H := SampleDraw.crypto)
                (<[7 := 500]> (<[8 := 500]> ∅))
                (SampleDraw.requests ++
                 GameService.WheelJoin true 8 1 ::
                 [GameService.WheelStart 1 1730000000500]))) ->
    GameService.j_id x =
      GameService.join_seq
        (GameService.st
           (GameService.reached (H := SampleDraw.crypto)
              (<[7 := 500]> (<[8 := 500]> ∅)) SampleDraw.requests)) ->
    GameService.userId x = 8 /\ GameService.wheelId x = 1 /\
    GameService.paid x = true /\ GameService.payout x = None.
Proof.
  assert (Hw : GameService.wheels
                 (GameService.st
                    (GameService.reached (H := SampleDraw.crypto)
                       (<[7 := 500]> (<[8 := 500]> ∅)) SampleDraw.requests))
               !! 1 = Some SampleDraw.revealed)
    by (vm_compute; reflexivity).
  exact (late_join_never_paid (H := SampleDraw.crypto)
           (<[7 := 500]> (<[8 := 500]> ∅)) SampleDraw.requests 1
           SampleDraw.revealed 8 [GameService.WheelStart 1 1730000000500]
           Hw eq_refl).
Defined.
